(** * Chord-sheet extraction pipeline of [services/geminiService.ts]

    A shallow embedding of the PDF parsing logic (the functions
    [isChordToken], [mergeAdjacentTextItems], [classifyLine] and
    [extractTextFromPdf]) together with the properties stated about it.

    Conventions of the embedding.
    - A JavaScript string is the list of its UTF-16 code units ([N]).
    - A JavaScript number is a rational ([Q]): arithmetic is exact, and
      the sentinel [-Infinity] of the two rendering loops is [None].
    - [throw] is the [Throw] constructor of [result]; an exception that is
      not caught propagates through [bind]. *)

From Stdlib Require Import String Ascii.
From Stdlib Require Import Bool Arith NArith ZArith QArith Qabs Lia Lqa List.
From Stdlib Require Import Sorted Permutation.
From Equations Require Import Equations.
Import ListNotations.

Set Implicit Arguments.

(* ================================================================== *)
(** * Part I. The embedding                                            *)
(* ================================================================== *)

(** ** Strings *)

Definition jsstring := list N.

(** A string literal of the source, for ASCII text. *)
Definition lit (s : string) : jsstring :=
  map N_of_ascii (list_ascii_of_string s).

Definition inRange (lo hi c : N) : bool := ((lo <=? c) && (c <=? hi))%N.

(** WhiteSpace and LineTerminator code units, as stripped by
    [String.prototype.trim]. *)
Definition isWhiteSpace (c : N) : bool :=
  (inRange 9 13 c || (c =? 32) || (c =? 160) || (c =? 5760)
   || inRange 8192 8202 c || (c =? 8232) || (c =? 8233) || (c =? 8239)
   || (c =? 8287) || (c =? 12288) || (c =? 65279))%N.

Fixpoint trimStart (s : jsstring) : jsstring :=
  match s with
  | [] => []
  | c :: rest => if isWhiteSpace c then trimStart rest else s
  end.

Definition trimEnd (s : jsstring) : jsstring := rev (trimStart (rev s)).

Definition trim (s : jsstring) : jsstring := trimEnd (trimStart s).

(** [Boolean(s)] for a string: the empty string is the only falsy one. *)
Definition truthy (s : jsstring) : bool := negb (length s =? 0).

(** ** Numbers *)

Definition Qltb (a b : Q) : bool := negb (Qle_bool b a).

Definition ofNat (n : nat) : Q := inject_Z (Z.of_nat n).

(** [s.length || 1] *)
Definition lengthOr1 (s : jsstring) : Q :=
  if length s =? 0 then 1%Q else ofNat (length s).

(** ** Exceptions *)

Inductive JsError :=
| Error (message : jsstring)            (* throw new Error(message) *)
| ReferenceError (name : jsstring).     (* use of an undeclared identifier *)

Inductive result (A : Type) :=
| Ok (a : A)
| Throw (e : JsError).
Arguments Ok {A} a.
Arguments Throw {A} e.

Definition bind {A B} (r : result A) (k : A -> result B) : result B :=
  match r with
  | Ok a => k a
  | Throw e => Throw e
  end.

Notation "x <- r ;; k" := (bind r (fun x => k))
  (at level 61, r at next level, right associativity).
Notation "' p <- r ;; k" := (bind r (fun x => let p := x in k))
  (at level 61, p pattern, r at next level, right associativity).

(** A [for ... of] loop whose body may throw. *)
Fixpoint foldM {A S} (body : S -> A -> result S) (l : list A) (st : S)
  : result S :=
  match l with
  | [] => Ok st
  | a :: rest => st' <- body st a ;; foldM body rest st'
  end.

(** ** Regular expressions

    [RegExp.prototype.test] on a pattern anchored with [^] and [$] asks
    whether the whole string belongs to the language of the pattern; it
    is decided here with derivatives. *)

Inductive regex :=
| Void
| Eps
| Class (p : N -> bool)
| Seq (r1 r2 : regex)
| Or (r1 r2 : regex)
| Star (r : regex).

Fixpoint nullable (r : regex) : bool :=
  match r with
  | Void => false
  | Eps => true
  | Class _ => false
  | Seq r1 r2 => nullable r1 && nullable r2
  | Or r1 r2 => nullable r1 || nullable r2
  | Star _ => true
  end.

Fixpoint deriv (c : N) (r : regex) : regex :=
  match r with
  | Void => Void
  | Eps => Void
  | Class p => if p c then Eps else Void
  | Seq r1 r2 =>
      if nullable r1
      then Or (Seq (deriv c r1) r2) (deriv c r2)
      else Seq (deriv c r1) r2
  | Or r1 r2 => Or (deriv c r1) (deriv c r2)
  | Star r1 => Seq (deriv c r1) (Star r1)
  end.

Fixpoint fullMatch (r : regex) (s : jsstring) : bool :=
  match s with
  | [] => nullable r
  | c :: rest => fullMatch (deriv c r) rest
  end.

(** The language of a pattern, against which [fullMatch] is checked. *)
Inductive Matches : regex -> jsstring -> Prop :=
| MatchEps : Matches Eps []
| MatchClass (p : N -> bool) (c : N) :
    p c = true -> Matches (Class p) [c]
| MatchSeq (r1 r2 : regex) (s1 s2 : jsstring) :
    Matches r1 s1 -> Matches r2 s2 -> Matches (Seq r1 r2) (s1 ++ s2)
| MatchOrL (r1 r2 : regex) (s : jsstring) :
    Matches r1 s -> Matches (Or r1 r2) s
| MatchOrR (r1 r2 : regex) (s : jsstring) :
    Matches r2 s -> Matches (Or r1 r2) s
| MatchStarNil (r : regex) : Matches (Star r) []
| MatchStarApp (r : regex) (s1 s2 : jsstring) :
    Matches r s1 -> Matches (Star r) s2 -> Matches (Star r) (s1 ++ s2).

Definition chr (c : N) : regex := Class (N.eqb c).
Definition range (lo hi : N) : regex := Class (inRange lo hi).
Fixpoint word (s : jsstring) : regex :=
  match s with
  | [] => Eps
  | c :: rest => Seq (chr c) (word rest)
  end.
Definition opt (r : regex) : regex := Or r Eps.
Definition plus (r : regex) : regex := Seq r (Star r).
Fixpoint alts (rs : list regex) : regex :=
  match rs with
  | [] => Void
  | r :: rest => Or r (alts rest)
  end.
Fixpoint seqs (rs : list regex) : regex :=
  match rs with
  | [] => Eps
  | r :: rest => Seq r (seqs rest)
  end.

(** ** Global replacement

    [s.replace(/pattern/g, replacement)] for a pattern that never matches
    the empty string: the input is scanned from the left; where the
    pattern matches, the match is replaced and scanning resumes after it;
    elsewhere the code unit is copied. [matchAt] gives the length of the
    match at the head of the remaining input. *)

Section Replace.
Variable matchAt : jsstring -> option nat.
Variable replacement : jsstring.

Fixpoint replaceFrom (skip : nat) (s : jsstring) : jsstring :=
  match s with
  | [] => []
  | c :: rest =>
      match skip with
      | S k => replaceFrom k rest
      | O =>
          match matchAt s with
          | Some (S k) => replacement ++ replaceFrom k rest
          | _ => c :: replaceFrom 0 rest
          end
      end
  end.

Definition replaceAll (s : jsstring) : jsstring := replaceFrom 0 s.
End Replace.

(** ** Text items *)

(** [PdfTextItem]: [transform4] and [transform5] are [transform[4]] and
    [transform[5]], the x and y origin of the item. *)
Record PdfTextItem := {
  str : jsstring;
  width : Q;
  height : Q;
  transform4 : Q;
  transform5 : Q
}.

Inductive LineType := CHORD | LYRIC | UNKNOWN.

Record ClassifiedLine := {
  y : Q;
  items : list PdfTextItem;
  type : LineType
}.

(** ** isChordToken *)

Definition noteRoot : regex := range 65 71.                    (* [A-G] *)
Definition accidental : regex :=                               (* (##|#|b|bb) *)
  alts [word (lit "##"); word (lit "#"); word (lit "b"); word (lit "bb")].
Definition quality : regex :=
  alts [word (lit "maj"); word (lit "M"); word (lit "m"); word (lit "min");
        word (lit "-"); word (lit "aug"); word (lit "+"); word (lit "dim");
        chr 176 (* degree sign *); word (lit "sus"); word (lit "add");
        word (lit "m7b5"); chr 248 (* o with stroke *)].
Definition digit : regex := range 48 57.                       (* [0-9] *)

Definition chordRegex : regex :=
  seqs [ noteRoot;
         opt accidental;
         opt quality;
         Star digit;
         opt (Seq (word (lit "sus")) digit);
         opt (seqs [opt (chr 40); Or (chr 98) (chr 35); plus digit; opt (chr 41)]);
         opt (seqs [chr 47; noteRoot; opt accidental]) ].

Definition isChordToken (text : jsstring) : bool :=
  let trimmed := trim text in
  if negb (truthy trimmed) || (15 <? length trimmed) then false
  else fullMatch chordRegex trimmed.

(** ** classifyLine *)

(** One letter of a pattern under the [i] flag: the pattern letter is
    given in lower case, and only the two ASCII forms match. *)
Definition ciEq (p c : N) : bool := ((c =? p) || (c =? p - 32))%N.

Fixpoint ciPrefix (pat s : jsstring) : bool :=
  match pat, s with
  | [], _ => true
  | p :: pat', c :: s' => ciEq p c && ciPrefix pat' s'
  | _ :: _, [] => false
  end.

Fixpoint firstAlternative (pats : list jsstring) (s : jsstring) : option nat :=
  match pats with
  | [] => None
  | p :: rest => if ciPrefix p s then Some (length p) else firstAlternative rest s
  end.

(** [/min|maj|aug|dim|sus|add|flat/ig] *)
Definition matchQualityWord : jsstring -> option nat :=
  firstAlternative [lit "min"; lit "maj"; lit "aug"; lit "dim"; lit "sus";
                    lit "add"; lit "flat"].

(** [/[h-zH-Z]/.test(token.replace(/min|maj|aug|dim|sus|add|flat/ig, ''))] *)
Definition hasLyricLetter (token : jsstring) : bool :=
  existsb (fun c => inRange 104 122 c || inRange 72 90 c)
          (replaceAll matchQualityWord [] token).

Definition isLineTerminator (c : N) : bool :=
  ((c =? 10) || (c =? 13) || (c =? 8232) || (c =? 8233))%N.

(** [/^\[.*\]$/] *)
Definition sectionRegex : regex :=
  seqs [chr 91; Star (Class (fun c => negb (isLineTerminator c))); chr 93].

Definition lineTokens (lineItems : list PdfTextItem) : list jsstring :=
  filter truthy (map (fun item => trim (str item)) lineItems).

Definition chordRatioOf (tokens : list jsstring) : Q :=
  ofNat (length (filter isChordToken tokens)) / ofNat (length tokens).

Definition classifyLine (lineItems : list PdfTextItem) : LineType :=
  if length lineItems =? 0 then UNKNOWN else
  let tokens := lineTokens lineItems in
  if length tokens =? 0 then UNKNOWN else
  let chordRatio := chordRatioOf tokens in
  if Qltb (7 # 10) chordRatio then CHORD else
  let hasLyrics := existsb hasLyricLetter tokens in
  if hasLyrics then LYRIC else
  if Qltb (2 # 10) chordRatio then CHORD else
  if fullMatch sectionRegex (trim (concat tokens)) then UNKNOWN else
  LYRIC.

(** ** Array.prototype.sort

    The sort is stable; for a comparator that orders the elements
    consistently its result is the stable sorted arrangement, computed
    here by insertion. [precedes a b] is [compare(a, b) < 0]. *)

Section Sort.
Variable A : Type.
Variable precedes : A -> A -> bool.

Fixpoint insertSorted (a : A) (l : list A) : list A :=
  match l with
  | [] => [a]
  | b :: rest => if precedes b a then b :: insertSorted a rest else a :: l
  end.

Fixpoint stableSort (l : list A) : list A :=
  match l with
  | [] => []
  | a :: rest => insertSorted a (stableSort rest)
  end.
End Sort.

(** [(a, b) => a.transform[4] - b.transform[4]] *)
Definition byX (a b : PdfTextItem) : bool := Qltb (transform4 a) (transform4 b).
Definition sortByX : list PdfTextItem -> list PdfTextItem := stableSort byX.

(** ** mergeAdjacentTextItems *)

Definition gapBetween (currentItem nextItem : PdfTextItem) : Q :=
  let currentItemEndX := transform4 currentItem + width currentItem in
  let nextItemStartX := transform4 nextItem in
  nextItemStartX - currentItemEndX.

Definition MERGE_THRESHOLD (currentItem : PdfTextItem) : Q :=
  (width currentItem / lengthOr1 (str currentItem)) * (1 # 2).

(** The assignments of the merging branch. *)
Definition mergeInto (currentItem nextItem : PdfTextItem) : PdfTextItem :=
  {| str := str currentItem ++ str nextItem;
     width := (transform4 nextItem + width nextItem) - transform4 currentItem;
     height := height currentItem;
     transform4 := transform4 currentItem;
     transform5 := transform5 currentItem |}.

(** One iteration of the loop, on the state [(merged, currentItem)]. *)
Definition mergeStep (st : list PdfTextItem * PdfTextItem) (nextItem : PdfTextItem)
  : list PdfTextItem * PdfTextItem :=
  let (merged, currentItem) := st in
  let gap := gapBetween currentItem nextItem in
  if Qle_bool (-2) gap && Qltb gap (MERGE_THRESHOLD currentItem)
  then (merged, mergeInto currentItem nextItem)
  else (merged ++ [currentItem], nextItem).

Definition mergeAdjacentTextItems (items : list PdfTextItem) : list PdfTextItem :=
  if length items <? 2 then items else
  match sortByX items with
  | [] => []
  | first :: rest =>
      let (merged, currentItem) := fold_left mergeStep rest ([], first) in
      merged ++ [currentItem]
  end.

(** ** Grouping into lines *)

Definition Y_TOLERANCE : Q := 5.

(** [rawLines] is a [Map] iterated in insertion order: the first key
    within the tolerance receives the item, otherwise a new key is
    appended. *)
Fixpoint addToLines (rawLines : list (Q * list PdfTextItem)) (item : PdfTextItem)
  : list (Q * list PdfTextItem) :=
  match rawLines with
  | [] => [(transform5 item, [item])]
  | (yKey, lineItems) :: rest =>
      if Qltb (Qabs (yKey - transform5 item)) Y_TOLERANCE
      then (yKey, lineItems ++ [item]) :: rest
      else (yKey, lineItems) :: addToLines rest item
  end.

Definition groupLines (allItems : list PdfTextItem) : list (Q * list PdfTextItem) :=
  fold_left addToLines allItems [].

(** [(a, b) => b[0] - a[0]] *)
Definition byYDescending (a b : Q * list PdfTextItem) : bool := Qltb (fst b) (fst a).

Definition classifyLines (allItems : list PdfTextItem) : list ClassifiedLine :=
  map (fun entry =>
         let sorted := sortByX (snd entry) in
         {| y := fst entry; items := sorted; type := classifyLine sorted |})
      (stableSort byYDescending (groupLines allItems)).

(** ** Pairing test of the page loop

    [currentLine.type === 'CHORD' && nextLine?.type === 'LYRIC' &&
     Math.abs(currentLine.y - nextLine.y) < 30], for a [nextLine] that
    exists. *)
Definition isPair (currentLine nextLine : ClassifiedLine) : bool :=
  match type currentLine, type nextLine with
  | CHORD, LYRIC => Qltb (Qabs (y currentLine - y nextLine)) 30
  | _, _ => false
  end.

(** ** Reconstruction of a chord line over a lyric line *)

Record ChordAt := { text : jsstring; x : Q }.

(** PASS 1 *)
Definition pass1_chords (chordItems : list PdfTextItem) : list ChordAt :=
  map (fun item => {| text := str item; x := transform4 item |}) chordItems.

(** PASS 2, the lyric line. [lastItemEndX] starts as [-Infinity] ([None]). *)
Record LyricState := {
  lyricString : jsstring;
  indexToXMap : list Q;
  lastItemEndX : option Q
}.

Definition lyricStart : LyricState :=
  {| lyricString := []; indexToXMap := []; lastItemEndX := None |}.

Definition lyricStep (st : LyricState) (item : PdfTextItem) : LyricState :=
  let itemStartX := transform4 item in
  let avgCharWidthInItem := width item / lengthOr1 (str item) in
  let spaced :=
    match lastItemEndX st with
    | Some lastEnd =>
        if Qltb (avgCharWidthInItem * (4 # 10)) (itemStartX - lastEnd)
        then (lyricString st ++ [32%N],
              indexToXMap st ++ [lastEnd + (itemStartX - lastEnd) / 2])
        else (lyricString st, indexToXMap st)
    | None => (lyricString st, indexToXMap st)
    end in
  {| lyricString := fst spaced ++ str item;
     indexToXMap := snd spaced
       ++ map (fun c => itemStartX + ofNat c * avgCharWidthInItem)
              (seq 0 (length (str item)));
     lastItemEndX := Some (itemStartX + width item) |}.

Definition buildLyric (lyricItems : list PdfTextItem) : LyricState :=
  fold_left lyricStep lyricItems lyricStart.

(** [`Couldn't find placement for "${chord.text}"`] *)
Definition placementMessage (chordText : jsstring) : jsstring :=
  lit "Couldn't find placement for " ++ [34%N] ++ chordText ++ [34%N].

Definition inspect {A} (a : A) : {b : A | a = b} := exist _ a eq_refl.

(** The [while] loop that advances [lyricStringCursor]. Reading the map
    past its end gives [undefined], and [undefined < chord.x] is false. *)
Equations? advanceCursor (indexToXMap : list Q) (chord : ChordAt)
  (lyricStringCursor : nat) : result nat
  by wf (length indexToXMap - lyricStringCursor)%nat lt :=
  advanceCursor m chord cursor with inspect (nth_error m cursor) := {
    | exist _ None _ => Ok cursor
    | exist _ (Some v) Hv with Qltb v (x chord) := {
        | false => Ok cursor
        | true with (S cursor =? length m) := {
            | true => Throw (Error (placementMessage (text chord)))
            | false => advanceCursor m chord (S cursor) } } }.
Proof.
  assert (cursor < length m)%nat by (apply nth_error_Some; congruence). lia.
Qed.

(** The [for] loop that writes the chord. Its body reads
    [closestCharIndex], an identifier declared nowhere, which throws on
    the first iteration. *)
Definition writeChord (chordLineChars : jsstring) (chord : ChordAt)
  : result jsstring :=
  foldM (fun (chars : jsstring) (j : nat) =>
           Throw (ReferenceError (lit "closestCharIndex")))
        (seq 0 (length (text chord))) chordLineChars.

Definition placeChord (indexToXMap : list Q) (st : nat * jsstring)
  (chord : ChordAt) : result (nat * jsstring) :=
  let (lyricStringCursor, chordLineChars) := st in
  cursor <- advanceCursor indexToXMap chord lyricStringCursor ;;
  chars <- writeChord chordLineChars chord ;;
  Ok (cursor, chars).

(** The state after the loop over [pass1_chords], from cursor 0 and a
    buffer of spaces as long as the lyric string. *)
Definition placeChords (chordItems lyricItems : list PdfTextItem)
  : result (nat * jsstring) :=
  let lyric := buildLyric lyricItems in
  foldM (placeChord (indexToXMap lyric)) (pass1_chords chordItems)
        (0%nat, repeat 32%N (length (lyricString lyric))).

(** The two lines appended to [pageText] for a pair. *)
Definition reconstructCouplet (chordItems lyricItems : list PdfTextItem)
  : result (jsstring * jsstring) :=
  st <- placeChords chordItems lyricItems ;;
  let chordLineString := trimEnd (snd st) in
  Ok (chordLineString, lyricString (buildLyric lyricItems)).

(** ** Non-paired lines. [lastX] starts as [-Infinity] ([None]). *)

Definition singleStep (st : jsstring * option Q) (item : PdfTextItem)
  : jsstring * option Q :=
  let (lineText, lastX) := st in
  let spaced :=
    match lastX with
    | Some lx =>
        if Qltb (width item / lengthOr1 (str item)) (transform4 item - lx)
        then lineText ++ [32%N]
        else lineText
    | None => lineText
    end in
  (spaced ++ str item, Some (transform4 item + width item)).

Definition renderSingleLine (lineItems : list PdfTextItem) : jsstring :=
  fst (fold_left singleStep lineItems ([], None)).

(** ** The loop over the classified lines of a page

    The loop is written once, over the output it accumulates: [lineStep]
    is its body, with [processedIndices] a list used as a set. *)

Section PageLoop.
Variable Out : Type.
Variable onPair : nat -> ClassifiedLine -> ClassifiedLine -> Out -> result Out.
Variable onSingle : nat -> ClassifiedLine -> Out -> Out.
Variable classifiedLines : list ClassifiedLine.

Definition lineStep (st : list nat * Out) (i : nat) : result (list nat * Out) :=
  let (processedIndices, out) := st in
  if existsb (Nat.eqb i) processedIndices then Ok st else
  match nth_error classifiedLines i with
  | None => Ok st
  | Some currentLine =>
      let single := Ok (i :: processedIndices, onSingle i currentLine out) in
      match nth_error classifiedLines (i + 1)%nat with
      | Some nextLine =>
          if isPair currentLine nextLine then
            out' <- onPair i currentLine nextLine out ;;
            Ok ((i + 1)%nat :: i :: processedIndices, out')
          else single
      | None => single
      end
  end.

Definition pageLoop (init : Out) : result (list nat * Out) :=
  foldM lineStep (seq 0 (length classifiedLines)) ([], init).
End PageLoop.

(** The loop as it builds [pageText]. *)
Definition appendPair (i : nat) (currentLine nextLine : ClassifiedLine)
  (pageText : jsstring) : result jsstring :=
  lines <- reconstructCouplet (items currentLine) (items nextLine) ;;
  Ok (pageText ++ fst lines ++ [10%N] ++ snd lines ++ [10%N]).

Definition appendSingle (i : nat) (currentLine : ClassifiedLine)
  (pageText : jsstring) : jsstring :=
  pageText ++ renderSingleLine (items currentLine) ++ [10%N].

Definition pageTextOf (classifiedLines : list ClassifiedLine) : result jsstring :=
  st <- pageLoop appendPair appendSingle classifiedLines [] ;;
  Ok (snd st).




(** ** Final normalization *)

(** [/ \n/g] *)
Definition matchSpaceNewline (s : jsstring) : option nat :=
  match s with
  | a :: b :: _ => if ((a =? 32) && (b =? 10))%N then Some 2%nat else None
  | _ => None
  end.

Fixpoint leadingNewlines (s : jsstring) : nat :=
  match s with
  | c :: rest => if (c =? 10)%N then S (leadingNewlines rest) else 0
  | [] => 0
  end.

(** [/\n{3,}/g]: greedy, the whole run of newlines is the match. *)
Definition matchNewlines3 (s : jsstring) : option nat :=
  let n := leadingNewlines s in
  if 3 <=? n then Some n else None.

(** [s.replace(/ \n/g, '\n')] *)
Definition stripSpaceNewline (s : jsstring) : jsstring :=
  replaceAll matchSpaceNewline [10%N] s.

(** [s.replace(/\n{3,}/g, '\n\n')] *)
Definition collapseNewlines (s : jsstring) : jsstring :=
  replaceAll matchNewlines3 [10%N; 10%N] s.

(** [fullText.replace(/ \n/g, '\n').replace(/\n{3,}/g, '\n\n').trim()] *)
Definition normalize (fullText : jsstring) : jsstring :=
  trim (collapseNewlines (stripSpaceNewline fullText)).

(** ** extractTextFromPdf

    The document is given as the [textContent.items] of its pages, in
    page order. *)

Definition pageStep (fullText : jsstring) (rawItems : list PdfTextItem)
  : result jsstring :=
  if length rawItems =? 0 then Ok fullText else
  let allItems := mergeAdjacentTextItems rawItems in
  if length allItems =? 0 then Ok fullText else
  pageText <- pageTextOf (classifyLines allItems) ;;
  Ok (fullText ++ pageText ++ [10%N]).

Definition extractTextFromPdf (pages : list (list PdfTextItem)) : result jsstring :=
  fullText <- foldM pageStep pages [] ;;
  Ok (normalize fullText).

(** ** Notions used in the statements *)

(** Lines [i] and [i + 1] exist and pass the pairing test. *)
Definition pairAt (classifiedLines : list ClassifiedLine) (i : nat) : bool :=
  match nth_error classifiedLines i, nth_error classifiedLines (i + 1)%nat with
  | Some currentLine, Some nextLine => isPair currentLine nextLine
  | _, _ => false
  end.

(** Line [i] is the second line of a pair that starts at [i - 1]. *)
Definition secondOfPair (classifiedLines : list ClassifiedLine) (i : nat) : bool :=
  match i with
  | O => false
  | S i' => pairAt classifiedLines i'
  end.

(** [processedIndices] as it stands when the loop arrives at index [k]. *)
Definition processedBefore (classifiedLines : list ClassifiedLine) (k : nat)
  (processedIndices : list nat) : Prop :=
  forall j : nat,
    In j processedIndices
    <-> (j < k)%nat \/ (j = k /\ secondOfPair classifiedLines k = true).

(** [s.startsWith(pat)] and [s.includes(pat)]. *)
Fixpoint startsWith (pat s : jsstring) : bool :=
  match pat, s with
  | [], _ => true
  | p :: pat', c :: s' => (c =? p)%N && startsWith pat' s'
  | _ :: _, [] => false
  end.

Fixpoint occurs (pat s : jsstring) : bool :=
  startsWith pat s
  || match s with
     | [] => false
     | _ :: rest => occurs pat rest
     end.

(** The collapse of newline runs, told by the number [run] of newlines
    that immediately precede: a newline is kept while fewer than two
    precede it. It is shown equal to [collapseNewlines] below. *)
Fixpoint collapseRun (run : nat) (s : jsstring) : jsstring :=
  match s with
  | [] => []
  | c :: rest =>
      if (c =? 10)%N
      then if 2 <=? run
           then collapseRun (S run) rest
           else 10%N :: collapseRun (S run) rest
      else c :: collapseRun 0 rest
  end.

Definition textItem (s : string) (x0 y0 w : Q) : PdfTextItem :=
  {| str := lit s; width := w; height := 10; transform4 := x0; transform5 := y0 |}.

Definition leX (a b : PdfTextItem) : Prop := transform4 a <= transform4 b.


(** A bucket of the line grouper in good order: not empty, keyed by the
    y of its first item, every item within the tolerance of the key. *)
Definition wellFormedBucket (yKey : Q) (lineItems : list PdfTextItem) : Prop :=
  exists first others,
    lineItems = first :: others
    /\ yKey = transform5 first
    /\ Forall (fun item => Qabs (yKey - transform5 item) < Y_TOLERANCE) lineItems.

Definition separatedKeys (yKey yKey' : Q) : Prop :=
  Y_TOLERANCE <= Qabs (yKey - yKey').

(** The items of a line laid out from left to right: each starts at or
    after the end of the one before. *)
Fixpoint leftToRight (lineItems : list PdfTextItem) : Prop :=
  match lineItems with
  | a :: rest =>
      match rest with
      | b :: _ => transform4 a + width a <= transform4 b
      | [] => True
      end /\ leftToRight rest
  | [] => True
  end.

(** The text of lines that are all rendered on their own, and of a page
    of such lines (a page without items adds nothing). *)
Definition singleLinesText (classifiedLines : list ClassifiedLine) : jsstring :=
  concat (map (fun line => renderSingleLine (items line) ++ [10%N])
              classifiedLines).

Definition pageTextSingles (rawItems : list PdfTextItem) : jsstring :=
  if length rawItems =? 0 then []
  else singleLinesText (classifyLines (mergeAdjacentTextItems rawItems))
       ++ [10%N].

(** No page of the document has a pair. *)
Definition noPair (pages : list (list PdfTextItem)) : Prop :=
  forall rawItems, In rawItems pages ->
    forall i, pairAt (classifyLines (mergeAdjacentTextItems rawItems)) i = false.

(** ** parseSongFromFile

    A [File] is given by its name, its type, what [FileReader.readAsDataURL] yields
    for it, the items pdf.js yields for its pages and what [file.text()]
    yields. The generative service and [JSON.parse] are outside the
    code: they are parameters, as is the message an engine gives to the
    ReferenceError of an undeclared identifier. *)

Fixpoint jsEqb (a b : jsstring) : bool :=
  match a, b with
  | [], [] => true
  | c :: a', d :: b' => (c =? d)%N && jsEqb a' b'
  | _, _ => false
  end.

(** [s.split(sep)] for a separator of one code unit. *)
Fixpoint splitOn (sep : N) (s : jsstring) : list jsstring :=
  match s with
  | [] => [[]]
  | c :: rest =>
      if (c =? sep)%N then [] :: splitOn sep rest
      else match splitOn sep rest with
           | piece :: pieces => (c :: piece) :: pieces
           | [] => [[c]]
           end
  end.

Record File := {
  fileName : jsstring;
  fileType : jsstring;
  dataUrl : jsstring;
  pdfPages : list (list PdfTextItem);
  fileText : jsstring
}.

Inductive Part :=
| InlineData (data : option jsstring) (mimeType : jsstring)
| TextPart (partText : jsstring).

(** [(reader.result as string).split(',')[1]] *)
Definition fileToGenerativePart (file : File) : Part :=
  InlineData (nth_error (splitOn 44 (dataUrl file)) 1) (fileType file).

Definition imagePrompt : jsstring :=
  lit "Extract the song title, lyrics, and chords from this image.".
Definition pdfPrompt : jsstring :=
  lit "Here is song content extracted from a PDF. Extract the song title and the chord sheet (lyrics and chords). Preserve the exact formatting and spacing of the chord sheet."
  ++ [10%N; 10%N].
Definition textPrompt : jsstring :=
  lit "Here is song content. Extract the song title and the chord sheet (lyrics and chords)."
  ++ [10%N; 10%N].
Definition noTextMessage : jsstring :=
  lit "Could not extract any text from the PDF. It might be an image-only PDF.".
Definition unsupportedMessage : jsstring := lit "Unsupported file type.".
Definition readFailurePrefix : jsstring := lit "Could not read the file. Reason: ".
Definition aiFailureMessage : jsstring :=
  lit "AI could not process the song content. Please check the file format.".

Section ParseSongFromFile.
Variable referenceErrorMessage : jsstring -> jsstring.
Variable Json : Type.
Variable generateContent : list Part -> result jsstring.
Variable jsonParse : jsstring -> result Json.

(** [e.message] *)
Definition messageOf (e : JsError) : jsstring :=
  match e with
  | Error message => message
  | ReferenceError name => referenceErrorMessage name
  end.

(** The body of the first [try]. *)
Definition readParts (file : File) : result (list Part) :=
  if startsWith (lit "image/") (fileType file) then
    Ok [fileToGenerativePart file; TextPart imagePrompt]
  else if jsEqb (fileType file) (lit "application/pdf") then
    text <- extractTextFromPdf (pdfPages file) ;;
    if negb (truthy (trim text)) then Throw (Error noTextMessage)
    else Ok [TextPart (pdfPrompt ++ text)]
  else if startsWith (lit "text/") (fileType file) then
    Ok [TextPart (textPrompt ++ fileText file)]
  else Throw (Error unsupportedMessage).

(** The first [try] with its [catch]: every exception of the model is an
    instance of [Error]. *)
Definition prepareParts (file : File) : result (list Part) :=
  match readParts file with
  | Ok parts => Ok parts
  | Throw e => Throw (Error (readFailurePrefix ++ messageOf e))
  end.

Definition parseSongFromFile (file : File) : result Json :=
  parts <- prepareParts file ;;
  match (responseText <- generateContent parts ;; jsonParse (trim responseText)) with
  | Ok song => Ok song
  | Throw _ => Throw (Error aiFailureMessage)
  end.
End ParseSongFromFile.


(** The first pair of a list of lines, of a document. *)
Fixpoint firstPairFrom (classifiedLines : list ClassifiedLine) (i n : nat)
  : option nat :=
  match n with
  | O => None
  | S n' => if pairAt classifiedLines i then Some i
            else firstPairFrom classifiedLines (S i) n'
  end.

Fixpoint hasPair (pages : list (list PdfTextItem))
  : option (list PdfTextItem * nat) :=
  match pages with
  | [] => None
  | rawItems :: rest =>
      let classifiedLines := classifyLines (mergeAdjacentTextItems rawItems) in
      match firstPairFrom classifiedLines 0 (length classifiedLines) with
      | Some i => Some (rawItems, i)
      | None => hasPair rest
      end
  end.

(** The two exceptions the code can throw: the placement error for some
    chord text, and the ReferenceError of [closestCharIndex]. *)
Definition extractionError (e : JsError) : Prop :=
  e = ReferenceError (lit "closestCharIndex")
  \/ exists chordText, e = Error (placementMessage chordText).

(** The messages of the exceptions thrown while the file is read. *)
Definition readFailureReason (referenceErrorMessage : jsstring -> jsstring)
  (m : jsstring) : Prop :=
  m = unsupportedMessage
  \/ m = noTextMessage
  \/ m = referenceErrorMessage (lit "closestCharIndex")
  \/ exists chordText, m = placementMessage chordText.


(** ** utils/chords: getRootNote *)

Definition NOTE_NAMES : list jsstring :=
  [lit "C"; lit "C#"; lit "D"; lit "D#"; lit "E"; lit "F"; lit "F#"; lit "G";
   lit "G#"; lit "A"; lit "A#"; lit "B"].

(** [list.includes(s)] for strings *)
Definition includes (l : list jsstring) (s : jsstring) : bool :=
  existsb (jsEqb s) l.

Section GetRootNote.
(** [toUpperCase] of a one-unit string whose code unit is not ASCII: given
    by the Unicode tables. *)
Variable upperCaseOther : N -> jsstring.

(** [chord.charAt(0).toUpperCase()] *)
Definition toUpperCaseUnit (c : N) : jsstring :=
  if inRange 97 122 c then [(c - 32)%N]
  else if (c <? 128)%N then [c]
  else upperCaseOther c.

Definition getRootNote (chord : jsstring) : option jsstring :=
  match chord with
  | [] => None
  | c0 :: rest =>
      let root := toUpperCaseUnit c0 in
      let root :=
        match rest with
        | c1 :: _ => if (c1 =? 35)%N || (c1 =? 98)%N then root ++ [c1] else root
        | [] => root
        end in
      Some (if jsEqb root (lit "Db") then lit "C#"
            else if jsEqb root (lit "Eb") then lit "D#"
            else if jsEqb root (lit "Gb") then lit "F#"
            else if jsEqb root (lit "Ab") then lit "G#"
            else if jsEqb root (lit "Bb") then lit "A#"
            else root)
  end.
End GetRootNote.

(** ** hooks/useChordBook: addChord *)

(** [a < b] on strings: by code units. *)
Fixpoint jsLtb (a b : jsstring) : bool :=
  match a, b with
  | _, [] => false
  | [], _ :: _ => true
  | c :: a', d :: b' =>
      if (c <? d)%N then true
      else if (d <? c)%N then false
      else jsLtb a' b'
  end.

(** [list.sort()] on strings *)
Definition sortStrings : list jsstring -> list jsstring := stableSort jsLtb.

(** The updater [addChord] passes to [setChordBook]. *)
Definition addChord (prev : list jsstring) (chordName : jsstring) : list jsstring :=
  if includes prev chordName then
    filter (fun c => negb (jsEqb c chordName)) prev
  else sortStrings (prev ++ [chordName]).

Definition jsLt (a b : jsstring) : Prop := jsLtb a b = true.

Definition jsLe (a b : jsstring) : Prop := jsLtb b a = false.

(** ** searchSongOnPreferredSites *)

(** [s.substring(indexStart, indexEnd)] *)
Definition substring (s : jsstring) (indexStart indexEnd : Z) : jsstring :=
  let len := Z.of_nat (length s) in
  let finalStart := Z.min (Z.max indexStart 0) len in
  let finalEnd := Z.min (Z.max indexEnd 0) len in
  let from := Z.min finalStart finalEnd in
  let to := Z.max finalStart finalEnd in
  firstn (Z.to_nat (to - from)) (skipn (Z.to_nat from) s).

Definition searchPrompt (query selectedSite : jsstring) : jsstring :=
  lit "
You are an expert musical assistant scraping a specific guitar chord website. Your task is to act like a machine, not a helpful assistant.

- The user wants the chords for the song: "
  ++ [34%N]
  ++ query
  ++ [34%N]
  ++ lit ".
- You ABSOLUTELY MUST search for the song ONLY on this website: "
  ++ [34%N]
  ++ selectedSite
  ++ [34%N]
  ++ lit ". Do not search any other websites.
- If you find a suitable chords/tabs page for the song on "
  ++ [34%N]
  ++ selectedSite
  ++ [34%N]
  ++ lit ":
    1. Analyze its HTML. Locate the main song content, which is usually in a <pre> tag.
    2. Build a minimal HTML code by copying the <pre> section into its <body> element, and writing the computed CSS definitions referred to in the <pre> element and its children into the <head> element.
    3. Return a JSON object with the following structure:
       {
         "
  ++ [34%N]
  ++ lit "status"
  ++ [34%N]
  ++ lit ": "
  ++ [34%N]
  ++ lit "SUCCESS"
  ++ [34%N]
  ++ lit ",
         "
  ++ [34%N]
  ++ lit "pageTitle"
  ++ [34%N]
  ++ lit ": "
  ++ [34%N]
  ++ lit "The title of the HTML page"
  ++ [34%N]
  ++ lit ",
         "
  ++ [34%N]
  ++ lit "htmlContent"
  ++ [34%N]
  ++ lit ": "
  ++ [34%N]
  ++ lit "The self-contained HTML you built"
  ++ [34%N]
  ++ lit ",
         "
  ++ [34%N]
  ++ lit "sourceUrl"
  ++ [34%N]
  ++ lit ": "
  ++ [34%N]
  ++ lit "The exact URL of the page you used"
  ++ [34%N]
  ++ lit "
       }
- If you CANNOT find the song on "
  ++ [34%N]
  ++ selectedSite
  ++ [34%N]
  ++ lit ", or if the page doesn't contain a usable <pre> tag with chords:
    1. Return a JSON object with the following structure:
       {
         "
  ++ [34%N]
  ++ lit "status"
  ++ [34%N]
  ++ lit ": "
  ++ [34%N]
  ++ lit "NOT_FOUND"
  ++ [34%N]
  ++ lit "
       }

Your output MUST BE ONLY the JSON object.
    ".

(** What becomes of [jsonText] between [response.text.trim()] and
    [JSON.parse]. *)
Definition unfence (jsonText : jsstring) : jsstring :=
  if startsWith (lit "```json") jsonText then
    trim (substring jsonText 7 (Z.of_nat (length jsonText) - 3))
  else if startsWith (lit "```") jsonText then
    trim (substring jsonText 3 (Z.of_nat (length jsonText) - 3))
  else jsonText.

Section SearchSongOnPreferredSites.
Variable Json : Type.
(** The text of the service's response to a prompt, or the exception of
    the call or of reading the text. *)
Variable generateContent : jsstring -> result jsstring.
Variable jsonParse : jsstring -> result Json.

Definition searchSongOnPreferredSites (query selectedSite : jsstring)
  : result Json :=
  responseText <- generateContent (searchPrompt query selectedSite) ;;
  jsonParse (unfence (trim responseText)).
End SearchSongOnPreferredSites.

(** ** Backtracking patterns

    [String.prototype.match] with a global pattern returns the matched
    pieces, which depend on the order in which the alternatives are tried
    and on the context of the match ([\b]). The matcher below follows the
    semantics of the language definition: a pattern is run against a
    continuation; a disjunction tries its left side with the continuation
    first; a greedy quantifier tries one more repetition first. The state
    is the code unit before the position, the number of code units
    consumed since the start of the match, and the rest of the input. *)

Inductive pattern :=
| PEmpty
| PUnit (accept : N -> bool)
| PSeq (p1 p2 : pattern)
| PAlt (p1 p2 : pattern)
| PStarUnit (accept : N -> bool)
| PBoundary.

(** [\w] *)
Definition isWordChar (c : N) : bool :=
  inRange 97 122 c || inRange 65 90 c || inRange 48 57 c || (c =? 95)%N.

Definition isWordAt (c : option N) : bool :=
  match c with
  | Some c => isWordChar c
  | None => false
  end.

Section Matcher.
Variable X : Type.

Definition continuation := option N -> nat -> jsstring -> option X.

Fixpoint starUnit (accept : N -> bool) (k : continuation)
  (prev : option N) (n : nat) (s : jsstring) : option X :=
  match s with
  | c :: rest =>
      if accept c then
        match starUnit accept k (Some c) (S n) rest with
        | Some x => Some x
        | None => k prev n s
        end
      else k prev n s
  | [] => k prev n s
  end.

Fixpoint run (p : pattern) (k : continuation)
  (prev : option N) (n : nat) (s : jsstring) : option X :=
  match p with
  | PEmpty => k prev n s
  | PUnit accept =>
      match s with
      | c :: rest => if accept c then k (Some c) (S n) rest else None
      | [] => None
      end
  | PSeq p1 p2 => run p1 (run p2 k) prev n s
  | PAlt p1 p2 =>
      match run p1 k prev n s with
      | Some x => Some x
      | None => run p2 k prev n s
      end
  | PStarUnit accept => starUnit accept k prev n s
  | PBoundary =>
      if xorb (isWordAt prev) (isWordAt (hd_error s)) then k prev n s else None
  end.
End Matcher.

(** The length of the match of [p] that starts here, if there is one. *)
Definition matchHere (p : pattern) (prev : option N) (s : jsstring) : option nat :=
  run p (fun _ n _ => Some n) prev 0%nat s.

(** [s.match(p)] for a global [p], the result [null] being the empty
    list: the matches from left to right, each search starting where the
    last match ended (one further after an empty match). [skip] counts the
    code units of the last match that are still to be passed. *)
Fixpoint matchesFrom (p : pattern) (prev : option N) (skip : nat) (s : jsstring)
  : list jsstring :=
  match skip with
  | S k =>
      match s with
      | [] => []
      | c :: rest => matchesFrom p (Some c) k rest
      end
  | O =>
      match matchHere p prev s with
      | Some n =>
          firstn n s
          :: match s with
             | [] => []
             | c :: rest => matchesFrom p (Some c) (n - 1) rest
             end
      | None =>
          match s with
          | [] => []
          | c :: rest => matchesFrom p (Some c) 0 rest
          end
      end
  end.

Definition pUnit (c : N) : pattern := PUnit (N.eqb c).
Definition pRange (lo hi : N) : pattern := PUnit (inRange lo hi).
Definition pOpt (p : pattern) : pattern := PAlt p PEmpty.
Definition pWord (w : jsstring) : pattern :=
  fold_right (fun c p => PSeq (pUnit c) p) PEmpty w.
Definition pAlts (ps : list pattern) : pattern :=
  match ps with
  | [] => PEmpty
  | p :: rest => fold_left PAlt rest p
  end.
Definition pSeqs (ps : list pattern) : pattern :=
  fold_right PSeq PEmpty ps.

(** ** utils/chords: parseChordsInLine, getAllChordsInSong *)

(** [(##|#|b|bb)] *)
Definition pAccidental : pattern :=
  pAlts [pWord (lit "##"); pWord (lit "#"); pWord (lit "b"); pWord (lit "bb")].

(** [CHORD_REGEX]; the last alternative of the third group is the two
    code units U+00C3 U+00B8 of the source text. *)
Definition CHORD_REGEX : pattern :=
  pSeqs [ PBoundary;
          pRange 65 71;
          pOpt pAccidental;
          pOpt (pAlts [pWord (lit "maj"); pWord (lit "m"); pWord (lit "min");
                       pWord (lit "aug"); pWord (lit "dim"); pWord (lit "sus");
                       pWord (lit "add"); pWord (lit "m7b5");
                       pWord [195%N; 184%N]]);
          PStarUnit (inRange 48 57);
          pOpt (PSeq (pWord (lit "sus")) (pRange 48 57));
          pOpt (pSeqs [pOpt (pUnit 40);
                       PAlt (pUnit 98) (pUnit 35);
                       pRange 48 57; PStarUnit (inRange 48 57);
                       pOpt (pUnit 41)]);
          pOpt (pSeqs [pUnit 47; pRange 65 71; pOpt pAccidental]);
          PBoundary ].

(** [set.add(v)] on a [Set] of strings, kept in insertion order. *)
Definition setAdd (set : list jsstring) (v : jsstring) : list jsstring :=
  if includes set v then set else set ++ [v].

(** [[...new Set(values)]] *)
Definition newSet (values : list jsstring) : list jsstring :=
  fold_left setAdd values [].

Definition parseChordsInLine (line : jsstring) : list jsstring :=
  if negb (truthy line) then []
  else if hasLyricLetter line then []
  else match matchesFrom CHORD_REGEX None 0 line with
       | [] => []
       | matches => newSet matches
       end.

Definition getAllChordsInSong (content : jsstring) : list jsstring :=
  fold_left (fun allChords line => fold_left setAdd (parseChordsInLine line) allChords)
            (splitOn 10 content) [].

(** components/ChordCheatsheet: [relevantChords] *)
Definition relevantChords (songContent : jsstring) (chordBook : list jsstring)
  : list jsstring :=
  filter (fun chord => includes chordBook chord) (getAllChordsInSong songContent).

(** components/PerformanceView: [nextSectionRoots], the roots of the chords
    of the first line of a section. [upperCaseOther] is the parameter of
    [getRootNote]. *)
Definition nextSectionRoots (upperCaseOther : N -> jsstring) (nextSection : jsstring)
  : list jsstring :=
  let nextSectionChords :=
    parseChordsInLine (nth 0 (splitOn 10 nextSection) []) in
  concat (map (fun chord =>
                 match getRootNote upperCaseOther chord with
                 | Some root => if truthy root then [root] else []
                 | None => []
                 end) nextSectionChords).

(** Notions used in the statements *)

(** The code unit before the position that follows [w], when [prev] is
    the one before [w]. *)
Definition lastOr (prev : option N) (w : jsstring) : option N :=
  match rev w with
  | c :: _ => Some c
  | [] => prev
  end.

(** [w] is a match of [p] when [prev] precedes it and [after] follows. *)
Fixpoint matches (p : pattern) (prev : option N) (w after : jsstring) : Prop :=
  match p with
  | PEmpty => w = []
  | PUnit accept => exists c, w = [c] /\ accept c = true
  | PSeq p1 p2 =>
      exists w1 w2, w = w1 ++ w2
                    /\ matches p1 prev w1 (w2 ++ after)
                    /\ matches p2 (lastOr prev w1) w2 after
  | PAlt p1 p2 => matches p1 prev w after \/ matches p2 prev w after
  | PStarUnit accept => forallb accept w = true
  | PBoundary =>
      w = [] /\ xorb (isWordAt prev) (isWordAt (hd_error after)) = true
  end.

Definition isLyricLetter (c : N) : bool :=
  inRange 104 122 c || inRange 72 90 c.

Definition qualityWords : list jsstring :=
  [lit "min"; lit "maj"; lit "aug"; lit "dim"; lit "sus"; lit "add"; lit "flat"].

(** A pattern whose last term is [\b]. *)
Fixpoint endsWithBoundary (p : pattern) : bool :=
  match p with
  | PBoundary => true
  | PSeq p1 p2 =>
      match p2 with
      | PEmpty => endsWithBoundary p1
      | _ => endsWithBoundary p2
      end
  | _ => false
  end.

(** No occurrence of a quality word in [pre ++ c :: post] covers the
    position of [c]. *)
Definition uncovered (pre : jsstring) (c : N) (post : jsstring) : Prop :=
  forall word pre0 seg,
    In word qualityWords ->
    pre = pre0 ++ seg ->
    (length seg < length word)%nat ->
    ciPrefix word (seg ++ c :: post) = false.

(** ** App: handleImportFromFile

    The handler as a function on the state it writes. [parseSongFromFile]
    is taken at its declared result type, an object with a [title] and a
    [content]; the two readings of [Date.now()] and the conversion of a
    number to a string are parameters. *)

Record SongData := { title : jsstring; content : jsstring }.

Record Song := {
  id : jsstring;
  songTitle : jsstring;
  songContent : jsstring;
  createdAt : N
}.

Record AppState := {
  songs : list Song;
  activeSongId : option jsstring;
  activeSetId : option jsstring;
  isLoading : bool;
  loadingMessage : jsstring;
  pendingSongTitle : option jsstring;
  error : option jsstring
}.

Definition importFailureMessage : jsstring :=
  lit "Failed to import from file. The file format may not be supported.".

Section HandleImportFromFile.
Variable referenceErrorMessage : jsstring -> jsstring.
Variable generateContent : list Part -> result jsstring.
Variable jsonParse : jsstring -> result SongData.
Variable numberToString : N -> jsstring.
Variable idTime createdTime : N.

Definition handleImportFromFile (file : File) (st : AppState) : AppState :=
  (* setIsLoading(true); setPendingSongTitle(file.name);
     setLoadingMessage(...); setError(null) *)
  let started :=
    {| songs := songs st; activeSongId := activeSongId st;
       activeSetId := activeSetId st;
       isLoading := true;
       loadingMessage := lit "Importing from " ++ fileName file ++ lit "...";
       pendingSongTitle := Some (fileName file);
       error := None |} in
  let tried :=
    match parseSongFromFile referenceErrorMessage generateContent jsonParse file with
    | Ok data =>
        let newSong :=
          {| id := lit "song-" ++ numberToString idTime;
             songTitle := if truthy (title data) then title data
                          else lit "Imported Song";
             songContent := content data;
             createdAt := createdTime |} in
        {| songs := newSong :: songs started;
           activeSongId := Some (id newSong);
           activeSetId := None;
           isLoading := isLoading started;
           loadingMessage := loadingMessage started;
           pendingSongTitle := pendingSongTitle started;
           error := error started |}
    | Throw _ =>
        {| songs := songs started; activeSongId := activeSongId started;
           activeSetId := activeSetId started;
           isLoading := isLoading started;
           loadingMessage := loadingMessage started;
           pendingSongTitle := pendingSongTitle started;
           error := Some importFailureMessage |}
    end in
  (* finally *)
  {| songs := songs tried; activeSongId := activeSongId tried;
     activeSetId := activeSetId tried;
     isLoading := false;
     loadingMessage := [];
     pendingSongTitle := None;
     error := error tried |}.
End HandleImportFromFile.

(* ================================================================== *)
(** * Part II. Properties                                              *)
(* ================================================================== *)

(** ** Comparisons *)

Lemma Qltb_lt (a b : Q) : Qltb a b = true <-> a < b.
Proof.
  unfold Qltb. rewrite negb_true_iff. split.
  - intros H. apply Qnot_le_lt. intros Hle.
    apply Qle_bool_iff in Hle. congruence.
  - intros H. destruct (Qle_bool b a) eqn:E; [|reflexivity].
    apply Qle_bool_iff in E. apply Qlt_not_le in H. contradiction.
Qed.

Lemma Qltb_ge (a b : Q) : Qltb a b = false <-> b <= a.
Proof.
  unfold Qltb. rewrite negb_false_iff. apply Qle_bool_iff.
Qed.

Lemma lengthOr1_max (s : jsstring) :
  lengthOr1 s = inject_Z (Z.max 1 (Z.of_nat (length s))).
Proof.
  unfold lengthOr1, ofNat. destruct (length s) as [|n]; simpl.
  - reflexivity.
  - f_equal. lia.
Qed.

Lemma lengthOr1_pos (s : jsstring) : 0 < lengthOr1 s.
Proof.
  rewrite lengthOr1_max. unfold Qlt. simpl. lia.
Qed.

(** ** Loops *)

Lemma foldM_app {A S} (body : S -> A -> result S) (l1 l2 : list A) (st : S) :
  foldM body (l1 ++ l2) st = (st' <- foldM body l1 st ;; foldM body l2 st').
Proof.
  revert st. induction l1 as [|a l1 IH]; intros st; simpl.
  - reflexivity.
  - destruct (body st a); simpl; auto.
Qed.

Lemma foldM_throw {A S} (body : S -> A -> result S) (l1 l2 : list A)
  (a : A) (st st1 : S) (e : JsError) :
  foldM body l1 st = Ok st1 ->
  body st1 a = Throw e ->
  foldM body (l1 ++ a :: l2) st = Throw e.
Proof.
  intros H1 H2. rewrite foldM_app, H1. simpl. rewrite H2. reflexivity.
Qed.

Lemma foldM_prefix_throw {A S} (body : S -> A -> result S) (l1 l2 : list A)
  (st : S) (e : JsError) :
  foldM body l1 st = Throw e -> foldM body (l1 ++ l2) st = Throw e.
Proof.
  intros H. rewrite foldM_app, H. reflexivity.
Qed.

(** ** The pattern matcher *)

Lemma nullable_spec (r : regex) : nullable r = true <-> Matches r [].
Proof.
  induction r as [| |p|r1 IH1 r2 IH2|r1 IH1 r2 IH2|r IH]; simpl.
  - split; [discriminate | intros H; inversion H].
  - split; [intros _; constructor | reflexivity].
  - split; [discriminate | intros H; inversion H].
  - rewrite andb_true_iff, IH1, IH2. split.
    + intros [H1 H2]. exact (MatchSeq H1 H2).
    + intros H. inversion H; subst.
      match goal with
      | Heq : _ ++ _ = [] |- _ =>
          apply app_eq_nil in Heq; destruct Heq; subst; auto
      end.
  - rewrite orb_true_iff, IH1, IH2. split.
    + intros [H | H]; [apply MatchOrL | apply MatchOrR]; exact H.
    + intros H. inversion H; subst; auto.
  - split; [intros _; constructor | reflexivity].
Qed.

Lemma deriv_sound (r : regex) :
  forall (c : N) (s : jsstring), Matches (deriv c r) s -> Matches r (c :: s).
Proof.
  induction r as [| |p|r1 IH1 r2 IH2|r1 IH1 r2 IH2|r IH]; intros c s H; simpl in H.
  - inversion H.
  - inversion H.
  - destruct (p c) eqn:E; inversion H; subst. constructor. exact E.
  - assert (Hleft : forall t, Matches (Seq (deriv c r1) r2) t ->
                              Matches (Seq r1 r2) (c :: t)).
    { intros t Ht. inversion Ht; subst.
      change (c :: ?a ++ ?b) with ((c :: a) ++ b).
      apply MatchSeq; [apply IH1|]; assumption. }
    destruct (nullable r1) eqn:E; [|apply Hleft; exact H].
    inversion H; subst; [apply Hleft; assumption|].
    apply nullable_spec in E.
    change (c :: s) with ([] ++ c :: s).
    apply MatchSeq; [exact E | apply IH2; assumption].
  - inversion H; subst; [apply MatchOrL | apply MatchOrR]; auto.
  - inversion H; subst.
    change (c :: ?a ++ ?b) with ((c :: a) ++ b).
    apply MatchStarApp; [apply IH|]; assumption.
Qed.

Lemma deriv_complete (r : regex) (t : jsstring) :
  Matches r t ->
  forall (c : N) (s : jsstring), t = c :: s -> Matches (deriv c r) s.
Proof.
  induction 1 as [|p a Hp|r1 r2 s1 s2 H1 IH1 H2 IH2|r1 r2 s0 H0 IH0
                  |r1 r2 s0 H0 IH0| |r s1 s2 H1 IH1 H2 IH2];
    intros c s Heq; simpl.
  - discriminate.
  - inversion Heq; subst. rewrite Hp. constructor.
  - destruct s1 as [|a s1]; simpl in Heq.
    + subst s2. pose proof (proj2 (nullable_spec r1) H1) as E. rewrite E.
      apply MatchOrR. apply IH2. reflexivity.
    + inversion Heq; subst.
      assert (Hseq : Matches (Seq (deriv c r1) r2) (s1 ++ s2))
        by (apply MatchSeq; [apply IH1; reflexivity | exact H2]).
      destruct (nullable r1); [apply MatchOrL|]; exact Hseq.
  - apply MatchOrL. apply IH0. exact Heq.
  - apply MatchOrR. apply IH0. exact Heq.
  - discriminate.
  - destruct s1 as [|a s1]; simpl in Heq.
    + apply IH2. exact Heq.
    + inversion Heq; subst.
      apply MatchSeq; [apply IH1; reflexivity | exact H2].
Qed.

(** [fullMatch] decides membership in the language of the pattern. *)
Lemma fullMatch_spec (s : jsstring) :
  forall r : regex, fullMatch r s = true <-> Matches r s.
Proof.
  induction s as [|c s IH]; intros r; simpl.
  - apply nullable_spec.
  - rewrite IH. split.
    + apply deriv_sound.
    + intros H. exact (deriv_complete H eq_refl).
Qed.

(** ** The line classifier *)

(** C5. A line whose only token is "[Chorus]" is classified LYRIC by
    [classifyLine], not UNKNOWN: the letter test of the lyric check sees
    h, o, r, u, s and returns before the bracket test is reached. The
    marker "[Intro]" named in the comment of the bracket test has the
    same fate; a bracketed token without such letters is UNKNOWN. *)
Theorem classifyLine_chorus_marker :
  forall w h x0 y0 : Q,
    let line := fun s =>
      [{| str := lit s; width := w; height := h;
          transform4 := x0; transform5 := y0 |}] in
    classifyLine (line "[Chorus]"%string) = LYRIC /\
    classifyLine (line "[Intro]"%string) = LYRIC /\
    classifyLine (line "[A]"%string) = UNKNOWN.
Proof.
  intros w h x0 y0. repeat split; vm_compute; reflexivity.
Qed.

(** C6. The letter test comes before the low-ratio fallback: whenever the
    chord ratio of the terms is at most 0.7 and some term, after the
    removal of min, maj, aug, dim, sus, add, flat (any case), still has a
    letter in h-z or H-Z, the line is LYRIC, whatever the ratio is
    against 0.2. The terms Dm, is, great have ratio 1/3, above 0.2, and
    the line is LYRIC. *)
Theorem classifyLine_letters_before_ratio :
  (forall (lineItems : list PdfTextItem) (token : jsstring) (c : N),
      chordRatioOf (lineTokens lineItems) <= 7 # 10 ->
      In token (lineTokens lineItems) ->
      In c (replaceAll matchQualityWord [] token) ->
      inRange 104 122 c || inRange 72 90 c = true ->
      classifyLine lineItems = LYRIC)
  /\
  (let line := [textItem "Dm" 0 0 16; textItem "is" 30 0 12; textItem "great" 50 0 40] in
   chordRatioOf (lineTokens line) == 1 # 3 /\
   2 # 10 < chordRatioOf (lineTokens line) /\
   classifyLine line = LYRIC).
Proof.
  split.
  - intros lineItems token c Hratio Htok Hc Hletter.
    unfold classifyLine.
    destruct lineItems as [|item lineItems]; [contradiction|].
    cbn [length Nat.eqb].
    destruct (lineTokens (item :: lineItems)) as [|t ts] eqn:Etok; [contradiction|].
    cbn [length Nat.eqb].
    apply Qltb_ge in Hratio. rewrite Hratio.
    assert (Hex : existsb hasLyricLetter (t :: ts) = true).
    { apply existsb_exists. exists token. split; [exact Htok|].
      unfold hasLyricLetter. apply existsb_exists. exists c. auto. }
    rewrite Hex. reflexivity.
  - vm_compute. repeat split; reflexivity.
Qed.

Lemma classifyLine_letters_before_ratio_witness :
  classifyLine [textItem "Dm" 0 0 16; textItem "is" 30 0 12; textItem "great" 50 0 40]
  = LYRIC.
Proof.
  apply (proj1 classifyLine_letters_before_ratio _ (lit "great") 114%N).
  - vm_compute. discriminate.
  - vm_compute. auto.
  - vm_compute. auto.
  - reflexivity.
Defined.

(** ** Sorting by x *)

Lemma insertSorted_perm {A} (precedes : A -> A -> bool) (a : A) (l : list A) :
  Permutation (a :: l) (insertSorted precedes a l).
Proof.
  induction l as [|b l IH]; simpl.
  - apply Permutation_refl.
  - destruct (precedes b a).
    + eapply perm_trans; [apply perm_swap|]. apply perm_skip. exact IH.
    + apply Permutation_refl.
Qed.

Lemma stableSort_perm {A} (precedes : A -> A -> bool) (l : list A) :
  Permutation l (stableSort precedes l).
Proof.
  induction l as [|a l IH]; simpl.
  - apply perm_nil.
  - eapply perm_trans; [apply perm_skip; exact IH|]. apply insertSorted_perm.
Qed.

Lemma insertSorted_byX_sorted (a : PdfTextItem) (l : list PdfTextItem) :
  StronglySorted leX l -> StronglySorted leX (insertSorted byX a l).
Proof.
  induction l as [|b l IH]; intros Hs; simpl.
  - constructor; [constructor | constructor].
  - inversion Hs as [|? ? Hl Hb]; subst.
    destruct (byX b a) eqn:E; unfold byX in E.
    + apply Qltb_lt in E. constructor; [auto|].
      eapply Permutation_Forall; [apply insertSorted_perm|].
      constructor; [apply Qlt_le_weak; exact E | exact Hb].
    + apply Qltb_ge in E. constructor; [exact Hs|].
      constructor; [exact E|].
      eapply Forall_impl; [|exact Hb].
      intros z Hz. unfold leX in *. eapply Qle_trans; eauto.
Qed.

Lemma sortByX_sorted (l : list PdfTextItem) : StronglySorted leX (sortByX l).
Proof.
  unfold sortByX. induction l as [|a l IH]; simpl.
  - constructor.
  - apply insertSorted_byX_sorted. exact IH.
Qed.

Lemma sortByX_short (l : list PdfTextItem) :
  (length l <? 2) = true -> sortByX l = l.
Proof.
  destruct l as [|a [|b l]]; simpl; intros H; try reflexivity; discriminate.
Qed.

(** ** The token merger *)

Lemma mergeStep_text (merged : list PdfTextItem) (cur nxt : PdfTextItem) :
  let st := mergeStep (merged, cur) nxt in
  concat (map str (fst st ++ [snd st]))
  = concat (map str (merged ++ [cur])) ++ str nxt.
Proof.
  unfold mergeStep.
  destruct (Qle_bool (-2) (gapBetween cur nxt)
            && Qltb (gapBetween cur nxt) (MERGE_THRESHOLD cur)); simpl.
  - rewrite !map_app, !concat_app. simpl. rewrite !app_nil_r, app_assoc.
    reflexivity.
  - rewrite !map_app, !concat_app. simpl. rewrite !app_nil_r.
    reflexivity.
Qed.

Lemma mergeLoop_text (rest : list PdfTextItem) :
  forall (merged : list PdfTextItem) (cur : PdfTextItem),
    let st := fold_left mergeStep rest (merged, cur) in
    concat (map str (fst st ++ [snd st]))
    = concat (map str (merged ++ [cur])) ++ concat (map str rest).
Proof.
  induction rest as [|nxt rest IH]; intros merged cur; cbn [fold_left].
  - simpl. rewrite app_nil_r. reflexivity.
  - pose proof (mergeStep_text merged cur nxt) as H. cbv zeta in H.
    destruct (mergeStep (merged, cur) nxt) as [merged1 cur1].
    cbv zeta. rewrite (IH merged1 cur1). cbn [fst snd] in H.
    rewrite H. cbn [map concat]. rewrite app_assoc. reflexivity.
Qed.

(** C10. The merger loses no text: the texts of the returned tokens,
    concatenated in order, are the texts of the input fragments
    concatenated in ascending order of x (the stable sorted arrangement
    of the input, which is a permutation of it). *)
Theorem mergeAdjacentTextItems_keeps_text :
  forall items : list PdfTextItem,
    concat (map str (mergeAdjacentTextItems items))
    = concat (map str (sortByX items))
    /\ Permutation items (sortByX items)
    /\ StronglySorted leX (sortByX items).
Proof.
  intros items. split; [|split].
  - unfold mergeAdjacentTextItems.
    destruct (length items <? 2) eqn:E.
    + rewrite sortByX_short by exact E. reflexivity.
    + destruct (sortByX items) as [|first rest]; [reflexivity|].
      pose proof (mergeLoop_text rest [] first) as H. simpl in H.
      destruct (fold_left mergeStep rest ([], first)) as [merged cur].
      simpl in H. rewrite H, app_nil_r. reflexivity.
  - apply stableSort_perm.
  - apply sortByX_sorted.
Qed.





(** ** Non-paired lines *)

Lemma singleLine_lastX (pre : list PdfTextItem) (a : PdfTextItem) :
  snd (fold_left singleStep (pre ++ [a]) ([], None))
  = Some (transform4 a + width a).
Proof.
  rewrite fold_left_app. simpl.
  destruct (fold_left singleStep pre ([], None)) as [lineText lastX].
  reflexivity.
Qed.

Lemma renderSingleLine_snoc (pre : list PdfTextItem) (a b : PdfTextItem) :
  renderSingleLine (pre ++ [a; b])
  = renderSingleLine (pre ++ [a])
    ++ (if Qltb (width b / lengthOr1 (str b))
                (transform4 b - (transform4 a + width a))
        then [32%N] else [])
    ++ str b.
Proof.
  unfold renderSingleLine.
  replace (pre ++ [a; b]) with ((pre ++ [a]) ++ [b])
    by (rewrite <- app_assoc; reflexivity).
  rewrite (fold_left_app singleStep (pre ++ [a]) [b]).
  pose proof (singleLine_lastX pre a) as HlastX.
  destruct (fold_left singleStep (pre ++ [a]) ([], None)) as [lineText lastX].
  simpl in HlastX. subst lastX. simpl.
  destruct (Qltb (width b / lengthOr1 (str b))
                 (transform4 b - (transform4 a + width a))); simpl.
  - rewrite <- app_assoc. reflexivity.
  - reflexivity.
Qed.

(** C9, as the code has it. A non-paired line is rendered by
    concatenating its tokens from left to right; between two adjacent
    tokens one space is inserted exactly when the gap from the end of
    the left token to the start of the right token exceeds one average
    character width of the right token (its width divided by its
    character count, by 1 for an empty token). *)
Theorem renderSingleLine_spacing :
  renderSingleLine [] = []
  /\ (forall a : PdfTextItem, renderSingleLine [a] = str a)
  /\ (forall (pre : list PdfTextItem) (a b : PdfTextItem),
        let gap := transform4 b - (transform4 a + width a) in
        let average := width b / inject_Z (Z.max 1 (Z.of_nat (length (str b)))) in
        (average < gap ->
           renderSingleLine (pre ++ [a; b])
           = renderSingleLine (pre ++ [a]) ++ [32%N] ++ str b)
        /\ (~ average < gap ->
           renderSingleLine (pre ++ [a; b])
           = renderSingleLine (pre ++ [a]) ++ str b)).
Proof.
  split; [reflexivity|]. split; [reflexivity|].
  intros pre a b gap average.
  rewrite renderSingleLine_snoc, lengthOr1_max.
  fold average. fold gap.
  destruct (Qltb average gap) eqn:E.
  - apply Qltb_lt in E. split; [reflexivity | intros H; contradiction].
  - apply Qltb_ge in E. split; [|reflexivity].
    intros H. apply Qlt_not_le in H. contradiction.
Qed.

Lemma renderSingleLine_spacing_witness :
  renderSingleLine [textItem "a" 0 0 10; textItem "bb" 15 0 2] = lit "a bb"
  /\ renderSingleLine [textItem "a" 0 0 10; textItem "bb" 11 0 2] = lit "abb".
Proof.
  split.
  - apply (proj1 (proj2 (proj2 renderSingleLine_spacing) []
                    (textItem "a" 0 0 10) (textItem "bb" 15 0 2))).
    reflexivity.
  - apply (proj2 (proj2 (proj2 renderSingleLine_spacing) []
                    (textItem "a" 0 0 10) (textItem "bb" 11 0 2))).
    vm_compute. discriminate.
Defined.

(** C9, as stated, fails: with the average character width of the left
    token as the bound, "a" (width 10) followed by "bb" (width 2) after
    a gap of 5 would be joined without a space, yet the code inserts
    one. *)
Lemma renderSingleLine_left_width_counterexample :
  ~ (forall a b : PdfTextItem,
       let gap := transform4 b - (transform4 a + width a) in
       let leftAverage := width a / ofNat (length (str a)) in
       (leftAverage < gap -> renderSingleLine [a; b] = str a ++ [32%N] ++ str b)
       /\ (~ leftAverage < gap -> renderSingleLine [a; b] = str a ++ str b)).
Proof.
  intros H.
  destruct (H (textItem "a" 0 0 10) (textItem "bb" 15 0 2)) as [_ Hno].
  vm_compute in Hno.
  assert (E := Hno ltac:(discriminate)). discriminate E.
Qed.

(** ** The loop over the lines of a page *)

Lemma isPair_types (c l : ClassifiedLine) :
  isPair c l = true -> type c = CHORD /\ type l = LYRIC.
Proof.
  unfold isPair. destruct (type c), (type l); intros H; try discriminate; auto.
Qed.

Lemma pairAt_not_second (lines : list ClassifiedLine) (k : nat) :
  pairAt lines k = true -> secondOfPair lines k = false.
Proof.
  intros Hk. destruct k as [|k']; [reflexivity|]. simpl.
  unfold pairAt in *. rewrite Nat.add_1_r in *.
  destruct (nth_error lines k') as [a|]; [|reflexivity].
  destruct (nth_error lines (S k')) as [b|]; [|reflexivity].
  destruct (nth_error lines (S (S k'))) as [c|]; [|discriminate].
  apply isPair_types in Hk. destruct Hk as [Hb _].
  destruct (isPair a b) eqn:E; [|reflexivity].
  apply isPair_types in E. destruct E as [_ E]. congruence.
Qed.

Lemma existsb_eqb_In (i : nat) (l : list nat) :
  existsb (Nat.eqb i) l = true <-> In i l.
Proof.
  rewrite existsb_exists. split.
  - intros [j [Hin Heq]]. apply Nat.eqb_eq in Heq. subst. exact Hin.
  - intros Hin. exists i. split; [exact Hin | apply Nat.eqb_refl].
Qed.

Section PageLoopFacts.
Variable Out : Type.
Variable onPair : nat -> ClassifiedLine -> ClassifiedLine -> Out -> result Out.
Variable onSingle : nat -> ClassifiedLine -> Out -> Out.
Variable lines : list ClassifiedLine.

Lemma lineStep_processed (k : nat) (p p' : list nat) (out out' : Out) :
  (k < length lines)%nat ->
  processedBefore lines k p ->
  lineStep onPair onSingle lines (p, out) k = Ok (p', out') ->
  processedBefore lines (S k) p'.
Proof.
  intros Hk Hinv Hstep. unfold lineStep in Hstep.
  destruct (existsb (Nat.eqb k) p) eqn:Ein.
  - inversion Hstep; subst. apply existsb_eqb_In in Ein.
    apply Hinv in Ein. destruct Ein as [Hlt | [_ Hsec]]; [lia|].
    assert (Hpair : pairAt lines k = false).
    { destruct (pairAt lines k) eqn:E; [|reflexivity].
      apply pairAt_not_second in E. congruence. }
    intros j. simpl. rewrite Hpair. rewrite (Hinv j). rewrite Hsec.
    intuition (try lia; try discriminate).
  - assert (Hnot : ~ In k p).
    { intros H. apply existsb_eqb_In in H. congruence. }
    assert (Hsec : secondOfPair lines k = false).
    { destruct (secondOfPair lines k) eqn:E; [|reflexivity].
      exfalso. apply Hnot. apply Hinv. right. auto. }
    assert (Hp : forall j, In j p <-> (j < k)%nat).
    { intros j. rewrite (Hinv j), Hsec. intuition (try lia; try discriminate). }
    destruct (nth_error lines k) as [cur|] eqn:Ecur.
    2: { apply nth_error_None in Ecur. lia. }
    unfold processedBefore. simpl secondOfPair. unfold pairAt. rewrite Ecur.
    destruct (nth_error lines (k + 1)) as [nl|] eqn:Enl.
    + destruct (isPair cur nl) eqn:Epair.
      * destruct (onPair k cur nl out) as [o|e]; simpl in Hstep; [|discriminate].
        inversion Hstep; subst. intros j. simpl. rewrite (Hp j).
        intuition (try lia; try discriminate).
      * inversion Hstep; subst. intros j. simpl. rewrite (Hp j).
        intuition (try lia; try discriminate).
    + inversion Hstep; subst. intros j. simpl. rewrite (Hp j).
      intuition (try lia; try discriminate).
Qed.

Lemma pageLoop_prefix_processed (init : Out) (k : nat) :
  forall (p : list nat) (out : Out),
    (k <= length lines)%nat ->
    foldM (lineStep onPair onSingle lines) (seq 0 k) ([], init) = Ok (p, out) ->
    processedBefore lines k p.
Proof.
  induction k as [|k IH]; intros p out Hk Hrun.
  - simpl in Hrun. inversion Hrun; subst. intros j. simpl.
    intuition (try lia; try discriminate).
  - rewrite seq_S, foldM_app in Hrun.
    destruct (foldM (lineStep onPair onSingle lines) (seq 0 k) ([], init))
      as [[p0 out0]|e] eqn:E; [|discriminate].
    cbn [bind foldM Nat.add] in Hrun.
    destruct (lineStep onPair onSingle lines (p0, out0) k) as [[p1 out1]|e] eqn:E1;
      [|discriminate].
    cbn [bind] in Hrun. inversion Hrun; subst.
    eapply lineStep_processed; [lia | | exact E1].
    eapply IH; [lia | reflexivity].
Qed.
(** The branch taken at an index the loop arrives at, whatever the two
    branches do: a second line of a pair is skipped, the start of a pair
    goes to the pair branch, any other line to the single branch. *)
Lemma lineStep_decision (init : Out) (i : nat) (p : list nat) (out : Out)
  (currentLine : ClassifiedLine) :
  foldM (lineStep onPair onSingle lines) (seq 0 i) ([], init) = Ok (p, out) ->
  nth_error lines i = Some currentLine ->
  lineStep onPair onSingle lines (p, out) i
  = if secondOfPair lines i then Ok (p, out)
    else match nth_error lines (i + 1) with
         | Some nextLine =>
             if isPair currentLine nextLine
             then out' <- onPair i currentLine nextLine out ;;
                  Ok ((i + 1)%nat :: i :: p, out')
             else Ok (i :: p, onSingle i currentLine out)
         | None => Ok (i :: p, onSingle i currentLine out)
         end.
Proof.
  intros Hrun Hcur.
  assert (Hi : (i < length lines)%nat) by (apply nth_error_Some; congruence).
  pose proof (@pageLoop_prefix_processed init i p out ltac:(lia) Hrun) as Hinv.
  unfold lineStep. rewrite Hcur.
  destruct (secondOfPair lines i) eqn:Esec.
  - assert (Hin : In i p) by (apply Hinv; right; auto).
    apply existsb_eqb_In in Hin. rewrite Hin. reflexivity.
  - destruct (existsb (Nat.eqb i) p) eqn:Ein; [|reflexivity].
    apply existsb_eqb_In in Ein. apply Hinv in Ein.
    destruct Ein as [Hlt | [_ Hsec]]; [lia | congruence].
Qed.
End PageLoopFacts.

(** ** The pair detector *)

Lemma isPair_spec (c l : ClassifiedLine) :
  isPair c l = true
  <-> type c = CHORD /\ type l = LYRIC /\ Qabs (y c - y l) < 30.
Proof.
  unfold isPair. split.
  - destruct (type c), (type l); intros H; try discriminate.
    apply Qltb_lt in H. auto.
  - intros [Hc [Hl H]]. rewrite Hc, Hl. apply Qltb_lt. exact H.
Qed.


Lemma pairAt_in_range (lines : list ClassifiedLine) (i : nat) :
  pairAt lines i = true -> (i < length lines)%nat.
Proof.
  unfold pairAt. intros H. apply nth_error_Some.
  destruct (nth_error lines i); [discriminate | discriminate].
Qed.




(** ** Chord placement *)


Lemma advanceCursor_ok (m : list Q) (chord : ChordAt) (cursor cursor' : nat) :
  advanceCursor m chord cursor = Ok cursor' ->
  (cursor <= cursor')%nat
  /\ (forall j v, (cursor <= j < cursor')%nat -> nth_error m j = Some v ->
                  v < x chord)
  /\ (forall v, nth_error m cursor' = Some v -> x chord <= v).
Proof.
  funelim (advanceCursor m chord cursor); intros Hok;
    repeat match goal with
           | Hsig : sigmaI _ _ _ = sigmaI _ _ _ |- _ => clear Hsig
           end.
  - inversion Hok; subst. split; [lia|]. split; [intros; lia|].
    intros v Hv. congruence.
  - inversion Hok; subst. split; [lia|]. split; [intros; lia|].
    intros w Hw.
    match goal with
    | Hv : nth_error _ _ = Some ?v, Hge : Qltb ?v _ = false |- _ =>
        apply Qltb_ge in Hge; rewrite Hw in Hv; inversion Hv; subst; exact Hge
    end.
  - discriminate.
  - match goal with
    | IH : forall c : nat, advanceCursor _ _ (S _) = Ok c -> _ |- _ =>
        destruct (IH _ Hok) as [Hle [Hbelow Hat]]
    end.
    split; [lia|]. split; [|exact Hat].
    intros j w Hj Hw. destruct (Nat.eq_dec j cursor) as [->|Hne].
    + match goal with
      | Hv : nth_error _ cursor = Some ?v, Hlt : Qltb ?v _ = true |- _ =>
          apply Qltb_lt in Hlt; rewrite Hw in Hv; inversion Hv; subst; exact Hlt
      end.
    + apply (Hbelow j w); [lia | exact Hw].
Qed.


Lemma writeChord_throws (chars : jsstring) (chord : ChordAt) :
  text chord <> [] ->
  writeChord chars chord = Throw (ReferenceError (lit "closestCharIndex")).
Proof.
  unfold writeChord. destruct (text chord) as [|c t]; simpl.
  - intros H. contradiction.
  - reflexivity.
Qed.

Lemma advanceCursor_throw (m : list Q) (chord : ChordAt) (cursor : nat)
  (e : JsError) :
  advanceCursor m chord cursor = Throw e ->
  e = Error (placementMessage (text chord)).
Proof.
  funelim (advanceCursor m chord cursor); intros E; try discriminate.
  - inversion E. reflexivity.
  - match goal with
    | IH : forall e' : JsError, advanceCursor _ _ (S _) = Throw e' -> _ |- _ =>
        apply IH; exact E
    end.
Qed.

(** No chord with a non-empty text is ever written: placing it throws,
    either for want of a position or at the undeclared identifier. *)
Lemma placeChord_never_writes (m : list Q) (cursor : nat) (chars : jsstring)
  (chord : ChordAt) :
  text chord <> [] ->
  placeChord m (cursor, chars) chord
  = Throw (Error (placementMessage (text chord)))
  \/ placeChord m (cursor, chars) chord
     = Throw (ReferenceError (lit "closestCharIndex")).
Proof.
  intros Hne. unfold placeChord.
  destruct (advanceCursor m chord cursor) as [c|e] eqn:E; simpl.
  - right. rewrite writeChord_throws by exact Hne. reflexivity.
  - left. apply advanceCursor_throw in E. subst. reflexivity.
Qed.



(** C1. For the chord "G" at x = 0 over the lyric "Go tell it" starting
    at x = 0 the cursor stops at index 0, and the write that should put
    "G" there throws instead: the loop reads [closestCharIndex], which
    is declared nowhere. Nothing is written at the cursor, and the whole
    extraction fails. *)
Theorem chord_write_throws :
  let chordItems := [textItem "G" 0 100 8] in
  let lyricItems := [textItem "Go tell it" 0 90 100] in
  advanceCursor (indexToXMap (buildLyric lyricItems))
                {| text := lit "G"; x := 0 |} 0 = Ok 0%nat
  /\ placeChords chordItems lyricItems
     = Throw (ReferenceError (lit "closestCharIndex"))
  /\ reconstructCouplet chordItems lyricItems
     = Throw (ReferenceError (lit "closestCharIndex"))
  /\ extractTextFromPdf [chordItems ++ lyricItems]
     = Throw (ReferenceError (lit "closestCharIndex")).
Proof.
  repeat split; vm_compute; reflexivity.
Qed.

(** ** Propagation of a failed placement *)


Lemma seq_split (i n : nat) :
  (i < n)%nat -> seq 0 n = seq 0 i ++ i :: seq (S i) (n - S i).
Proof.
  intros Hi. replace n with (i + S (n - S i))%nat at 1 by lia.
  rewrite seq_app. reflexivity.
Qed.

Lemma pageTextOf_throw (lines : list ClassifiedLine) (i : nat)
  (st : list nat * jsstring) (chordLine lyricLine : ClassifiedLine) (e : JsError) :
  foldM (lineStep appendPair appendSingle lines) (seq 0 i) ([], []) = Ok st ->
  nth_error lines i = Some chordLine ->
  nth_error lines (i + 1) = Some lyricLine ->
  isPair chordLine lyricLine = true ->
  reconstructCouplet (items chordLine) (items lyricLine) = Throw e ->
  pageTextOf lines = Throw e.
Proof.
  intros Hrun Hchord Hlyric Hpair Hthrow.
  assert (Hi : (i < length lines)%nat)
    by (apply nth_error_Some; congruence).
  destruct st as [p pageText].
  pose proof (pageLoop_prefix_processed appendPair appendSingle lines []
                (k:=i) ltac:(lia) Hrun) as Hinv.
  assert (Hpi : pairAt lines i = true).
  { unfold pairAt. rewrite Hchord, Hlyric. exact Hpair. }
  assert (Hnot : existsb (Nat.eqb i) p = false).
  { destruct (existsb (Nat.eqb i) p) eqn:E; [|reflexivity].
    apply existsb_eqb_In in E. apply Hinv in E.
    destruct E as [E | [_ E]]; [lia|].
    rewrite pairAt_not_second in E by exact Hpi. discriminate. }
  unfold pageTextOf, pageLoop.
  rewrite (seq_split Hi).
  erewrite foldM_throw; [reflexivity | exact Hrun |].
  unfold lineStep. rewrite Hnot, Hchord, Hlyric, Hpair.
  unfold appendPair. rewrite Hthrow. reflexivity.
Qed.


(** ** Lines as the pipeline classifies them *)

Lemma classifyLines_typed (allItems : list PdfTextItem) (line : ClassifiedLine) :
  In line (classifyLines allItems) -> type line = classifyLine (items line).
Proof.
  unfold classifyLines. intros H. apply in_map_iff in H.
  destruct H as [entry [Heq _]]. subst line. reflexivity.
Qed.

Lemma trim_nil : trim [] = [].
Proof. reflexivity. Qed.

Lemma lineTokens_text (lineItems : list PdfTextItem) :
  lineTokens lineItems <> [] ->
  exists item, In item lineItems /\ str item <> [].
Proof.
  unfold lineTokens. intros H.
  destruct (filter truthy (map (fun item => trim (str item)) lineItems))
    as [|t ts] eqn:E; [contradiction|].
  assert (Hin : In t (filter truthy (map (fun item => trim (str item)) lineItems)))
    by (rewrite E; left; reflexivity).
  apply filter_In in Hin. destruct Hin as [Hin Ht].
  apply in_map_iff in Hin. destruct Hin as [item [Heq Hitem]].
  exists item. split; [exact Hitem|].
  intros Hnil. rewrite Hnil, trim_nil in Heq. subst t. discriminate.
Qed.

Lemma classifyLine_tokens (lineItems : list PdfTextItem) :
  classifyLine lineItems = CHORD \/ classifyLine lineItems = LYRIC ->
  lineTokens lineItems <> [].
Proof.
  unfold classifyLine. intros H Hnil.
  destruct (length lineItems =? 0); [destruct H; discriminate|].
  rewrite Hnil in H. simpl in H. destruct H; discriminate.
Qed.




Lemma advanceCursor_in_range (m : list Q) (chord : ChordAt) (cursor cursor' : nat) :
  (cursor < length m)%nat ->
  advanceCursor m chord cursor = Ok cursor' ->
  (cursor' < length m)%nat.
Proof.
  funelim (advanceCursor m chord cursor); intros Hlt Hok.
  - inversion Hok; subst. exact Hlt.
  - inversion Hok; subst. exact Hlt.
  - discriminate.
  - match goal with
    | IH : forall c : nat, (S _ < _)%nat -> advanceCursor _ _ (S _) = Ok c -> _,
      Hne : (S _ =? _) = false |- _ =>
        apply Nat.eqb_neq in Hne; apply IH; [lia | exact Hok]
    end.
Qed.




(** ** The two lines of a couplet *)

Lemma trimStart_length (s : jsstring) : (length (trimStart s) <= length s)%nat.
Proof.
  induction s as [|c s IH]; simpl; [lia|].
  destruct (isWhiteSpace c); simpl; lia.
Qed.







(** ** Couplets in the pipeline

    A line that [classifyLine] labels CHORD has a token with a non-empty
    text, and placing such a token always throws: wherever the page loop
    finds a pair, the extraction of the document fails. *)

Lemma placeChords_throw (m : list Q) (chords : list ChordAt) (chord : ChordAt) :
  In chord chords -> text chord <> [] ->
  forall st : nat * jsstring,
    exists e, foldM (placeChord m) chords st = Throw e.
Proof.
  intros Hin Hne. induction chords as [|c chords IH]; [destruct Hin|].
  intros [cursor chars]. cbn [foldM].
  destruct (placeChord m (cursor, chars) c) as [st1|e] eqn:E.
  - cbn [bind]. destruct Hin as [Heq | Hin].
    + subst c.
      destruct (@placeChord_never_writes m cursor chars chord Hne) as [H | H];
        rewrite H in E; discriminate.
    + apply (IH Hin).
  - exists e. reflexivity.
Qed.

Lemma reconstructCouplet_classified_throws (chordItems lyricItems : list PdfTextItem) :
  classifyLine chordItems = CHORD ->
  exists e, reconstructCouplet chordItems lyricItems = Throw e.
Proof.
  intros H.
  assert (Htokens : lineTokens chordItems <> [])
    by (apply classifyLine_tokens; left; exact H).
  apply lineTokens_text in Htokens. destruct Htokens as [item [Hitem Hne]].
  unfold reconstructCouplet, placeChords.
  destruct (@placeChords_throw (indexToXMap (buildLyric lyricItems))
              (pass1_chords chordItems)
              {| text := str item; x := transform4 item |}
              (in_map _ _ _ Hitem) Hne
              (0%nat, repeat 32%N (length (lyricString (buildLyric lyricItems)))))
    as [e He].
  exists e. rewrite He. reflexivity.
Qed.

Lemma pageTextOf_ok_no_pair (allItems : list PdfTextItem) (pageText : jsstring) :
  pageTextOf (classifyLines allItems) = Ok pageText ->
  forall i, pairAt (classifyLines allItems) i = false.
Proof.
  intros Hok i.
  destruct (pairAt (classifyLines allItems) i) eqn:Epair; [|reflexivity].
  exfalso. pose proof (@pairAt_in_range _ _ Epair) as Hi.
  unfold pairAt in Epair.
  destruct (nth_error (classifyLines allItems) i) as [chordLine|] eqn:Ec;
    [|discriminate].
  destruct (nth_error (classifyLines allItems) (i + 1)) as [lyricLine|] eqn:El;
    [|discriminate].
  assert (Hchord : classifyLine (items chordLine) = CHORD).
  { rewrite <- (@classifyLines_typed allItems chordLine)
      by (eapply nth_error_In; exact Ec).
    apply (isPair_spec chordLine lyricLine). exact Epair. }
  destruct (@reconstructCouplet_classified_throws _ (items lyricLine) Hchord)
    as [e He].
  destruct (foldM (lineStep appendPair appendSingle (classifyLines allItems))
                  (seq 0 i) ([], [])) as [st|e0] eqn:Eprefix.
  - rewrite (@pageTextOf_throw _ i _ _ _ _ Eprefix Ec El Epair He) in Hok.
    discriminate.
  - assert (Hthrow : pageTextOf (classifyLines allItems) = Throw e0).
    { unfold pageTextOf, pageLoop. rewrite (seq_split Hi).
      erewrite foldM_prefix_throw; [reflexivity | exact Eprefix]. }
    rewrite Hthrow in Hok. discriminate.
Qed.

Lemma foldM_ok_each {A S} (body : S -> A -> result S) (l : list A) :
  forall (st st' : S) (a : A),
    foldM body l st = Ok st' -> In a l ->
    exists s1 s2, body s1 a = Ok s2.
Proof.
  induction l as [|b l IH]; intros st st' a Hok Hin; [destruct Hin|].
  cbn [foldM] in Hok.
  destruct (body st b) as [st1|e] eqn:E; [|discriminate].
  destruct Hin as [Heq | Hin].
  - subst b. eauto.
  - apply (IH st1 st' a Hok Hin).
Qed.

(** A document whose extraction returns a text has no couplet at all. *)
Lemma extractTextFromPdf_ok_no_pair (pages : list (list PdfTextItem))
  (fullText : jsstring) (rawItems : list PdfTextItem) :
  extractTextFromPdf pages = Ok fullText ->
  In rawItems pages ->
  forall i, pairAt (classifyLines (mergeAdjacentTextItems rawItems)) i = false.
Proof.
  unfold extractTextFromPdf. intros Hok Hin i.
  destruct (foldM pageStep pages []) as [text|e] eqn:E; [|discriminate].
  destruct (@foldM_ok_each _ _ _ _ _ _ _ E Hin) as [s1 [s2 Hpage]].
  unfold pageStep in Hpage.
  destruct rawItems as [|r rawItems]; [destruct i; reflexivity|].
  cbn [length Nat.eqb] in Hpage.
  destruct (mergeAdjacentTextItems (r :: rawItems)) as [|a allItems] eqn:Em;
    [destruct i; reflexivity|].
  cbn [length Nat.eqb] in Hpage.
  destruct (pageTextOf (classifyLines (a :: allItems))) as [pageText|e] eqn:Ep;
    [|discriminate].
  apply (@pageTextOf_ok_no_pair _ _ Ep).
Qed.

(** ** The final normalization *)

Lemma stripSpaceNewline_cons (a : N) (t : jsstring) :
  stripSpaceNewline (a :: t)
  = if startsWith [32%N; 10%N] (a :: t)
    then stripSpaceNewline t
    else a :: stripSpaceNewline t.
Proof.
  unfold stripSpaceNewline, replaceAll. cbn [replaceFrom].
  destruct t as [|b r]; cbn [matchSpaceNewline startsWith].
  - rewrite andb_false_r. reflexivity.
  - rewrite andb_true_r.
    destruct ((a =? 32)%N && (b =? 10)%N) eqn:E; [|reflexivity].
    apply andb_true_iff in E. destruct E as [_ Eb].
    apply N.eqb_eq in Eb. subst b. cbn [replaceFrom app].
    destruct r as [|c r]; reflexivity.
Qed.

Lemma startsWith_newline_head (s : jsstring) :
  startsWith [10%N] s = true <-> exists rest, s = 10%N :: rest.
Proof.
  destruct s as [|c s]; simpl.
  - split; [discriminate | intros [rest H]; discriminate].
  - rewrite andb_true_r, N.eqb_eq. split.
    + intros ->. eauto.
    + intros [rest H]. congruence.
Qed.

Lemma stripSpaceNewline_head (t : jsstring) :
  startsWith [10%N] (stripSpaceNewline t) = true ->
  startsWith [10%N] t = true \/ startsWith [32%N; 10%N] t = true.
Proof.
  destruct t as [|b t'].
  - intros H. vm_compute in H. discriminate.
  - rewrite stripSpaceNewline_cons.
    destruct (startsWith [32%N; 10%N] (b :: t')) eqn:E; [auto|].
    intros H. left. simpl in *. exact H.
Qed.

Lemma stripSpaceNewline_clean (s : jsstring) :
  occurs [32%N; 32%N; 10%N] s = false ->
  occurs [32%N; 10%N] (stripSpaceNewline s) = false.
Proof.
  induction s as [|a t IH]; intros H.
  - reflexivity.
  - cbn [occurs] in H. apply orb_false_iff in H. destruct H as [Hhere Hrest].
    specialize (IH Hrest). rewrite stripSpaceNewline_cons.
    destruct (startsWith [32%N; 10%N] (a :: t)) eqn:E; [exact IH|].
    cbn [occurs]. rewrite IH, orb_false_r.
    change (startsWith [32%N; 10%N] (a :: stripSpaceNewline t))
      with ((a =? 32)%N && startsWith [10%N] (stripSpaceNewline t)).
    destruct (a =? 32)%N eqn:Ea; [|reflexivity]. cbn [andb].
    destruct (startsWith [10%N] (stripSpaceNewline t)) eqn:Eh; [|reflexivity].
    exfalso. apply stripSpaceNewline_head in Eh. destruct Eh as [Eh | Eh].
    + change (startsWith [32%N; 10%N] (a :: t))
        with ((a =? 32)%N && startsWith [10%N] t) in E.
      rewrite Ea, Eh in E. discriminate.
    + change (startsWith [32%N; 32%N; 10%N] (a :: t))
        with ((a =? 32)%N && startsWith [32%N; 10%N] t) in Hhere.
      rewrite Ea, Eh in Hhere. discriminate.
Qed.

Lemma stripSpaceNewline_fixed (s : jsstring) :
  occurs [32%N; 10%N] s = false -> stripSpaceNewline s = s.
Proof.
  induction s as [|a t IH]; intros H.
  - reflexivity.
  - cbn [occurs] in H. apply orb_false_iff in H. destruct H as [Hhere Hrest].
    rewrite stripSpaceNewline_cons, Hhere, (IH Hrest). reflexivity.
Qed.

(** The collapse of newline runs. *)

Lemma leadingNewlines_starts (s : jsstring) :
  (3 <= leadingNewlines s)%nat -> startsWith [10%N; 10%N; 10%N] s = true.
Proof.
  destruct s as [|a [|b [|c s]]]; simpl;
    repeat match goal with
           | |- context [(?z =? 10)%N] => destruct (z =? 10)%N; simpl
           end; intros H; try lia; reflexivity.
Qed.

Lemma collapseNewlines_fixed (s : jsstring) :
  occurs [10%N; 10%N; 10%N] s = false -> collapseNewlines s = s.
Proof.
  unfold collapseNewlines, replaceAll.
  induction s as [|a t IH]; intros H.
  - reflexivity.
  - cbn [occurs] in H. apply orb_false_iff in H. destruct H as [Hhere Hrest].
    assert (Hnone : matchNewlines3 (a :: t) = None).
    { unfold matchNewlines3.
      destruct (3 <=? leadingNewlines (a :: t)) eqn:E; [|reflexivity].
      apply Nat.leb_le in E. apply leadingNewlines_starts in E. congruence. }
    cbn [replaceFrom]. rewrite Hnone, (IH Hrest). reflexivity.
Qed.

Lemma collapseRun_replace (t : jsstring) :
  let R0 := replaceFrom matchNewlines3 [10%N; 10%N] 0 in
  let Rskip := fun s => replaceFrom matchNewlines3 [10%N; 10%N] (leadingNewlines s) s in
  collapseRun 0 t = R0 t
  /\ collapseRun 1 t = (if 2 <=? leadingNewlines t then 10%N :: Rskip t else R0 t)
  /\ (forall run, (2 <= run)%nat -> collapseRun run t = Rskip t).
Proof.
  intros R0 Rskip. induction t as [|c t [IH0 [IH1 IH2]]].
  - repeat split; reflexivity.
  - assert (Hskip_nl : c = 10%N -> Rskip (c :: t) = Rskip t).
    { intros ->. unfold Rskip. reflexivity. }
    assert (Hzero : leadingNewlines t = 0%nat -> Rskip t = R0 t).
    { intros H. unfold Rskip. rewrite H. reflexivity. }
    cbn [collapseRun].
    destruct (c =? 10)%N eqn:Ec.
    + apply N.eqb_eq in Ec. subst c.
      assert (Hln : leadingNewlines (10%N :: t) = S (leadingNewlines t))
        by reflexivity.
      assert (HR0 : R0 (10%N :: t)
                    = if 2 <=? leadingNewlines t
                      then 10%N :: 10%N :: Rskip t
                      else 10%N :: R0 t).
      { unfold R0. cbn [replaceFrom]. unfold matchNewlines3. rewrite Hln.
        change (3 <=? S (leadingNewlines t)) with (2 <=? leadingNewlines t).
        destruct (2 <=? leadingNewlines t); reflexivity. }
      split; [|split].
      * cbn [Nat.leb]. rewrite IH1, HR0.
        destruct (2 <=? leadingNewlines t); reflexivity.
      * cbn [Nat.leb]. rewrite (IH2 2%nat (le_n _)), Hln, (Hskip_nl eq_refl).
        change (2 <=? S (leadingNewlines t)) with (1 <=? leadingNewlines t).
        destruct (leadingNewlines t) as [|n] eqn:En.
        -- cbn [Nat.leb]. rewrite HR0. cbn [Nat.leb].
           rewrite (Hzero eq_refl). reflexivity.
        -- reflexivity.
      * intros run Hrun.
        destruct (2 <=? run) eqn:E; [|apply Nat.leb_gt in E; lia].
        rewrite (IH2 (S run)) by lia. symmetry. apply Hskip_nl. reflexivity.
    + assert (Hln : leadingNewlines (c :: t) = 0%nat).
      { cbn [leadingNewlines]. rewrite Ec. reflexivity. }
      assert (HR0 : R0 (c :: t) = c :: R0 t).
      { unfold R0. cbn [replaceFrom]. unfold matchNewlines3. rewrite Hln.
        reflexivity. }
      assert (HRs : Rskip (c :: t) = c :: R0 t).
      { unfold Rskip. rewrite Hln. exact HR0. }
      rewrite IH0, Hln, HR0. cbn [Nat.leb].
      split; [reflexivity|]. split; [reflexivity|].
      intros run _. symmetry. exact HRs.
Qed.

Lemma collapseNewlines_run (s : jsstring) : collapseNewlines s = collapseRun 0 s.
Proof.
  symmetry. apply (collapseRun_replace s).
Qed.

Lemma collapseRun_head (run : nat) (t : jsstring) :
  startsWith [10%N] (collapseRun run t) = true -> startsWith [10%N] t = true.
Proof.
  destruct t as [|c t]; [intros H; exact H|].
  cbn [collapseRun]. destruct (c =? 10)%N eqn:Ec.
  - intros _. simpl. rewrite Ec. reflexivity.
  - simpl. rewrite Ec. intros H. exact H.
Qed.

Lemma collapseRun_clean (t : jsstring) :
  forall run : nat,
    occurs [32%N; 10%N] t = false ->
    occurs [32%N; 10%N] (collapseRun run t) = false.
Proof.
  induction t as [|c t IH]; intros run H.
  - reflexivity.
  - cbn [occurs] in H. apply orb_false_iff in H. destruct H as [Hhere Hrest].
    cbn [collapseRun]. destruct (c =? 10)%N eqn:Ec.
    + destruct (2 <=? run); [apply IH; exact Hrest|].
      cbn [occurs]. rewrite (IH _ Hrest). reflexivity.
    + cbn [occurs]. rewrite (IH _ Hrest), orb_false_r.
      change (startsWith [32%N; 10%N] (c :: collapseRun 0 t))
        with ((c =? 32)%N && startsWith [10%N] (collapseRun 0 t)).
      change (startsWith [32%N; 10%N] (c :: t))
        with ((c =? 32)%N && startsWith [10%N] t) in Hhere.
      destruct (c =? 32)%N; [|reflexivity]. cbn [andb] in *.
      destruct (startsWith [10%N] (collapseRun 0 t)) eqn:Eh; [|reflexivity].
      apply collapseRun_head in Eh. congruence.
Qed.

Lemma collapseRun_no_triple (t : jsstring) :
  forall run : nat,
    occurs [10%N; 10%N; 10%N] (repeat 10%N (Nat.min 2 run) ++ collapseRun run t)
    = false.
Proof.
  induction t as [|c t IH]; intros run.
  - destruct run as [|[|run]]; reflexivity.
  - cbn [collapseRun]. destruct (c =? 10)%N eqn:Ec.
    + destruct run as [|[|run]]; cbn [Nat.leb].
      * exact (IH 1%nat).
      * exact (IH 2%nat).
      * exact (IH (S (S (S run)))).
    + pose proof (IH 0%nat) as H0. cbn [Nat.min repeat app] in H0.
      destruct run as [|[|run]]; cbn [Nat.min repeat app occurs startsWith];
        rewrite ?Ec, ?H0; reflexivity.
Qed.

Lemma collapseNewlines_clean (s : jsstring) :
  occurs [32%N; 10%N] s = false ->
  occurs [32%N; 10%N] (collapseNewlines s) = false
  /\ occurs [10%N; 10%N; 10%N] (collapseNewlines s) = false.
Proof.
  intros H. rewrite collapseNewlines_run. split.
  - apply collapseRun_clean. exact H.
  - exact (collapseRun_no_triple s 0).
Qed.

(** Trimming. *)

Lemma startsWith_app (pat u w : jsstring) :
  startsWith pat u = true -> startsWith pat (u ++ w) = true.
Proof.
  revert u. induction pat as [|p pat IH]; intros u H; [reflexivity|].
  destruct u as [|c u]; [discriminate|]. simpl in *.
  apply andb_true_iff in H. destruct H as [Hc Hu].
  rewrite Hc, (IH _ Hu). reflexivity.
Qed.

Lemma occurs_prefix (pat u w : jsstring) :
  occurs pat (u ++ w) = false -> occurs pat u = false.
Proof.
  intros H. destruct (occurs pat u) eqn:E; [|reflexivity].
  rewrite <- H. clear H. symmetry.
  induction u as [|c u IH].
  - simpl in E. rewrite orb_false_r in E.
    assert (Hs : startsWith pat w = true) by exact (startsWith_app pat [] w E).
    destruct w as [|d w]; cbn [app occurs]; rewrite Hs; reflexivity.
  - cbn [occurs] in E. apply orb_true_iff in E. simpl app. cbn [occurs].
    destruct E as [E|E].
    + pose proof (startsWith_app pat (c :: u) w E) as Hs. simpl app in Hs.
      rewrite Hs. reflexivity.
    + rewrite (IH E). apply orb_true_r.
Qed.

Lemma occurs_suffix (pat v u : jsstring) :
  occurs pat (v ++ u) = false -> occurs pat u = false.
Proof.
  induction v as [|c v IH]; intros H; [exact H|].
  simpl app in H. cbn [occurs] in H. apply orb_false_iff in H.
  apply IH. apply H.
Qed.

Lemma trimStart_suffix (s : jsstring) : exists v, s = v ++ trimStart s.
Proof.
  induction s as [|c s [v IH]]; [exists []; reflexivity|].
  simpl. destruct (isWhiteSpace c).
  - exists (c :: v). simpl. rewrite <- IH. reflexivity.
  - exists []. reflexivity.
Qed.

Lemma trimEnd_prefix (s : jsstring) : exists w, s = trimEnd s ++ w.
Proof.
  unfold trimEnd. destruct (trimStart_suffix (rev s)) as [v H].
  exists (rev v). rewrite <- rev_app_distr, <- H, rev_involutive. reflexivity.
Qed.

Lemma trim_clean (pat s : jsstring) :
  occurs pat s = false -> occurs pat (trim s) = false.
Proof.
  intros H. unfold trim.
  destruct (trimStart_suffix s) as [v Hv].
  destruct (trimEnd_prefix (trimStart s)) as [w Hw].
  rewrite Hv in H. apply occurs_suffix in H.
  rewrite Hw in H. apply occurs_prefix in H. exact H.
Qed.

Lemma trimStart_idempotent (s : jsstring) : trimStart (trimStart s) = trimStart s.
Proof.
  induction s as [|c s IH]; [reflexivity|].
  simpl. destruct (isWhiteSpace c) eqn:E; [exact IH|].
  simpl. rewrite E. reflexivity.
Qed.

Lemma trimStart_snoc (c : N) (l : jsstring) :
  isWhiteSpace c = false -> exists v, trimStart (l ++ [c]) = v ++ [c].
Proof.
  intros Hc. induction l as [|a l [v IH]]; simpl.
  - rewrite Hc. exists []. reflexivity.
  - destruct (isWhiteSpace a).
    + exists v. exact IH.
    + exists (a :: l). reflexivity.
Qed.

Lemma trimStart_trimEnd (u : jsstring) :
  trimStart u = u -> trimStart (trimEnd u) = trimEnd u.
Proof.
  destruct u as [|c u]; intros H; [reflexivity|].
  simpl in H. destruct (isWhiteSpace c) eqn:Ec.
  - exfalso. pose proof (trimStart_length u) as Hlen.
    rewrite H in Hlen. simpl in Hlen. lia.
  - unfold trimEnd. simpl rev.
    destruct (@trimStart_snoc c (rev u) Ec) as [v Hv]. rewrite Hv.
    rewrite rev_app_distr. simpl. rewrite Ec. reflexivity.
Qed.

Lemma trim_idempotent (s : jsstring) : trim (trim s) = trim s.
Proof.
  unfold trim.
  rewrite (@trimStart_trimEnd (trimStart s) (trimStart_idempotent s)).
  unfold trimEnd. rewrite rev_involutive, trimStart_idempotent. reflexivity.
Qed.

(** C8, as the code has it. The normalization pass is idempotent on
    every text in which no newline is preceded by two or more spaces:
    there, a second application changes nothing. *)
Theorem normalize_idempotent :
  forall s : jsstring,
    occurs (lit "  " ++ [10%N]) s = false ->
    normalize (normalize s) = normalize s.
Proof.
  intros s H. change (lit "  " ++ [10%N]) with [32%N; 32%N; 10%N] in H.
  apply stripSpaceNewline_clean in H.
  destruct (@collapseNewlines_clean _ H) as [Hsp Hnl].
  unfold normalize at 2 3.
  set (r := trim (collapseNewlines (stripSpaceNewline s))).
  assert (Hsp' : occurs [32%N; 10%N] r = false) by (apply trim_clean; exact Hsp).
  assert (Hnl' : occurs [10%N; 10%N; 10%N] r = false)
    by (apply trim_clean; exact Hnl).
  unfold normalize.
  rewrite (@stripSpaceNewline_fixed r Hsp'), (@collapseNewlines_fixed r Hnl').
  apply trim_idempotent.
Qed.

Lemma normalize_idempotent_witness :
  normalize (normalize (lit "G " ++ [10%N] ++ lit "Go tell it "
                          ++ [10%N; 10%N; 10%N; 10%N] ++ lit " page two"
                          ++ [10%N; 10%N]))
  = normalize (lit "G " ++ [10%N] ++ lit "Go tell it "
                 ++ [10%N; 10%N; 10%N; 10%N] ++ lit " page two"
                 ++ [10%N; 10%N]).
Proof.
  apply normalize_idempotent. reflexivity.
Defined.

(** C8, as stated, fails: the pass removes one space before a newline,
    so two spaces before a newline take two applications. *)
Lemma normalize_idempotent_counterexample :
  normalize (lit "a  " ++ [10%N] ++ lit "b") = lit "a " ++ [10%N] ++ lit "b"
  /\ normalize (normalize (lit "a  " ++ [10%N] ++ lit "b"))
     = lit "a" ++ [10%N] ++ lit "b"
  /\ normalize (normalize (lit "a  " ++ [10%N] ++ lit "b"))
     <> normalize (lit "a  " ++ [10%N] ++ lit "b").
Proof.
  split; [vm_compute; reflexivity|].
  split; [vm_compute; reflexivity|].
  vm_compute. discriminate.
Qed.

(* ================================================================== *)
(** * Part III. Further properties of the code                         *)
(* ================================================================== *)

Unset Implicit Arguments.

(** ** Grouping into lines *)

Lemma addToLines_perm (rawLines : list (Q * list PdfTextItem)) (item : PdfTextItem) :
  Permutation (item :: concat (map snd rawLines))
              (concat (map snd (addToLines rawLines item))).
Proof.
  induction rawLines as [|[yKey lineItems] rest IH];
    cbn [addToLines map concat snd app].
  - apply Permutation_refl.
  - destruct (Qltb (Qabs (yKey - transform5 item)) Y_TOLERANCE);
      cbn [map concat snd].
    + rewrite <- app_assoc. cbn [app]. apply Permutation_middle.
    + eapply perm_trans; [apply Permutation_middle|].
      apply Permutation_app_head. exact IH.
Qed.

Lemma groupLoop_perm (allItems : list PdfTextItem) :
  forall rawLines : list (Q * list PdfTextItem),
    Permutation (concat (map snd rawLines) ++ allItems)
                (concat (map snd (fold_left addToLines allItems rawLines))).
Proof.
  induction allItems as [|item rest IH]; intros rawLines; simpl.
  - rewrite app_nil_r. apply Permutation_refl.
  - eapply perm_trans; [|apply IH].
    eapply perm_trans; [apply Permutation_sym, Permutation_middle|].
    change (item :: concat (map snd rawLines) ++ rest)
      with ((item :: concat (map snd rawLines)) ++ rest).
    apply Permutation_app_tail. apply addToLines_perm.
Qed.

Lemma Qabs_self_tolerance (a : Q) : Qabs (a - a) < Y_TOLERANCE.
Proof.
  apply Qabs_Qlt_condition. unfold Y_TOLERANCE. split; lra.
Qed.

(** A bucket as the loop keeps it: not empty, keyed by the y of its first
    item, every item within the tolerance of the key. *)
Lemma addToLines_buckets (rawLines : list (Q * list PdfTextItem)) (item : PdfTextItem) :
  Forall (fun entry => wellFormedBucket (fst entry) (snd entry)) rawLines ->
  Forall (fun entry => wellFormedBucket (fst entry) (snd entry))
         (addToLines rawLines item).
Proof.
  induction rawLines as [|[yKey lineItems] rest IH]; intros H;
    cbn [addToLines].
  - constructor; [|constructor]. cbn [fst snd].
    exists item, []. split; [reflexivity|]. split; [reflexivity|].
    constructor; [apply Qabs_self_tolerance | constructor].
  - inversion H as [|? ? Hhead Hrest]; subst.
    destruct (Qltb (Qabs (yKey - transform5 item)) Y_TOLERANCE) eqn:E.
    + constructor; [|exact Hrest]. cbn [fst snd] in *.
      destruct Hhead as (first & others & Heq & Hkey & Hall). subst lineItems.
      exists first, (others ++ [item]). split; [reflexivity|].
      split; [exact Hkey|].
      change (first :: others ++ [item]) with ((first :: others) ++ [item]).
      apply Forall_app. split; [exact Hall|].
      constructor; [apply Qltb_lt; exact E | constructor].
    + constructor; [exact Hhead | apply IH; exact Hrest].
Qed.

Lemma addToLines_keys (rawLines : list (Q * list PdfTextItem)) (item : PdfTextItem) :
  map fst (addToLines rawLines item) = map fst rawLines
  \/ (map fst (addToLines rawLines item) = map fst rawLines ++ [transform5 item]
      /\ Forall (fun yKey => Y_TOLERANCE <= Qabs (yKey - transform5 item))
                (map fst rawLines)).
Proof.
  induction rawLines as [|[yKey lineItems] rest IH];
    cbn [addToLines map fst app].
  - right. split; [reflexivity | constructor].
  - destruct (Qltb (Qabs (yKey - transform5 item)) Y_TOLERANCE) eqn:E;
      cbn [map fst app].
    + left. reflexivity.
    + destruct IH as [IH | [IH Hfar]].
      * left. rewrite IH. reflexivity.
      * right. rewrite IH. split; [reflexivity|].
        constructor; [apply Qltb_ge; exact E | exact Hfar].
Qed.

Lemma ForallOrdPairs_snoc {A} (R : A -> A -> Prop) (l : list A) (a : A) :
  ForallOrdPairs R l -> Forall (fun z => R z a) l -> ForallOrdPairs R (l ++ [a]).
Proof.
  induction l as [|b l IH]; intros Hl Ha; simpl.
  - constructor; constructor.
  - inversion Hl; subst. inversion Ha; subst.
    constructor; [|apply IH; assumption].
    apply Forall_app. split; [assumption | constructor; [assumption | constructor]].
Qed.

Lemma groupLoop_invariants (allItems : list PdfTextItem) :
  forall rawLines : list (Q * list PdfTextItem),
    Forall (fun entry => wellFormedBucket (fst entry) (snd entry)) rawLines ->
    ForallOrdPairs separatedKeys (map fst rawLines) ->
    Forall (fun entry => wellFormedBucket (fst entry) (snd entry))
           (fold_left addToLines allItems rawLines)
    /\ ForallOrdPairs separatedKeys
                      (map fst (fold_left addToLines allItems rawLines)).
Proof.
  induction allItems as [|item rest IH]; intros rawLines Hb Hk; simpl.
  - auto.
  - apply IH.
    + apply addToLines_buckets. exact Hb.
    + destruct (addToLines_keys rawLines item) as [H | [H Hfar]]; rewrite H.
      * exact Hk.
      * apply ForallOrdPairs_snoc; [exact Hk | exact Hfar].
Qed.

(** X1. The line grouper puts every token into exactly one bucket; a
    bucket is never empty, its key is the y of the first token it
    received, and every token in it lies within the tolerance of 5 of
    that key. *)
Theorem groupLines_partition :
  forall allItems : list PdfTextItem,
    Permutation allItems (concat (map snd (groupLines allItems)))
    /\ Forall (fun entry =>
                 exists first others,
                   snd entry = first :: others
                   /\ fst entry = transform5 first
                   /\ Forall (fun item => Qabs (fst entry - transform5 item) < 5)
                             (snd entry))
              (groupLines allItems).
Proof.
  intros allItems. split.
  - exact (groupLoop_perm allItems []).
  - exact (proj1 (groupLoop_invariants allItems [] (Forall_nil _)
                    (FOP_nil _))).
Qed.


(** ** The classified lines of a page *)

Lemma insertSorted_sorted {A} (precedes : A -> A -> bool) (R : A -> A -> Prop)
  (a : A) (l : list A) :
  (forall u v, precedes u v = true -> R u v) ->
  (forall u v, precedes u v = false -> R v u) ->
  (forall u v w, R u v -> R v w -> R u w) ->
  StronglySorted R l -> StronglySorted R (insertSorted precedes a l).
Proof.
  intros Htrue Hfalse Htrans.
  induction l as [|b l IH]; intros Hs; cbn [insertSorted].
  - constructor; constructor.
  - inversion Hs as [|? ? Hl Hb]; subst.
    destruct (precedes b a) eqn:E.
    + constructor; [apply IH; exact Hl|].
      eapply Permutation_Forall; [apply insertSorted_perm|].
      constructor; [apply Htrue; exact E | exact Hb].
    + constructor; [exact Hs|].
      constructor; [apply Hfalse; exact E|].
      eapply Forall_impl; [|exact Hb].
      intros z Hz. eapply Htrans; [apply Hfalse; exact E | exact Hz].
Qed.

Lemma stableSort_sorted {A} (precedes : A -> A -> bool) (R : A -> A -> Prop)
  (l : list A) :
  (forall u v, precedes u v = true -> R u v) ->
  (forall u v, precedes u v = false -> R v u) ->
  (forall u v w, R u v -> R v w -> R u w) ->
  StronglySorted R (stableSort precedes l).
Proof.
  intros Htrue Hfalse Htrans. induction l as [|a l IH]; cbn [stableSort].
  - constructor.
  - apply insertSorted_sorted; assumption.
Qed.

Lemma StronglySorted_map {A B} (f : A -> B) (R : B -> B -> Prop) (l : list A) :
  StronglySorted (fun u v => R (f u) (f v)) l -> StronglySorted R (map f l).
Proof.
  induction 1 as [|a l Hl IH Ha]; cbn [map]; constructor.
  - exact IH.
  - apply Forall_map. exact Ha.
Qed.

Lemma concat_map_perm_pointwise {A B} (f g : A -> list B) (l : list A) :
  (forall a, Permutation (f a) (g a)) ->
  Permutation (concat (map f l)) (concat (map g l)).
Proof.
  intros H. induction l as [|a l IH]; cbn [map concat].
  - apply perm_nil.
  - apply Permutation_app; [apply H | exact IH].
Qed.

Lemma concat_map_perm {A B} (f : A -> list B) (l l' : list A) :
  Permutation l l' -> Permutation (concat (map f l)) (concat (map f l')).
Proof.
  induction 1 as [|a l l' Hp IH|a b l|l l' l'' H1 IH1 H2 IH2]; cbn [map concat].
  - apply perm_nil.
  - apply Permutation_app_head. exact IH.
  - rewrite !app_assoc. apply Permutation_app_tail. apply Permutation_app_comm.
  - eapply perm_trans; eassumption.
Qed.

Lemma classifyLines_items (allItems : list PdfTextItem) :
  concat (map items (classifyLines allItems))
  = concat (map (fun entry => sortByX (snd entry))
                (stableSort byYDescending (groupLines allItems))).
Proof.
  unfold classifyLines. rewrite map_map. reflexivity.
Qed.

(** X3. The lines built from the tokens of a page come in descending
    order of y; the tokens of each line are in ascending order of x and
    its type is what [classifyLine] says of them; together the lines
    hold every token of the page exactly once. *)
Theorem classifyLines_ordered :
  forall allItems : list PdfTextItem,
    StronglySorted (fun upper lower => y lower <= y upper)
                   (classifyLines allItems)
    /\ Forall (fun line =>
                 StronglySorted (fun a b => transform4 a <= transform4 b)
                                (items line)
                 /\ type line = classifyLine (items line))
              (classifyLines allItems)
    /\ Permutation allItems (concat (map items (classifyLines allItems))).
Proof.
  intros allItems. split; [|split].
  - unfold classifyLines. apply StronglySorted_map. cbn [y].
    apply (stableSort_sorted byYDescending
             (fun u v : Q * list PdfTextItem => fst v <= fst u)).
    + intros u v H. apply Qltb_lt in H. apply Qlt_le_weak. exact H.
    + intros u v H. apply Qltb_ge in H. exact H.
    + intros u v w Huv Hvw. eapply Qle_trans; eassumption.
  - apply Forall_forall. intros line Hin.
    split; [|apply (@classifyLines_typed allItems); exact Hin].
    unfold classifyLines in Hin. apply in_map_iff in Hin.
    destruct Hin as [entry [Heq _]]. subst line. cbn [items].
    apply sortByX_sorted.
  - rewrite classifyLines_items.
    eapply perm_trans; [apply (groupLoop_perm allItems [])|].
    eapply perm_trans;
      [apply (concat_map_perm snd); apply (stableSort_perm byYDescending)|].
    apply concat_map_perm_pointwise. intros entry.
    apply (stableSort_perm byX).
Qed.

(** ** The tokens returned by the merger *)

Lemma StronglySorted_snoc {A} (R : A -> A -> Prop) (l : list A) (a : A) :
  StronglySorted R l -> Forall (fun z => R z a) l -> StronglySorted R (l ++ [a]).
Proof.
  induction 1 as [|b l Hl IH Hb]; intros Ha; cbn [app].
  - constructor; constructor.
  - inversion Ha; subst. constructor; [apply IH; assumption|].
    apply Forall_app. split; [exact Hb | constructor; [assumption | constructor]].
Qed.

Lemma mergeStep_unfold (merged : list PdfTextItem) (cur nxt : PdfTextItem) :
  mergeStep (merged, cur) nxt
  = if Qle_bool (-2) (gapBetween cur nxt)
       && Qltb (gapBetween cur nxt) (MERGE_THRESHOLD cur)
    then (merged, mergeInto cur nxt)
    else (merged ++ [cur], nxt).
Proof. reflexivity. Qed.

Lemma mergeLoop_tokens (rest : list PdfTextItem) :
  forall (merged : list PdfTextItem) (cur : PdfTextItem),
    StronglySorted leX merged ->
    Forall (fun z => leX z cur) merged ->
    Forall (leX cur) rest ->
    StronglySorted leX rest ->
    let st := fold_left mergeStep rest (merged, cur) in
    StronglySorted leX (fst st ++ [snd st])
    /\ (length (fst st) + 1 <= length merged + 1 + length rest)%nat
    /\ (Forall (fun z => 0 <= width z) merged -> 0 <= width cur ->
        Forall (fun z => 0 <= width z) rest ->
        Forall (fun z => 0 <= width z) (fst st ++ [snd st])).
Proof.
  induction rest as [|nxt rest IH];
    intros merged cur Hm Hmc Hcr Hr; cbn [fold_left]; cbv zeta.
  - cbn [fst snd length]. split; [apply StronglySorted_snoc; assumption|].
    split; [lia|]. intros Hwm Hwc _. apply Forall_app. auto.
  - inversion Hcr as [|? ? Hcn Hcr']; subst.
    inversion Hr as [|? ? Hr' Hnr]; subst.
    rewrite mergeStep_unfold.
    destruct (Qle_bool (-2) (gapBetween cur nxt)
              && Qltb (gapBetween cur nxt) (MERGE_THRESHOLD cur)).
    + pose proof (IH merged (mergeInto cur nxt) Hm Hmc Hcr' Hr') as H.
      cbv zeta in H. destruct H as (Hs & Hl & Hw).
      split; [exact Hs|]. split; [cbn [length]; lia|].
      intros Hwm Hwc Hwr. inversion Hwr; subst.
      apply Hw; [assumption | | assumption].
      unfold leX in Hcn. cbn [mergeInto width]. lra.
    + assert (Hs' : StronglySorted leX (merged ++ [cur]))
        by (apply StronglySorted_snoc; assumption).
      assert (Hmn : Forall (fun z => leX z nxt) (merged ++ [cur])).
      { apply Forall_app. split.
        - eapply Forall_impl; [|exact Hmc].
          intros z Hz. unfold leX in *. eapply Qle_trans; eassumption.
        - constructor; [exact Hcn | constructor]. }
      pose proof (IH (merged ++ [cur]) nxt Hs' Hmn Hnr Hr') as H.
      cbv zeta in H. destruct H as (Hs & Hl & Hw).
      split; [exact Hs|].
      split; [rewrite length_app in Hl; cbn [length] in *; lia|].
      intros Hwm Hwc Hwr. inversion Hwr; subst.
      apply Hw; [|assumption|assumption].
      apply Forall_app. auto.
Qed.

Lemma mergeAdjacentTextItems_tokens (items : list PdfTextItem) :
  StronglySorted leX (mergeAdjacentTextItems items)
  /\ (length (mergeAdjacentTextItems items) <= length items)%nat
  /\ (Forall (fun z => 0 <= width z) items ->
      Forall (fun z => 0 <= width z) (mergeAdjacentTextItems items)).
Proof.
  unfold mergeAdjacentTextItems.
  destruct (length items <? 2) eqn:E.
  - split; [|split; [lia | auto]].
    destruct items as [|a [|b l]]; [constructor | | discriminate].
    constructor; constructor.
  - pose proof (sortByX_sorted items) as Hsorted.
    pose proof (stableSort_perm byX items) as Hperm. fold sortByX in Hperm.
    destruct (sortByX items) as [|first rest] eqn:Es.
    + split; [constructor|]. split; [cbn [length]; lia | constructor].
    + inversion Hsorted as [|? ? Hrest Hfirst]; subst.
      pose proof (mergeLoop_tokens rest [] first (SSorted_nil _) (Forall_nil _)
                    Hfirst Hrest) as H.
      cbv zeta in H.
      destruct (fold_left mergeStep rest ([], first)) as [merged cur].
      cbn [fst snd] in H. destruct H as (Hs & Hl & Hw).
      split; [exact Hs|].
      apply Permutation_length in Hperm. cbn [length] in *.
      split; [rewrite length_app; cbn [length]; lia|].
      intros Hwidths.
      assert (Hall : Forall (fun z => 0 <= width z) (first :: rest)).
      { rewrite <- Es. eapply Permutation_Forall; [|exact Hwidths].
        apply (stableSort_perm byX). }
      inversion Hall; subst. apply Hw; [constructor | assumption | assumption].
Qed.

(** X4. The tokens returned by the merger are in ascending order of x;
    there are at most as many tokens as fragments, and none only when
    there is no fragment. *)
Theorem mergeAdjacentTextItems_sorted :
  forall items : list PdfTextItem,
    StronglySorted (fun a b => transform4 a <= transform4 b)
                   (mergeAdjacentTextItems items)
    /\ (length (mergeAdjacentTextItems items) <= length items)%nat
    /\ (mergeAdjacentTextItems items = [] <-> items = []).
Proof.
  intros items.
  destruct (mergeAdjacentTextItems_tokens items) as (Hs & Hl & _).
  split; [exact Hs|]. split; [exact Hl|]. split.
  - intros Hnil. unfold mergeAdjacentTextItems in Hnil.
    destruct (length items <? 2); [exact Hnil|].
    pose proof (stableSort_perm byX items) as Hperm. fold sortByX in Hperm.
    destruct (sortByX items) as [|first rest].
    + apply Permutation_sym, Permutation_nil in Hperm. exact Hperm.
    + destruct (fold_left mergeStep rest ([], first)) as [merged cur].
      destruct merged; discriminate.
  - intros ->. reflexivity.
Qed.

(** X5. When no fragment has a negative width, no token returned by the
    merger has one: the width given to a merged token reaches from the x
    of its first fragment to the end of its last. *)
Theorem mergeAdjacentTextItems_widths :
  forall items : list PdfTextItem,
    Forall (fun item => 0 <= width item) items ->
    Forall (fun token => 0 <= width token) (mergeAdjacentTextItems items).
Proof.
  intros items. exact (proj2 (proj2 (mergeAdjacentTextItems_tokens items))).
Qed.

Lemma mergeAdjacentTextItems_widths_witness :
  Forall (fun token => 0 <= width token)
         (mergeAdjacentTextItems
            [textItem "G" 40 100 8; textItem "F" 0 100 8; textItem "7" 8 100 6]).
Proof.
  apply mergeAdjacentTextItems_widths.
  repeat constructor; vm_compute; discriminate.
Defined.

(** ** The position found by the cursor loop *)

Lemma advanceCursor_throw_below (m : list Q) (chord : ChordAt) (cursor : nat)
  (e : JsError) :
  advanceCursor m chord cursor = Throw e ->
  forall j v, (cursor <= j)%nat -> nth_error m j = Some v -> v < x chord.
Proof.
  funelim (advanceCursor m chord cursor); intros Hthrow; try discriminate;
    repeat match goal with
           | Hsig : sigmaI _ _ _ = sigmaI _ _ _ |- _ => clear Hsig
           end.
  - intros j w Hj Hw.
    match goal with
    | Hend : (S _ =? _) = true |- _ => apply Nat.eqb_eq in Hend
    end.
    assert (j = cursor).
    { assert (j < length m)%nat by (apply nth_error_Some; congruence). lia. }
    subst j.
    match goal with
    | Hv : nth_error _ cursor = Some ?v, Hlt : Qltb ?v _ = true |- _ =>
        apply Qltb_lt in Hlt; rewrite Hw in Hv; inversion Hv; subst; exact Hlt
    end.
  - intros j w Hj Hw.
    destruct (Nat.eq_dec j cursor) as [->|Hne].
    + match goal with
      | Hv : nth_error _ cursor = Some ?v, Hlt : Qltb ?v _ = true |- _ =>
          apply Qltb_lt in Hlt; rewrite Hw in Hv; inversion Hv; subst; exact Hlt
      end.
    + match goal with
      | IH : forall e' : JsError, advanceCursor _ _ (S _) = Throw e' -> _ |- _ =>
          apply (IH _ Hthrow j w); [lia | exact Hw]
      end.
Qed.

Lemma advanceCursor_past_end (m : list Q) (chord : ChordAt) (cursor : nat) :
  (length m <= cursor)%nat -> advanceCursor m chord cursor = Ok cursor.
Proof.
  funelim (advanceCursor m chord cursor); intros Hge; try reflexivity;
    exfalso;
    match goal with
    | Hv : nth_error _ _ = Some _ |- _ =>
        assert (cursor < length m)%nat by (apply nth_error_Some; congruence)
    end; lia.
Qed.

(** X6. From a cursor inside [indexToXMap], the cursor loop either stops
    at the first index, at or after the cursor, whose entry is not below
    the chord's x (every entry it passed is below it, and the index is
    inside the map), or throws the placement error, which it does
    exactly when every entry from the cursor on is below the chord's x.
    From a cursor at or past the end it returns the cursor unchanged. *)
Theorem advanceCursor_first_position :
  forall (m : list Q) (chord : ChordAt) (cursor : nat),
    ((length m <= cursor)%nat -> advanceCursor m chord cursor = Ok cursor)
    /\ ((cursor < length m)%nat ->
        (exists position,
            advanceCursor m chord cursor = Ok position
            /\ (cursor <= position < length m)%nat
            /\ (forall j v, (cursor <= j < position)%nat ->
                            nth_error m j = Some v -> v < x chord)
            /\ (exists v, nth_error m position = Some v /\ x chord <= v))
        \/ (advanceCursor m chord cursor
            = Throw (Error (placementMessage (text chord)))
            /\ forall j v, (cursor <= j)%nat ->
                           nth_error m j = Some v -> v < x chord)).
Proof.
  intros m chord cursor. split; [apply advanceCursor_past_end|].
  intros Hlt.
  destruct (advanceCursor m chord cursor) as [position|e] eqn:E.
  - left. exists position.
    destruct (@advanceCursor_ok m chord cursor position E) as (Hle & Hbelow & Hat).
    pose proof (@advanceCursor_in_range m chord cursor position Hlt E) as Hin.
    split; [reflexivity|]. split; [lia|]. split; [exact Hbelow|].
    destruct (nth_error m position) as [v|] eqn:Ev.
    + exists v. split; [reflexivity | apply Hat; reflexivity].
    + apply nth_error_None in Ev. lia.
  - right. pose proof (@advanceCursor_throw m chord cursor e E) as He. subst e.
    split; [reflexivity|].
    exact (advanceCursor_throw_below m chord cursor _ E).
Qed.

Lemma advanceCursor_first_position_witness :
  exists position,
    advanceCursor [0; 10; 20; 30; 40] {| text := lit "G"; x := 15 |} 1
    = Ok position
    /\ (1 <= position < 5)%nat.
Proof.
  destruct (proj2 (advanceCursor_first_position
                     [0; 10; 20; 30; 40] {| text := lit "G"; x := 15 |} 1%nat))
    as [(position & Hok & Hrange & _) | [Hthrow _]].
  - cbn [length]. lia.
  - exists position. split; [exact Hok | exact Hrange].
  - vm_compute in Hthrow. discriminate.
Defined.

(** ** The map from lyric characters to x *)

Lemma StronglySorted_app_Qle (l1 l2 : list Q) (bound : Q) :
  StronglySorted Qle l1 -> StronglySorted Qle l2 ->
  Forall (fun v => v <= bound) l1 -> Forall (fun v => bound <= v) l2 ->
  StronglySorted Qle (l1 ++ l2).
Proof.
  intros H1 H2 Hb1 Hb2. induction H1 as [|a l1 Hl1 IH Ha]; cbn [app].
  - exact H2.
  - inversion Hb1; subst. constructor; [apply IH; assumption|].
    apply Forall_app. split; [exact Ha|].
    eapply Forall_impl; [|exact Hb2].
    intros v Hv. eapply Qle_trans; eassumption.
Qed.

Lemma ofNat_le (a b : nat) : (a <= b)%nat -> ofNat a <= ofNat b.
Proof.
  intros H. unfold ofNat. rewrite <- Zle_Qle. lia.
Qed.

Lemma charXs_sorted (itemStartX avg : Q) (n : nat) :
  0 <= avg ->
  forall start : nat,
    StronglySorted Qle
      (map (fun c => itemStartX + ofNat c * avg) (seq start n)).
Proof.
  intros Havg. induction n as [|n IH]; intros start; cbn [seq map].
  - constructor.
  - constructor; [apply IH|].
    apply Forall_map. apply Forall_forall. intros c Hc.
    apply in_seq in Hc.
    assert (Hle : ofNat start <= ofNat c) by (apply ofNat_le; lia).
    nra.
Qed.

Lemma charXs_bounds (item : PdfTextItem) :
  0 <= width item ->
  Forall (fun v => transform4 item <= v /\ v <= transform4 item + width item)
         (map (fun c => transform4 item
                        + ofNat c * (width item / lengthOr1 (str item)))
              (seq 0 (length (str item)))).
Proof.
  intros Hw. apply Forall_map. apply Forall_forall. intros c Hc.
  apply in_seq in Hc. cbn [Nat.add] in Hc.
  pose proof (lengthOr1_pos (str item)) as Hpos.
  assert (Havg : (width item / lengthOr1 (str item)) * lengthOr1 (str item)
                 == width item) by (field; lra).
  assert (Hc0 : 0 <= ofNat c) by (apply (ofNat_le 0 c); lia).
  assert (Hcn : ofNat c <= lengthOr1 (str item)).
  { unfold lengthOr1. destruct (length (str item)) as [|n] eqn:En; [lia|].
    cbn [Nat.eqb]. apply ofNat_le. lia. }
  assert (Hge : 0 <= width item / lengthOr1 (str item)).
  { unfold Qdiv. apply Qmult_le_0_compat; [exact Hw|].
    apply Qinv_le_0_compat. apply Qlt_le_weak. exact Hpos. }
  split; nra.
Qed.

Lemma lyricStep_sorted (st : LyricState) (item : PdfTextItem) :
  StronglySorted Qle (indexToXMap st) ->
  (forall e, lastItemEndX st = Some e ->
             Forall (fun v => v <= e) (indexToXMap st) /\ e <= transform4 item) ->
  (lastItemEndX st = None -> indexToXMap st = []) ->
  0 <= width item ->
  StronglySorted Qle (indexToXMap (lyricStep st item))
  /\ Forall (fun v => v <= transform4 item + width item)
            (indexToXMap (lyricStep st item))
  /\ lastItemEndX (lyricStep st item) = Some (transform4 item + width item).
Proof.
  intros Hsorted Hsome Hnone Hw.
  pose proof (lengthOr1_pos (str item)) as Hpos.
  assert (Hge : 0 <= width item / lengthOr1 (str item)).
  { unfold Qdiv. apply Qmult_le_0_compat; [exact Hw|].
    apply Qinv_le_0_compat. apply Qlt_le_weak. exact Hpos. }
  pose proof (charXs_bounds item Hw) as Hchars.
  pose proof (charXs_sorted (transform4 item) _ (length (str item)) Hge 0%nat)
    as Hcs.
  unfold lyricStep. cbn [indexToXMap lastItemEndX].
  set (chars := map (fun c => transform4 item
                               + ofNat c * (width item / lengthOr1 (str item)))
                    (seq 0 (length (str item)))) in *.
  assert (Hprefix : forall prefix,
             StronglySorted Qle prefix ->
             Forall (fun v => v <= transform4 item) prefix ->
             StronglySorted Qle (prefix ++ chars)
             /\ Forall (fun v => v <= transform4 item + width item)
                       (prefix ++ chars)).
  { intros prefix Hp Hb. split.
    - apply (StronglySorted_app_Qle prefix chars (transform4 item));
        [exact Hp | exact Hcs | exact Hb|].
      eapply Forall_impl; [|exact Hchars]. intros v [Hv _]. exact Hv.
    - apply Forall_app. split.
      + eapply Forall_impl; [|exact Hb]. intros v Hv. cbv beta in *. lra.
      + eapply Forall_impl; [|exact Hchars]. intros v [_ Hv]. exact Hv. }
  destruct (lastItemEndX st) as [lastEnd|] eqn:El.
  - destruct (Hsome lastEnd eq_refl) as [Hold Hstart].
    assert (Holdx : Forall (fun v => v <= transform4 item) (indexToXMap st)).
    { eapply Forall_impl; [|exact Hold]. intros v Hv. cbv beta in *. lra. }
    destruct (Qltb _ _); cbn [fst snd].
    + destruct (Hprefix (indexToXMap st
                           ++ [lastEnd + (transform4 item - lastEnd) / 2]))
        as [H1 H2].
      * apply (StronglySorted_app_Qle _ _ lastEnd);
          [exact Hsorted | constructor; constructor | exact Hold|].
        constructor; [|constructor].
        assert ((transform4 item - lastEnd) / 2
                == (transform4 item - lastEnd) * (1 # 2)) by (field).
        lra.
      * apply Forall_app. split; [exact Holdx|].
        constructor; [|constructor].
        assert ((transform4 item - lastEnd) / 2
                == (transform4 item - lastEnd) * (1 # 2)) by (field).
        lra.
      * auto.
    + destruct (Hprefix (indexToXMap st) Hsorted Holdx) as [H1 H2]. auto.
  - cbn [fst snd]. rewrite (Hnone eq_refl).
    destruct (Hprefix [] (SSorted_nil _) (Forall_nil _)) as [H1 H2]. auto.
Qed.

Lemma lyricLoop_sorted (lyricItems : list PdfTextItem) :
  forall st : LyricState,
    StronglySorted Qle (indexToXMap st) ->
    (forall e, lastItemEndX st = Some e ->
               Forall (fun v => v <= e) (indexToXMap st)
               /\ match lyricItems with
                  | item :: _ => e <= transform4 item
                  | [] => True
                  end) ->
    (lastItemEndX st = None -> indexToXMap st = []) ->
    Forall (fun item => 0 <= width item) lyricItems ->
    leftToRight lyricItems ->
    StronglySorted Qle (indexToXMap (fold_left lyricStep lyricItems st)).
Proof.
  induction lyricItems as [|item rest IH];
    intros st Hsorted Hsome Hnone Hw Hlr; cbn [fold_left].
  - exact Hsorted.
  - inversion Hw as [|? ? Hwi Hwr]; subst.
    cbn [leftToRight] in Hlr. destruct Hlr as [Hnext Hlr].
    destruct (lyricStep_sorted st item Hsorted) as (H1 & H2 & H3);
      [intros e He; destruct (Hsome e He); auto | exact Hnone | exact Hwi|].
    apply IH; [exact H1 | | | exact Hwr | exact Hlr].
    + intros e He. rewrite H3 in He. inversion He; subst.
      split; [exact H2|]. destruct rest; [exact I | exact Hnext].
    + intros He. rewrite H3 in He. discriminate.
Qed.

(** X7. When the items of a lyric line have non-negative widths and
    each starts at or after the end of the one before, the x-coordinates
    in [indexToXMap] never decrease from one character to the next: the
    first entry not below a chord's x, which the cursor loop looks for,
    is then the leftmost character at or right of the chord. *)
Theorem indexToXMap_sorted :
  forall lyricItems : list PdfTextItem,
    Forall (fun item => 0 <= width item) lyricItems ->
    leftToRight lyricItems ->
    StronglySorted Qle (indexToXMap (buildLyric lyricItems)).
Proof.
  intros lyricItems Hw Hlr. unfold buildLyric.
  apply lyricLoop_sorted; [constructor | | reflexivity | exact Hw | exact Hlr].
  intros e He. discriminate.
Qed.

Lemma indexToXMap_sorted_witness :
  StronglySorted Qle
    (indexToXMap (buildLyric [textItem "Go" 0 90 20; textItem "tell" 30 90 40])).
Proof.
  apply indexToXMap_sorted.
  - repeat constructor; vm_compute; discriminate.
  - cbn [leftToRight]. repeat split. vm_compute. discriminate.
Defined.

(** ** Documents without couplets *)

Lemma firstn_succ_nth {A} (l : list A) (k : nat) (a : A) :
  nth_error l k = Some a -> firstn (S k) l = firstn k l ++ [a].
Proof.
  revert k. induction l as [|b l IH]; intros k H.
  - destruct k; discriminate.
  - destruct k as [|k]; cbn [nth_error] in H.
    + inversion H; subst. reflexivity.
    + cbn [firstn app]. f_equal. apply IH. exact H.
Qed.

Lemma pageLoop_singles (lines : list ClassifiedLine) :
  (forall i, pairAt lines i = false) ->
  forall k, (k <= length lines)%nat ->
    exists p,
      foldM (lineStep appendPair appendSingle lines) (seq 0 k) ([], [])
      = Ok (p, singleLinesText (firstn k lines)).
Proof.
  intros Hno. induction k as [|k IH]; intros Hk.
  - exists []. reflexivity.
  - destruct IH as [p Hrun]; [lia|].
    destruct (nth_error lines k) as [cur|] eqn:Ecur.
    2: { apply nth_error_None in Ecur. lia. }
    pose proof (@lineStep_decision jsstring appendPair appendSingle lines []
                  k p _ cur Hrun Ecur) as Hstep.
    assert (Hsec : secondOfPair lines k = false)
      by (destruct k; [reflexivity | apply Hno]).
    rewrite Hsec in Hstep.
    assert (Hsingle : lineStep appendPair appendSingle lines
                        (p, singleLinesText (firstn k lines)) k
                      = Ok (k :: p,
                            appendSingle k cur (singleLinesText (firstn k lines)))).
    { rewrite Hstep. pose proof (Hno k) as Hk'. unfold pairAt in Hk'.
      rewrite Ecur in Hk'.
      destruct (nth_error lines (k + 1)) as [nl|]; [|reflexivity].
      rewrite Hk'. reflexivity. }
    exists (k :: p).
    rewrite seq_S, foldM_app, Hrun. cbn [bind foldM Nat.add].
    rewrite Hsingle. cbn [bind].
    rewrite (firstn_succ_nth lines k cur Ecur).
    unfold appendSingle, singleLinesText.
    rewrite map_app, concat_app. cbn [map concat]. rewrite app_nil_r.
    reflexivity.
Qed.

Lemma pageTextOf_singles (lines : list ClassifiedLine) :
  (forall i, pairAt lines i = false) ->
  pageTextOf lines = Ok (singleLinesText lines).
Proof.
  intros Hno.
  destruct (pageLoop_singles lines Hno (length lines) (le_n _)) as [p Hrun].
  unfold pageTextOf, pageLoop.
  match goal with
  | |- bind ?r _ = _ =>
      assert (Hr : r = Ok (p, singleLinesText (firstn (length lines) lines)))
        by exact Hrun;
      rewrite Hr
  end.
  cbn [bind snd]. rewrite firstn_all. reflexivity.
Qed.

Lemma mergeAdjacentTextItems_nil (items : list PdfTextItem) :
  mergeAdjacentTextItems items = [] -> items = [].
Proof.
  intros Hnil. unfold mergeAdjacentTextItems in Hnil.
  destruct (length items <? 2); [exact Hnil|].
  pose proof (stableSort_perm byX items) as Hperm. fold sortByX in Hperm.
  destruct (sortByX items) as [|first rest].
  - apply Permutation_sym, Permutation_nil in Hperm. exact Hperm.
  - destruct (fold_left mergeStep rest ([], first)) as [merged cur].
    destruct merged; discriminate.
Qed.

Lemma pageStep_singles (fullText : jsstring) (rawItems : list PdfTextItem) :
  (forall i, pairAt (classifyLines (mergeAdjacentTextItems rawItems)) i = false) ->
  pageStep fullText rawItems = Ok (fullText ++ pageTextSingles rawItems).
Proof.
  intros Hno. unfold pageStep, pageTextSingles.
  destruct rawItems as [|r rawItems]; cbn [length Nat.eqb].
  - rewrite app_nil_r. reflexivity.
  - destruct (mergeAdjacentTextItems (r :: rawItems)) as [|a allItems] eqn:Em.
    + apply mergeAdjacentTextItems_nil in Em. discriminate.
    + cbn [length Nat.eqb]. rewrite (pageTextOf_singles _ Hno). reflexivity.
Qed.

Lemma pagesLoop_singles (pages : list (list PdfTextItem)) :
  noPair pages ->
  forall fullText,
    foldM pageStep pages fullText
    = Ok (fullText ++ concat (map pageTextSingles pages)).
Proof.
  induction pages as [|rawItems pages IH]; intros Hno fullText; cbn [foldM].
  - cbn [map concat]. rewrite app_nil_r. reflexivity.
  - rewrite (pageStep_singles fullText rawItems (Hno rawItems (or_introl eq_refl))).
    cbn [bind]. rewrite IH.
    + cbn [map concat]. rewrite app_assoc. reflexivity.
    + intros raw Hin. apply Hno. right. exact Hin.
Qed.

(** X8. [extractTextFromPdf] returns a text exactly for the documents in
    which no page has a pair (a CHORD line directly followed by a LYRIC
    line less than 30 away): a pair always makes it throw. For such a
    document the text is the normalization of the pages' lines, each
    rendered on its own and followed by a newline, with one more newline
    after each page that has items. *)
Theorem extractTextFromPdf_succeeds_without_pairs :
  forall pages : list (list PdfTextItem),
    ((exists text, extractTextFromPdf pages = Ok text) <-> noPair pages)
    /\ (noPair pages ->
        extractTextFromPdf pages
        = Ok (normalize (concat (map pageTextSingles pages)))).
Proof.
  intros pages.
  assert (Htext : noPair pages ->
                  extractTextFromPdf pages
                  = Ok (normalize (concat (map pageTextSingles pages)))).
  { intros Hno. unfold extractTextFromPdf.
    rewrite (pagesLoop_singles pages Hno []). reflexivity. }
  split; [|exact Htext]. split.
  - intros [text Hok] rawItems Hin i.
    exact (@extractTextFromPdf_ok_no_pair pages text rawItems Hok Hin i).
  - intros Hno. eexists. apply Htext. exact Hno.
Qed.

Lemma extractTextFromPdf_succeeds_without_pairs_witness :
  extractTextFromPdf
    [ [textItem "Intro" 0 100 30; textItem "Go tell it" 0 60 50;
       textItem "on" 60 60 10];
      [textItem "page two" 0 100 40] ]
  = Ok (lit "Intro" ++ [10%N] ++ lit "Go tell it on" ++ [10%N; 10%N]
          ++ lit "page two").
Proof.
  rewrite (proj2 (extractTextFromPdf_succeeds_without_pairs _)).
  - reflexivity.
  - intros rawItems [<- | [<- | []]] i;
      destruct i as [|[|[|i]]]; reflexivity.
Defined.

(** ** The normalized text *)

Lemma trimStart_head (s : jsstring) (c : N) (rest : jsstring) :
  trimStart s = c :: rest -> isWhiteSpace c = false.
Proof.
  induction s as [|a s IH]; cbn [trimStart]; [discriminate|].
  destruct (isWhiteSpace a) eqn:E; [exact IH|].
  intros H. inversion H; subst. exact E.
Qed.

Lemma trimEnd_last (s front : jsstring) (c : N) :
  trimEnd s = front ++ [c] -> isWhiteSpace c = false.
Proof.
  unfold trimEnd. intros H.
  apply (f_equal (@rev N)) in H. rewrite rev_involutive, rev_app_distr in H.
  cbn [rev app] in H. exact (trimStart_head _ _ _ H).
Qed.

Lemma trim_head (s : jsstring) (c : N) (rest : jsstring) :
  trim s = c :: rest -> isWhiteSpace c = false.
Proof.
  unfold trim. intros H.
  pose proof (@trimStart_trimEnd (trimStart s) (trimStart_idempotent s)) as Hfix.
  rewrite H in Hfix. exact (trimStart_head _ _ _ Hfix).
Qed.

(** X9. Whatever the text, its normalization has no run of three
    newlines, does not begin with white space and does not end with
    white space. *)
Theorem normalize_output :
  forall s : jsstring,
    occurs [10%N; 10%N; 10%N] (normalize s) = false
    /\ (forall c rest, normalize s = c :: rest -> isWhiteSpace c = false)
    /\ (forall front c, normalize s = front ++ [c] -> isWhiteSpace c = false).
Proof.
  intros s. unfold normalize. split; [|split].
  - apply trim_clean. rewrite collapseNewlines_run.
    exact (collapseRun_no_triple (stripSpaceNewline s) 0).
  - intros c rest H. exact (trim_head _ _ _ H).
  - intros front c H. unfold trim in H. exact (trimEnd_last _ _ _ H).
Qed.

(** ** Pages without items *)

Lemma pagesLoop_skip_empty (pre post : list (list PdfTextItem)) :
  forall fullText : jsstring,
    foldM pageStep (pre ++ [] :: post) fullText
    = foldM pageStep (pre ++ post) fullText.
Proof.
  induction pre as [|rawItems pre IH]; intros fullText; cbn [app foldM].
  - reflexivity.
  - destruct (pageStep fullText rawItems) as [text|e]; cbn [bind];
      [apply IH | reflexivity].
Qed.

(** X10. A page without items is passed over: removing it from the
    document changes neither the text returned nor the exception thrown,
    and a document of such pages only gives the empty text. *)
Theorem extractTextFromPdf_empty_pages :
  (forall pre post : list (list PdfTextItem),
      extractTextFromPdf (pre ++ [] :: post) = extractTextFromPdf (pre ++ post))
  /\ (forall n : nat, extractTextFromPdf (repeat [] n) = Ok []).
Proof.
  split.
  - intros pre post. unfold extractTextFromPdf.
    rewrite pagesLoop_skip_empty. reflexivity.
  - intros n. unfold extractTextFromPdf.
    assert (H : forall fullText,
               foldM pageStep (repeat [] n) fullText = Ok fullText).
    { induction n as [|n IH]; intros fullText; [reflexivity|].
      cbn [repeat foldM]. apply IH. }
    rewrite H. reflexivity.
Qed.

(** ** The line classifier and the chord grammar *)

Lemma chordRatioOf_none (tokens : list jsstring) :
  filter isChordToken tokens = [] ->
  forall bound : Q, 0 <= bound -> Qltb bound (chordRatioOf tokens) = false.
Proof.
  intros H bound Hb. apply Qltb_ge. unfold chordRatioOf. rewrite H.
  change (ofNat (length (@nil jsstring))) with 0.
  unfold Qdiv. rewrite Qmult_0_l. exact Hb.
Qed.

Lemma filter_all {A} (f : A -> bool) (l : list A) :
  (forall a, In a l -> f a = true) -> filter f l = l.
Proof.
  induction l as [|a l IH]; intros H; cbn [filter]; [reflexivity|].
  rewrite (H a (or_introl eq_refl)). f_equal.
  apply IH. intros b Hb. apply H. right. exact Hb.
Qed.

(** X11. A line without any non-blank text is UNKNOWN; a line that
    [classifyLine] labels CHORD has at least one term accepted by
    [isChordToken]; and a line with some text, all of whose terms are
    accepted by [isChordToken], is CHORD. *)
Theorem classifyLine_chord_lines :
  forall lineItems : list PdfTextItem,
    (lineTokens lineItems = [] -> classifyLine lineItems = UNKNOWN)
    /\ (classifyLine lineItems = CHORD ->
        exists token, In token (lineTokens lineItems)
                      /\ isChordToken token = true)
    /\ (lineTokens lineItems <> [] ->
        (forall token, In token (lineTokens lineItems) ->
                       isChordToken token = true) ->
        classifyLine lineItems = CHORD).
Proof.
  intros lineItems. split; [|split].
  - intros H. unfold classifyLine. rewrite H.
    destruct (length lineItems =? 0); reflexivity.
  - intros H.
    destruct (filter isChordToken (lineTokens lineItems)) as [|t ts] eqn:E.
    + exfalso. unfold classifyLine in H.
      destruct (length lineItems =? 0); [discriminate|].
      destruct (length (lineTokens lineItems) =? 0); [discriminate|].
      rewrite (chordRatioOf_none _ E (7 # 10)) in H by (unfold Qle; cbn; lia).
      rewrite (chordRatioOf_none _ E (2 # 10)) in H by (unfold Qle; cbn; lia).
      destruct (existsb hasLyricLetter (lineTokens lineItems));
        [discriminate|].
      destruct (fullMatch sectionRegex (trim (concat (lineTokens lineItems))));
        discriminate.
    + exists t.
      assert (Hin : In t (filter isChordToken (lineTokens lineItems)))
        by (rewrite E; left; reflexivity).
      apply filter_In in Hin. exact Hin.
  - intros Hne Hall. unfold classifyLine.
    destruct lineItems as [|item lineItems]; [contradiction Hne; reflexivity|].
    cbn [length Nat.eqb].
    destruct (lineTokens (item :: lineItems)) as [|t ts] eqn:Et;
      [contradiction Hne; reflexivity|].
    cbn [length Nat.eqb].
    assert (Hratio : Qltb (7 # 10) (chordRatioOf (t :: ts)) = true).
    { apply Qltb_lt. unfold chordRatioOf. rewrite (filter_all _ _ Hall).
      assert (Hpos : 0 < ofNat (length (t :: ts))).
      { unfold ofNat, Qlt. cbn [length]. cbn. lia. }
      assert (Hone : ofNat (length (t :: ts)) / ofNat (length (t :: ts)) == 1)
        by (field; lra).
      rewrite Hone. reflexivity. }
    rewrite Hratio. reflexivity.
Qed.

Lemma classifyLine_chord_lines_witness :
  classifyLine [textItem "Am" 0 100 16; textItem " " 20 100 4;
                textItem "G7" 40 100 16] = CHORD.
Proof.
  apply (proj2 (proj2 (classifyLine_chord_lines _))).
  - vm_compute. discriminate.
  - intros token Hin. vm_compute in Hin.
    destruct Hin as [<- | [<- | []]]; reflexivity.
Defined.

(** X12. A token accepted by [isChordToken] has, once trimmed, between
    1 and 15 code units and begins with a letter from A to G; the answer
    for a token is the answer for its trimmed form. *)
Theorem isChordToken_shape :
  forall text : jsstring,
    (isChordToken text = true ->
     exists root rest,
       trim text = root :: rest
       /\ (65 <= root <= 71)%N
       /\ (length (trim text) <= 15)%nat)
    /\ isChordToken (trim text) = isChordToken text.
Proof.
  intros text. split.
  - unfold isChordToken.
    destruct (negb (truthy (trim text)) || (15 <? length (trim text))) eqn:E;
      [discriminate|].
    apply orb_false_iff in E. destruct E as [_ Elen].
    apply Nat.ltb_ge in Elen. intros Hm.
    apply fullMatch_spec in Hm.
    change chordRegex
      with (Seq noteRoot
              (seqs [opt accidental; opt quality; Star digit;
                     opt (Seq (word (lit "sus")) digit);
                     opt (seqs [opt (chr 40); Or (chr 98) (chr 35);
                                plus digit; opt (chr 41)]);
                     opt (seqs [chr 47; noteRoot; opt accidental])])) in Hm.
    inversion Hm as [| |r1 r2 s1 s2 H1 H2 Hr Hs| | | |]; subst.
    unfold noteRoot, range in H1. inversion H1 as [|p c Hp| | | | |]; subst.
    exists c, s2. split; [reflexivity|].
    split; [|rewrite Hs; exact Elen].
    unfold inRange in Hp. apply andb_true_iff in Hp.
    destruct Hp as [Hlo Hhi]. apply N.leb_le in Hlo, Hhi. lia.
  - unfold isChordToken. rewrite trim_idempotent. reflexivity.
Qed.

Lemma isChordToken_shape_witness :
  exists root rest,
    trim (lit "  F#m7 ") = root :: rest /\ (65 <= root <= 71)%N.
Proof.
  destruct (proj1 (isChordToken_shape (lit "  F#m7 ")) eq_refl)
    as (root & rest & Htrim & Hroot & _).
  exists root, rest. split; assumption.
Defined.

(** ** The exceptions of the extraction *)

Lemma foldM_throw_inv {A S} (body : S -> A -> result S) (l : list A) :
  forall (st : S) (e : JsError),
    foldM body l st = Throw e ->
    exists s a, In a l /\ body s a = Throw e.
Proof.
  induction l as [|b l IH]; intros st e H; cbn [foldM] in H; [discriminate|].
  destruct (body st b) as [st1|e1] eqn:E; cbn [bind] in H.
  - destruct (IH st1 e H) as (s & a & Hin & Hb).
    exists s, a. split; [right; exact Hin | exact Hb].
  - inversion H; subst. exists st, b. split; [left; reflexivity | exact E].
Qed.

Lemma placeChord_error (m : list Q) (st : nat * jsstring) (chord : ChordAt)
  (e : JsError) :
  placeChord m st chord = Throw e -> extractionError e.
Proof.
  destruct st as [cursor chars]. unfold placeChord.
  destruct (advanceCursor m chord cursor) as [c|e1] eqn:Ea; cbn [bind].
  - unfold writeChord. destruct (text chord) as [|t ts]; cbn; intros H.
    + discriminate.
    + inversion H; subst. left. reflexivity.
  - intros H. inversion H; subst. right. exists (text chord).
    exact (@advanceCursor_throw m chord cursor e Ea).
Qed.

Lemma reconstructCouplet_error (chordItems lyricItems : list PdfTextItem)
  (e : JsError) :
  reconstructCouplet chordItems lyricItems = Throw e -> extractionError e.
Proof.
  unfold reconstructCouplet, placeChords.
  destruct (foldM _ _ _) as [st|e1] eqn:E; cbn [bind]; [discriminate|].
  intros H. inversion H; subst.
  destruct (foldM_throw_inv _ _ _ _ E) as (s & chord & _ & Hb).
  exact (placeChord_error _ _ _ _ Hb).
Qed.

Lemma lineStep_error (lines : list ClassifiedLine) (st : list nat * jsstring)
  (i : nat) (e : JsError) :
  lineStep appendPair appendSingle lines st i = Throw e -> extractionError e.
Proof.
  destruct st as [p out]. unfold lineStep.
  destruct (existsb (Nat.eqb i) p); [discriminate|].
  destruct (nth_error lines i) as [cur|]; [|discriminate].
  destruct (nth_error lines (i + 1)) as [nl|]; [|discriminate].
  destruct (isPair cur nl); [|discriminate].
  unfold appendPair.
  destruct (reconstructCouplet (items cur) (items nl)) as [ls|e1] eqn:E;
    cbn [bind]; [discriminate|].
  intros H. inversion H; subst. exact (reconstructCouplet_error _ _ _ E).
Qed.

Lemma pageStep_error (fullText : jsstring) (rawItems : list PdfTextItem)
  (e : JsError) :
  pageStep fullText rawItems = Throw e -> extractionError e.
Proof.
  unfold pageStep.
  destruct (length rawItems =? 0); [discriminate|].
  destruct (length (mergeAdjacentTextItems rawItems) =? 0); [discriminate|].
  unfold pageTextOf, pageLoop.
  destruct (foldM _ _ _) as [st|e1] eqn:E; cbn [bind]; [discriminate|].
  intros H. inversion H; subst.
  destruct (foldM_throw_inv _ _ _ _ E) as (s & i & _ & Hb).
  exact (lineStep_error _ _ _ _ Hb).
Qed.

Lemma extractTextFromPdf_error (pages : list (list PdfTextItem)) (e : JsError) :
  extractTextFromPdf pages = Throw e -> extractionError e.
Proof.
  unfold extractTextFromPdf.
  destruct (foldM pageStep pages []) as [text|e1] eqn:E; cbn [bind];
    [discriminate|].
  intros H. inversion H; subst.
  destruct (foldM_throw_inv _ _ _ _ E) as (s & rawItems & _ & Hb).
  exact (pageStep_error _ _ _ Hb).
Qed.

Lemma firstPairFrom_some (lines : list ClassifiedLine) (n : nat) :
  forall i j, firstPairFrom lines i n = Some j -> pairAt lines j = true.
Proof.
  induction n as [|n IH]; intros i j H; cbn [firstPairFrom] in H;
    [discriminate|].
  destruct (pairAt lines i) eqn:E.
  - inversion H; subst. exact E.
  - exact (IH _ _ H).
Qed.

Lemma firstPairFrom_none (lines : list ClassifiedLine) (n : nat) :
  forall i, firstPairFrom lines i n = None ->
            forall j, (i <= j < i + n)%nat -> pairAt lines j = false.
Proof.
  induction n as [|n IH]; intros i H j Hj; [lia|].
  cbn [firstPairFrom] in H.
  destruct (pairAt lines i) eqn:E; [discriminate|].
  destruct (Nat.eq_dec j i) as [->|Hne]; [exact E|].
  apply (IH (S i) H). lia.
Qed.

Lemma hasPair_some (pages : list (list PdfTextItem)) (rawItems : list PdfTextItem)
  (i : nat) :
  hasPair pages = Some (rawItems, i) ->
  In rawItems pages
  /\ pairAt (classifyLines (mergeAdjacentTextItems rawItems)) i = true.
Proof.
  induction pages as [|raw pages IH]; cbn [hasPair]; [discriminate|].
  destruct (firstPairFrom _ 0 _) as [j|] eqn:E.
  - intros H. inversion H; subst. split; [left; reflexivity|].
    exact (firstPairFrom_some _ _ _ _ E).
  - intros H. destruct (IH H) as [Hin Hp]. split; [right; exact Hin | exact Hp].
Qed.

Lemma hasPair_none (pages : list (list PdfTextItem)) :
  hasPair pages = None -> noPair pages.
Proof.
  induction pages as [|raw pages IH]; cbn [hasPair]; intros H rawItems Hin i.
  - destruct Hin.
  - destruct (firstPairFrom _ 0 _) as [j|] eqn:E; [discriminate|].
    destruct Hin as [<- | Hin]; [|exact (IH H rawItems Hin i)].
    destruct (pairAt (classifyLines (mergeAdjacentTextItems raw)) i) eqn:Ep;
      [|reflexivity].
    pose proof (@pairAt_in_range _ _ Ep) as Hi.
    rewrite (firstPairFrom_none _ _ 0 E i) in Ep by lia. discriminate.
Qed.

(** X13. [extractTextFromPdf] throws exactly on the documents of which
    some page has a pair, and it can throw two exceptions only: the
    error "Couldn't find placement for ..." quoting some chord text, and
    the ReferenceError of the undeclared [closestCharIndex]. *)
Theorem extractTextFromPdf_exceptions :
  forall pages : list (list PdfTextItem),
    ((exists e, extractTextFromPdf pages = Throw e)
     <-> exists rawItems i,
           In rawItems pages
           /\ pairAt (classifyLines (mergeAdjacentTextItems rawItems)) i = true)
    /\ (forall e, extractTextFromPdf pages = Throw e ->
                  e = ReferenceError (lit "closestCharIndex")
                  \/ exists chordText,
                       e = Error (lit "Couldn't find placement for "
                                    ++ [34%N] ++ chordText ++ [34%N])).
Proof.
  intros pages. split; [|exact (extractTextFromPdf_error pages)].
  split.
  - intros [e He].
    destruct (hasPair pages) as [[rawItems i]|] eqn:Ep.
    + apply hasPair_some in Ep. exists rawItems, i. exact Ep.
    + exfalso. pose proof (hasPair_none pages Ep) as Hno.
      unfold extractTextFromPdf in He.
      rewrite (pagesLoop_singles pages Hno []) in He. discriminate.
  - intros (rawItems & i & Hin & Hp).
    destruct (extractTextFromPdf pages) as [text|e] eqn:E; [|eauto].
    rewrite (@extractTextFromPdf_ok_no_pair pages text rawItems E Hin i) in Hp.
    discriminate.
Qed.

(** ** Importing a file *)

Lemma extractTextFromPdf_singles (pages : list (list PdfTextItem)) :
  noPair pages ->
  extractTextFromPdf pages
  = Ok (normalize (concat (map pageTextSingles pages))).
Proof.
  intros Hno. unfold extractTextFromPdf.
  rewrite (pagesLoop_singles pages Hno []). reflexivity.
Qed.

Lemma extractTextFromPdf_pair_throws (pages : list (list PdfTextItem))
  (rawItems : list PdfTextItem) (i : nat) :
  In rawItems pages ->
  pairAt (classifyLines (mergeAdjacentTextItems rawItems)) i = true ->
  exists e, extractTextFromPdf pages = Throw e /\ extractionError e.
Proof.
  intros Hin Hp.
  destruct (extractTextFromPdf pages) as [text|e] eqn:E.
  - rewrite (@extractTextFromPdf_ok_no_pair pages text rawItems E Hin i) in Hp.
    discriminate.
  - exists e. split; [reflexivity | exact (extractTextFromPdf_error pages e E)].
Qed.

Lemma truthy_trim_normalize (fullText : jsstring) :
  truthy (trim (normalize fullText))
  = match normalize fullText with [] => false | _ :: _ => true end.
Proof.
  unfold normalize. rewrite trim_idempotent.
  destruct (trim _); reflexivity.
Qed.

Section ParseSongFromFileFacts.
Variable referenceErrorMessage : jsstring -> jsstring.
Variable Json : Type.
Variable generateContent : list Part -> result jsstring.
Variable jsonParse : jsstring -> result Json.

Lemma readParts_pdf (file : File) :
  fileType file = lit "application/pdf" ->
  readParts file
  = (text <- extractTextFromPdf (pdfPages file) ;;
     if negb (truthy (trim text)) then Throw (Error noTextMessage)
     else Ok [TextPart (pdfPrompt ++ text)]).
Proof.
  intros Ht. unfold readParts. rewrite Ht. reflexivity.
Qed.

Lemma readParts_error (file : File) (e : JsError) :
  readParts file = Throw e ->
  readFailureReason referenceErrorMessage (messageOf referenceErrorMessage e).
Proof.
  unfold readParts.
  destruct (startsWith (lit "image/") (fileType file)); [discriminate|].
  destruct (jsEqb (fileType file) (lit "application/pdf")).
  - destruct (extractTextFromPdf (pdfPages file)) as [text|e1] eqn:E;
      cbn [bind].
    + destruct (negb (truthy (trim text))); [|discriminate].
      intros H. inversion H; subst. right. left. reflexivity.
    + intros H. inversion H; subst.
      destruct (extractTextFromPdf_error _ _ E) as [-> | [chordText ->]].
      * right. right. left. reflexivity.
      * right. right. right. exists chordText. reflexivity.
  - destruct (startsWith (lit "text/") (fileType file)); [discriminate|].
    intros H. inversion H; subst. left. reflexivity.
Qed.

End ParseSongFromFileFacts.

(** X14. Importing a PDF ([file.type] is "application/pdf"). If some page
    has a pair, [parseSongFromFile] throws "Could not read the file.
    Reason: ..." with the placement error or the ReferenceError of
    [closestCharIndex] as the reason, whatever the service would answer.
    If no page has a pair, the text is the normalized text of the single
    lines: when it is empty the import throws with the reason "Could not
    extract any text from the PDF. ...", otherwise the service receives
    one part, the PDF prompt followed by that text, and the import returns
    the parsed answer or throws the "AI could not process" error. *)
Theorem parseSongFromFile_pdf :
  forall (referenceErrorMessage : jsstring -> jsstring) (Json : Type)
         (generateContent : list Part -> result jsstring)
         (jsonParse : jsstring -> result Json) (file : File),
    fileType file = lit "application/pdf" ->
    ((exists rawItems i,
         In rawItems (pdfPages file)
         /\ pairAt (classifyLines (mergeAdjacentTextItems rawItems)) i = true) ->
     exists reason,
       parseSongFromFile referenceErrorMessage generateContent jsonParse file
       = Throw (Error (lit "Could not read the file. Reason: " ++ reason))
       /\ (reason = referenceErrorMessage (lit "closestCharIndex")
           \/ exists chordText, reason = placementMessage chordText))
    /\ (noPair (pdfPages file) ->
        parseSongFromFile referenceErrorMessage generateContent jsonParse file
        = match normalize (concat (map pageTextSingles (pdfPages file))) with
          | [] => Throw (Error (lit "Could not read the file. Reason: "
                                  ++ noTextMessage))
          | c :: text =>
              match (responseText <- generateContent
                                       [TextPart (pdfPrompt ++ c :: text)] ;;
                     jsonParse (trim responseText)) with
              | Ok song => Ok song
              | Throw _ => Throw (Error aiFailureMessage)
              end
          end).
Proof.
  intros referenceErrorMessage Json generateContent jsonParse file Ht. split.
  - intros (rawItems & i & Hin & Hp).
    destruct (extractTextFromPdf_pair_throws _ _ _ Hin Hp) as (e & He & Hk).
    exists (messageOf referenceErrorMessage e). split.
    + unfold parseSongFromFile, prepareParts.
      rewrite (readParts_pdf file Ht), He. reflexivity.
    + destruct Hk as [-> | [chordText ->]].
      * left. reflexivity.
      * right. exists chordText. reflexivity.
  - intros Hno. unfold parseSongFromFile, prepareParts.
    rewrite (readParts_pdf file Ht), (extractTextFromPdf_singles _ Hno).
    cbn [bind]. rewrite truthy_trim_normalize.
    destruct (normalize _) as [|c text]; reflexivity.
Qed.

Lemma parseSongFromFile_pdf_witness :
  parseSongFromFile (fun name => name ++ lit " is not defined")
    (fun parts => match parts with
                  | [TextPart t] => Ok t
                  | _ => Throw (Error [])
                  end)
    (fun s => Ok s)
    {| fileName := []; fileType := lit "application/pdf"; dataUrl := [];
       pdfPages := [[textItem "Go tell it" 0 60 50]]; fileText := [] |}
  = Ok (lit "Here is song content extracted from a PDF. Extract the song title and the chord sheet (lyrics and chords). Preserve the exact formatting and spacing of the chord sheet."
          ++ [10%N; 10%N] ++ lit "Go tell it").
Proof.
  rewrite (proj2 (parseSongFromFile_pdf
                    (fun name => name ++ lit " is not defined") jsstring _ _
                    {| fileName := []; fileType := lit "application/pdf"; dataUrl := [];
                       pdfPages := [[textItem "Go tell it" 0 60 50]];
                       fileText := [] |} eq_refl)).
  - reflexivity.
  - intros rawItems [<- | []] i; destruct i as [|[|i]]; reflexivity.
Defined.

Lemma jsEqb_spec (a : jsstring) :
  forall b, jsEqb a b = true <-> a = b.
Proof.
  induction a as [|c a IH]; intros [|d b]; cbn [jsEqb]; split; intros H;
    try reflexivity; try discriminate.
  - apply andb_true_iff in H. destruct H as [Hc Ha].
    apply N.eqb_eq in Hc. apply IH in Ha. subst. reflexivity.
  - inversion H; subst. rewrite N.eqb_refl. cbn [andb]. apply IH. reflexivity.
Qed.

(** X15. Every exception [parseSongFromFile] throws is an [Error] with one
    of two kinds of message. Either reading failed: then the message is
    "Could not read the file. Reason: " followed by "Unsupported file
    type.", by the no-text message, by the placement error of a chord or
    by the message of the ReferenceError of [closestCharIndex], and the
    import fails in the same way whatever the service and the JSON parser
    do. Or the parts were built and the message is the "AI could not
    process" one. A file whose type is neither "image/...",
    "application/pdf" nor "text/..." always fails with the
    unsupported-type reason. *)
Theorem parseSongFromFile_errors :
  forall (referenceErrorMessage : jsstring -> jsstring) (Json : Type)
         (generateContent : list Part -> result jsstring)
         (jsonParse : jsstring -> result Json) (file : File),
    (forall e : JsError,
        parseSongFromFile referenceErrorMessage generateContent jsonParse file
        = Throw e ->
        (e = Error aiFailureMessage
         /\ exists parts, prepareParts referenceErrorMessage file = Ok parts)
        \/ (exists reason,
              e = Error (lit "Could not read the file. Reason: " ++ reason)
              /\ (reason = lit "Unsupported file type."
                  \/ reason = noTextMessage
                  \/ reason = referenceErrorMessage (lit "closestCharIndex")
                  \/ exists chordText, reason = placementMessage chordText)
              /\ forall (Json' : Type)
                        (generateContent' : list Part -> result jsstring)
                        (jsonParse' : jsstring -> result Json'),
                   parseSongFromFile referenceErrorMessage generateContent'
                     jsonParse' file = Throw e))
    /\ (startsWith (lit "image/") (fileType file) = false ->
        fileType file <> lit "application/pdf" ->
        startsWith (lit "text/") (fileType file) = false ->
        parseSongFromFile referenceErrorMessage generateContent jsonParse file
        = Throw (Error (lit "Could not read the file. Reason: "
                          ++ lit "Unsupported file type."))).
Proof.
  intros referenceErrorMessage Json generateContent jsonParse file. split.
  - intros e. unfold parseSongFromFile, prepareParts.
    destruct (readParts file) as [parts|e1] eqn:E; cbn [bind].
    + destruct (bind _ _) as [song|e2]; [discriminate|].
      intros H. inversion H; subst. left. split; [reflexivity|].
      exists parts. reflexivity.
    + intros H. inversion H; subst. right.
      exists (messageOf referenceErrorMessage e1).
      split; [reflexivity|]. split.
      * exact (readParts_error referenceErrorMessage file e1 E).
      * intros Json' generateContent' jsonParse'. reflexivity.
  - intros Hi Hp Ht. unfold parseSongFromFile, prepareParts, readParts.
    rewrite Hi, Ht.
    destruct (jsEqb (fileType file) (lit "application/pdf")) eqn:Ej.
    + apply jsEqb_spec in Ej. contradiction.
    + reflexivity.
Qed.

Lemma parseSongFromFile_errors_witness :
  parseSongFromFile (fun name => name ++ lit " is not defined")
    (fun _ => Ok (lit "{}")) (fun s => Ok s)
    {| fileName := []; fileType := lit "audio/mpeg"; dataUrl := []; pdfPages := [];
       fileText := [] |}
  = Throw (Error (lit "Could not read the file. Reason: Unsupported file type.")).
Proof.
  apply (proj2 (parseSongFromFile_errors
                  (fun name => name ++ lit " is not defined") jsstring
                  (fun _ => Ok (lit "{}")) (fun s => Ok s)
                  {| fileName := []; fileType := lit "audio/mpeg"; dataUrl := [];
                     pdfPages := []; fileText := [] |})).
  - reflexivity.
  - discriminate.
  - reflexivity.
Defined.

(** ** The root note of a chord *)

Lemma in_range_cases (lo hi c : N) :
  inRange lo hi c = true -> In c (map N.of_nat (seq (N.to_nat lo) (N.to_nat hi - N.to_nat lo + 1))).
Proof.
  unfold inRange. intros H. apply andb_true_iff in H. destruct H as [H1 H2].
  apply N.leb_le in H1. apply N.leb_le in H2.
  apply in_map_iff. exists (N.to_nat c). split; [apply N2Nat.id|].
  apply in_seq. lia.
Qed.

Lemma getRootNote_root_letter (upperCaseOther : N -> jsstring) (c : N)
  (rest : jsstring) :
  inRange 65 71 c || inRange 97 103 c = true ->
  exists root,
    getRootNote upperCaseOther (c :: rest) = Some root
    /\ truthy root = true
    /\ includes [lit "Db"; lit "Eb"; lit "Gb"; lit "Ab"; lit "Bb"] root = false
    /\ includes NOTE_NAMES root
       = negb (includes [lit "Cb"; lit "Fb"; lit "E#"; lit "B#"] root).
Proof.
  intros Hc. apply orb_true_iff in Hc.
  assert (Hin : In c [65; 66; 67; 68; 69; 70; 71; 97; 98; 99; 100; 101; 102; 103]%N).
  { destruct Hc as [Hc | Hc]; apply in_range_cases in Hc;
      vm_compute in Hc; vm_compute; tauto. }
  destruct rest as [|c1 rest].
  - cbn in Hin.
    repeat (destruct Hin as [<- | Hin];
            [eexists; split; [reflexivity|repeat split; reflexivity]|]).
    destruct Hin.
  - unfold getRootNote.
    destruct (c1 =? 35)%N eqn:E1; [apply N.eqb_eq in E1; subst c1|];
      [|destruct (c1 =? 98)%N eqn:E2; [apply N.eqb_eq in E2; subst c1|]];
      cbn [orb]; cbn in Hin;
      repeat (destruct Hin as [<- | Hin];
              [eexists; split; [reflexivity|repeat split; reflexivity]|]);
      destruct Hin.
Qed.

(** X16. [getRootNote] returns null exactly for the empty string. For a
    chord that starts with a letter A-G or a-g it returns a root that is
    never one of the flats Db, Eb, Gb, Ab, Bb, and that is one of
    [NOTE_NAMES] exactly when it is not one of the four spellings Cb, Fb,
    E# and B#. *)
Theorem getRootNote_note_names :
  forall (upperCaseOther : N -> jsstring) (chord : jsstring),
    (getRootNote upperCaseOther chord = None <-> chord = [])
    /\ (forall c rest,
           chord = c :: rest ->
           inRange 65 71 c || inRange 97 103 c = true ->
           exists root,
             getRootNote upperCaseOther chord = Some root
             /\ includes [lit "Db"; lit "Eb"; lit "Gb"; lit "Ab"; lit "Bb"] root
                = false
             /\ includes NOTE_NAMES root
                = negb (includes [lit "Cb"; lit "Fb"; lit "E#"; lit "B#"] root)).
Proof.
  intros upperCaseOther chord. split.
  - destruct chord as [|c rest]; cbn [getRootNote]; split; intros H;
      try reflexivity; discriminate.
  - intros c rest -> Hc.
    destruct (getRootNote_root_letter upperCaseOther c rest Hc)
      as (root & Hr & _ & Hf & Hn).
    exists root. repeat split; assumption.
Qed.

Lemma getRootNote_note_names_witness :
  exists root,
    getRootNote (fun c => [c]) (lit "ebm7") = Some root
    /\ includes [lit "Db"; lit "Eb"; lit "Gb"; lit "Ab"; lit "Bb"] root = false
    /\ includes NOTE_NAMES root
       = negb (includes [lit "Cb"; lit "Fb"; lit "E#"; lit "B#"] root).
Proof.
  apply (proj2 (getRootNote_note_names (fun c => [c]) (lit "ebm7"))
           101%N (lit "bm7")); reflexivity.
Defined.

(** ** The chord book *)

Lemma jsLtb_irrefl (a : jsstring) : jsLtb a a = false.
Proof.
  induction a as [|c a IH]; cbn [jsLtb]; [reflexivity|].
  rewrite N.ltb_irrefl. exact IH.
Qed.

Lemma jsLtb_trans (a : jsstring) :
  forall b c, jsLtb a b = true -> jsLtb b c = true -> jsLtb a c = true.
Proof.
  induction a as [|x a IH]; intros [|y b] [|z c]; cbn [jsLtb]; intros H1 H2;
    try discriminate; try reflexivity.
  destruct (x <? y)%N eqn:Exy, (y <? x)%N eqn:Eyx,
           (y <? z)%N eqn:Eyz, (z <? y)%N eqn:Ezy,
           (x <? z)%N eqn:Exz, (z <? x)%N eqn:Ezx;
    try discriminate; try reflexivity;
    rewrite ?N.ltb_lt, ?N.ltb_ge in *; try lia.
  exact (IH _ _ H1 H2).
Qed.

Lemma jsLtb_total (a : jsstring) :
  forall b, jsLtb a b = false -> jsLtb b a = false -> a = b.
Proof.
  induction a as [|x a IH]; intros [|y b]; cbn [jsLtb]; intros H1 H2;
    try discriminate; try reflexivity.
  destruct (x <? y)%N eqn:Exy, (y <? x)%N eqn:Eyx; try discriminate.
  rewrite N.ltb_ge in Exy, Eyx.
  assert (x = y) by lia. subst y. f_equal. exact (IH _ H1 H2).
Qed.

Lemma jsLtb_asym (a b : jsstring) : jsLtb a b = true -> jsLtb b a = false.
Proof.
  intros H. destruct (jsLtb b a) eqn:E; [|reflexivity].
  pose proof (jsLtb_trans _ _ _ H E) as Hc.
  rewrite jsLtb_irrefl in Hc. discriminate.
Qed.

Lemma jsLe_trans (a b c : jsstring) : jsLe a b -> jsLe b c -> jsLe a c.
Proof.
  unfold jsLe. intros Hab Hbc.
  destruct (jsLtb c a) eqn:Eca; [|reflexivity].
  destruct (jsLtb a b) eqn:Eab.
  - rewrite (jsLtb_trans _ _ _ Eca Eab) in Hbc. discriminate.
  - pose proof (jsLtb_total _ _ Eab Hab). subst b.
    rewrite Eca in Hbc. discriminate.
Qed.

Lemma sortStrings_sorted (l : list jsstring) :
  StronglySorted jsLe (sortStrings l).
Proof.
  unfold sortStrings. apply stableSort_sorted.
  - intros u v H. exact (jsLtb_asym _ _ H).
  - intros u v H. exact H.
  - intros u v w. apply jsLe_trans.
Qed.

Lemma includes_spec (l : list jsstring) (s : jsstring) :
  includes l s = true <-> In s l.
Proof.
  unfold includes. rewrite existsb_exists. split.
  - intros (x & Hin & Heq). apply jsEqb_spec in Heq. subst. exact Hin.
  - intros Hin. exists s. split; [exact Hin | apply jsEqb_spec; reflexivity].
Qed.

Lemma includes_false (l : list jsstring) (s : jsstring) :
  includes l s = false <-> ~ In s l.
Proof.
  rewrite <- includes_spec. destruct (includes l s); split; intros H;
    try discriminate; try reflexivity; try (intros Hc; discriminate).
  exfalso. apply H. reflexivity.
Qed.

Lemma in_remove (prev : list jsstring) (chordName c : jsstring) :
  In c (filter (fun c => negb (jsEqb c chordName)) prev)
  <-> In c prev /\ c <> chordName.
Proof.
  rewrite filter_In. split; intros [Hin Hne]; split; try exact Hin.
  - intros ->. rewrite (proj2 (jsEqb_spec chordName chordName) eq_refl) in Hne.
    discriminate.
  - destruct (jsEqb c chordName) eqn:E; [|reflexivity].
    apply jsEqb_spec in E. contradiction.
Qed.

Lemma in_sortStrings (l : list jsstring) (c : jsstring) :
  In c (sortStrings l) <-> In c l.
Proof.
  split; apply Permutation_in;
    [apply Permutation_sym|]; apply stableSort_perm.
Qed.

Lemma StronglySorted_filter {A} (R : A -> A -> Prop) (f : A -> bool) (l : list A) :
  StronglySorted R l -> StronglySorted R (filter f l).
Proof.
  induction 1 as [|a l Hs IH Hall]; cbn [filter]; [constructor|].
  destruct (f a); [|exact IH].
  constructor; [exact IH|].
  apply Forall_forall. intros x Hx. apply filter_In in Hx.
  exact (proj1 (Forall_forall _ _) Hall x (proj1 Hx)).
Qed.

Lemma NoDup_filter {A} (f : A -> bool) (l : list A) :
  NoDup l -> NoDup (filter f l).
Proof.
  induction 1 as [|a l Hn Hd IH]; cbn [filter]; [constructor|].
  destruct (f a); [|exact IH].
  constructor; [|exact IH].
  intros Hin. apply filter_In in Hin. exact (Hn (proj1 Hin)).
Qed.

Lemma strictSorted_NoDup (l : list jsstring) :
  StronglySorted jsLt l -> NoDup l.
Proof.
  induction 1 as [|a l Hs IH Hall]; constructor; [|exact IH].
  intros Hin. pose proof (proj1 (Forall_forall _ _) Hall a Hin) as Hlt.
  unfold jsLt in Hlt. rewrite jsLtb_irrefl in Hlt. discriminate.
Qed.

Lemma sorted_NoDup_strict (l : list jsstring) :
  StronglySorted jsLe l -> NoDup l -> StronglySorted jsLt l.
Proof.
  induction 1 as [|a l Hs IH Hall]; intros Hnd; constructor.
  - apply IH. inversion Hnd; assumption.
  - inversion Hnd as [|? ? Hn Hd]; subst.
    apply Forall_forall. intros x Hx.
    pose proof (proj1 (Forall_forall _ _) Hall x Hx) as Hle.
    unfold jsLe in Hle. unfold jsLt.
    destruct (jsLtb a x) eqn:E; [reflexivity|].
    pose proof (jsLtb_total _ _ E Hle). subst x. contradiction.
Qed.

Lemma strictSorted_ext (l1 : list jsstring) :
  forall l2,
    StronglySorted jsLt l1 -> StronglySorted jsLt l2 ->
    (forall x, In x l1 <-> In x l2) -> l1 = l2.
Proof.
  induction l1 as [|a l1 IH]; intros [|b l2] H1 H2 Hext.
  - reflexivity.
  - exfalso. exact (proj2 (Hext b) (or_introl eq_refl)).
  - exfalso. exact (proj1 (Hext a) (or_introl eq_refl)).
  - inversion H1 as [|? ? Hs1 Ha]; subst.
    inversion H2 as [|? ? Hs2 Hb]; subst.
    rewrite Forall_forall in Ha, Hb.
    assert (Hab : a = b).
    { destruct (proj1 (Hext a) (or_introl eq_refl)) as [Hba | Hin2];
        [symmetry; exact Hba|].
      destruct (proj2 (Hext b) (or_introl eq_refl)) as [Hab | Hin1];
        [exact Hab|].
      pose proof (Hb a Hin2) as Hlt1. pose proof (Ha b Hin1) as Hlt2.
      unfold jsLt in *. rewrite (jsLtb_asym _ _ Hlt1) in Hlt2. discriminate. }
    subst b. f_equal. apply IH; [exact Hs1 | exact Hs2 |].
    intros x. split; intros Hx.
    + destruct (proj1 (Hext x) (or_intror Hx)) as [Heq | Hin]; [|exact Hin].
      subst x. pose proof (Ha a Hx) as Hlt. unfold jsLt in Hlt.
      rewrite jsLtb_irrefl in Hlt. discriminate.
    + destruct (proj2 (Hext x) (or_intror Hx)) as [Heq | Hin]; [|exact Hin].
      subst x. pose proof (Hb a Hx) as Hlt. unfold jsLt in Hlt.
      rewrite jsLtb_irrefl in Hlt. discriminate.
Qed.

Lemma NoDup_snoc {A} (l : list A) (a : A) :
  NoDup l -> ~ In a l -> NoDup (l ++ [a]).
Proof.
  intros Hnd Hn.
  apply (Permutation_NoDup (l := a :: l)).
  - apply Permutation_cons_append.
  - constructor; assumption.
Qed.

(** X17. [addChord] toggles the chord: afterwards the chord is in the book
    exactly if it was not before, and no other chord enters or leaves. A
    book without duplicates stays so, and a book in the order of
    [Array.prototype.sort] stays in that order (adding a chord sorts the
    whole book in any case). *)
Theorem addChord_toggle :
  forall (prev : list jsstring) (chordName : jsstring),
    (In chordName (addChord prev chordName) <-> ~ In chordName prev)
    /\ (forall c, c <> chordName ->
                  (In c (addChord prev chordName) <-> In c prev))
    /\ (NoDup prev -> NoDup (addChord prev chordName))
    /\ (StronglySorted jsLe prev ->
        StronglySorted jsLe (addChord prev chordName))
    /\ (~ In chordName prev ->
        StronglySorted jsLe (addChord prev chordName)).
Proof.
  intros prev chordName. unfold addChord.
  destruct (includes prev chordName) eqn:E.
  - pose proof (proj1 (includes_spec _ _) E) as Hin.
    split; [|split; [|split; [|split]]].
    + rewrite in_remove. split; [intros [_ Hne]; contradiction|].
      intros Hn. contradiction.
    + intros c Hne. rewrite in_remove. tauto.
    + apply NoDup_filter.
    + apply StronglySorted_filter.
    + intros Hn. contradiction.
  - pose proof (proj1 (includes_false _ _) E) as Hn.
    split; [|split; [|split; [|split]]].
    + rewrite in_sortStrings, in_app_iff. cbn [In]. tauto.
    + intros c Hne. rewrite in_sortStrings, in_app_iff. cbn [In].
      split; [intros [H | [H | []]]; [exact H | congruence] | tauto].
    + intros Hnd.
      apply (Permutation_NoDup (l := prev ++ [chordName]));
        [apply stableSort_perm | apply NoDup_snoc; assumption].
    + intros _. apply sortStrings_sorted.
    + intros _. apply sortStrings_sorted.
Qed.

Lemma addChord_toggle_witness :
  StronglySorted jsLe (addChord [lit "G"; lit "Am"; lit "C"] (lit "D"))
  /\ addChord [lit "G"; lit "Am"; lit "C"] (lit "D")
     = [lit "Am"; lit "C"; lit "D"; lit "G"].
Proof.
  split; [|reflexivity].
  apply (proj2 (proj2 (proj2 (proj2
           (addChord_toggle [lit "G"; lit "Am"; lit "C"] (lit "D")))))).
  intros [H | [H | [H | []]]]; discriminate.
Defined.

(** X18. On a book that is sorted and without duplicates, toggling the
    same chord twice gives the book back, whether the chord was in it or
    not. *)
Theorem addChord_twice :
  forall (prev : list jsstring) (chordName : jsstring),
    StronglySorted jsLt prev ->
    addChord (addChord prev chordName) chordName = prev.
Proof.
  intros prev chordName Hs.
  pose proof (strictSorted_NoDup _ Hs) as Hnd.
  unfold addChord at 2.
  destruct (includes prev chordName) eqn:E.
  - pose proof (proj1 (includes_spec _ _) E) as Hin.
    set (removed := filter (fun c => negb (jsEqb c chordName)) prev).
    assert (Hn : ~ In chordName removed).
    { unfold removed. rewrite in_remove. tauto. }
    unfold addChord. rewrite (proj2 (includes_false _ _) Hn).
    apply strictSorted_ext; [|exact Hs|].
    + apply sorted_NoDup_strict; [apply sortStrings_sorted|].
      apply (Permutation_NoDup (l := removed ++ [chordName]));
        [apply stableSort_perm|].
      apply NoDup_snoc; [apply NoDup_filter; exact Hnd | exact Hn].
    + intros x. rewrite in_sortStrings, in_app_iff. unfold removed.
      rewrite in_remove. cbn [In].
      destruct (jsEqb x chordName) eqn:Ex.
      * apply jsEqb_spec in Ex. subst x. tauto.
      * assert (x <> chordName).
        { intros ->. rewrite (proj2 (jsEqb_spec _ _) eq_refl) in Ex.
          discriminate. }
        split; [intros [[H1 _] | [H1 | []]]; [exact H1 | congruence] | tauto].
  - pose proof (proj1 (includes_false _ _) E) as Hn.
    set (added := sortStrings (prev ++ [chordName])).
    assert (Hin : In chordName added).
    { unfold added. rewrite in_sortStrings, in_app_iff. cbn [In]. tauto. }
    unfold addChord. rewrite (proj2 (includes_spec _ _) Hin).
    apply strictSorted_ext; [|exact Hs|].
    + apply StronglySorted_filter. apply sorted_NoDup_strict.
      * apply sortStrings_sorted.
      * apply (Permutation_NoDup (l := prev ++ [chordName]));
          [apply stableSort_perm | apply NoDup_snoc; assumption].
    + intros x. rewrite in_remove. unfold added.
      rewrite in_sortStrings, in_app_iff. cbn [In].
      split; [intros [[H1 | [H1 | []]] H2]; [exact H1 | congruence]|].
      intros Hx. split; [left; exact Hx|]. intros ->. contradiction.
Qed.

Lemma addChord_twice_witness :
  addChord (addChord [lit "Am"; lit "C"; lit "G"] (lit "D")) (lit "D")
  = [lit "Am"; lit "C"; lit "G"].
Proof.
  apply (addChord_twice [lit "Am"; lit "C"; lit "G"] (lit "D")).
  repeat constructor.
Defined.

(** ** The fenced answer of the search *)

Lemma substring_middle (pre body tail : jsstring) :
  substring (pre ++ body ++ tail) (Z.of_nat (length pre))
    (Z.of_nat (length (pre ++ body ++ tail)) - Z.of_nat (length tail))
  = body.
Proof.
  unfold substring. rewrite !length_app.
  set (p := length pre). set (b := length body). set (t := length tail).
  replace (Z.to_nat _) with b by lia.
  replace (Z.to_nat _) with p by lia.
  rewrite skipn_app. subst p. rewrite skipn_all, Nat.sub_diag. cbn [skipn app].
  rewrite firstn_app. subst b. rewrite firstn_all, Nat.sub_diag.
  cbn [firstn]. apply app_nil_r.
Qed.

Lemma startsWith_shorter (pat more : jsstring) :
  forall s, startsWith (pat ++ more) s = true -> startsWith pat s = true.
Proof.
  induction pat as [|p pat IH]; intros s H; [reflexivity|].
  destruct s as [|c s]; [discriminate|].
  cbn [app startsWith] in *. apply andb_true_iff in H. destruct H as [Hc Hs].
  rewrite Hc, (IH _ Hs). reflexivity.
Qed.

(** X19. [searchSongOnPreferredSites] unwraps a fenced answer: when the
    trimmed response starts with the json fence, or else with a plain
    fence, [JSON.parse] receives what lies between the opening fence and
    the last three code units, trimmed; those three code units are dropped
    without being compared with a closing fence. A response that does
    not start with a fence is parsed as it is, trimmed. *)
Theorem searchSongOnPreferredSites_fence :
  forall (Json : Type) (generateContent : jsstring -> result jsstring)
         (jsonParse : jsstring -> result Json)
         (query selectedSite responseText : jsstring),
    generateContent (searchPrompt query selectedSite) = Ok responseText ->
    (forall body tail,
        length tail = 3%nat ->
        trim responseText = lit "```json" ++ body ++ tail ->
        searchSongOnPreferredSites generateContent jsonParse query selectedSite
        = jsonParse (trim body))
    /\ (forall body tail,
           length tail = 3%nat ->
           trim responseText = lit "```" ++ body ++ tail ->
           startsWith (lit "```json") (trim responseText) = false ->
           searchSongOnPreferredSites generateContent jsonParse query selectedSite
           = jsonParse (trim body))
    /\ (startsWith (lit "```") (trim responseText) = false ->
        searchSongOnPreferredSites generateContent jsonParse query selectedSite
        = jsonParse (trim responseText)).
Proof.
  intros Json generateContent jsonParse query selectedSite responseText Hr.
  unfold searchSongOnPreferredSites. rewrite Hr. cbn [bind].
  split; [|split].
  - intros body tail Ht Heq. unfold unfence. rewrite Heq.
    rewrite (startsWith_app (lit "```json") (lit "```json") (body ++ tail) eq_refl).
    pose proof (substring_middle (lit "```json") body tail) as Hs.
    rewrite Ht in Hs. change (Z.of_nat 3) with 3%Z in Hs.
    change (Z.of_nat (length (lit "```json"))) with 7%Z in Hs.
    rewrite Hs. reflexivity.
  - intros body tail Ht Heq Hj. unfold unfence. rewrite Hj, Heq.
    rewrite (startsWith_app (lit "```") (lit "```") (body ++ tail) eq_refl).
    pose proof (substring_middle (lit "```") body tail) as Hs.
    rewrite Ht in Hs. change (Z.of_nat 3) with 3%Z in Hs.
    change (Z.of_nat (length (lit "```"))) with 3%Z in Hs.
    rewrite Hs. reflexivity.
  - intros Hf. unfold unfence. rewrite Hf.
    destruct (startsWith (lit "```json") (trim responseText)) eqn:Ej;
      [|reflexivity].
    rewrite (startsWith_shorter (lit "```") (lit "json") _ Ej) in Hf.
    discriminate.
Qed.

Lemma searchSongOnPreferredSites_fence_witness :
  searchSongOnPreferredSites
    (fun _ => Ok ([32%N] ++ lit "```json" ++ [10%N] ++ lit "{}" ++ [10%N]
                    ++ lit "```" ++ [10%N]))
    (fun s => Ok s) (lit "Blackbird") (lit "cifraclub.com.br")
  = Ok (lit "{}").
Proof.
  apply (proj1 (searchSongOnPreferredSites_fence jsstring
                  (fun _ => Ok ([32%N] ++ lit "```json" ++ [10%N] ++ lit "{}"
                                  ++ [10%N] ++ lit "```" ++ [10%N]))
                  (fun s => Ok s) (lit "Blackbird") (lit "cifraclub.com.br")
                  _ eq_refl)
           ([10%N] ++ lit "{}" ++ [10%N]) (lit "```"));
    reflexivity.
Defined.

(** ** The chords of a line *)

Lemma lastOr_nil (prev : option N) : lastOr prev [] = prev.
Proof. reflexivity. Qed.

Lemma lastOr_snoc (prev : option N) (w : jsstring) (c : N) :
  lastOr prev (w ++ [c]) = Some c.
Proof. unfold lastOr. rewrite rev_app_distr. reflexivity. Qed.

Lemma lastOr_app (prev : option N) (w1 w2 : jsstring) :
  lastOr (lastOr prev w1) w2 = lastOr prev (w1 ++ w2).
Proof.
  destruct w2 as [|c w2] using rev_ind.
  - rewrite app_nil_r. reflexivity.
  - rewrite app_assoc, !lastOr_snoc. reflexivity.
Qed.

Lemma lastOr_cons (prev : option N) (c : N) (w : jsstring) :
  lastOr prev (c :: w) = lastOr (Some c) w.
Proof. exact (eq_sym (lastOr_app prev [c] w)). Qed.

Lemma lastOr_nonempty (prev prev' : option N) (c : N) (w : jsstring) :
  lastOr prev (c :: w) = lastOr prev' (c :: w).
Proof. rewrite !lastOr_cons. reflexivity. Qed.

Lemma starUnit_sound {X} (accept : N -> bool) (k : continuation X) (s : jsstring) :
  forall prev n x,
    starUnit accept k prev n s = Some x ->
    exists w s', s = w ++ s'
                 /\ forallb accept w = true
                 /\ k (lastOr prev w) (n + length w)%nat s' = Some x.
Proof.
  induction s as [|c rest IH]; intros prev n x H; cbn [starUnit] in H.
  - exists [], []. rewrite Nat.add_0_r. repeat split. exact H.
  - assert (Hstop : k prev n (c :: rest) = Some x ->
                    exists w s', c :: rest = w ++ s'
                                 /\ forallb accept w = true
                                 /\ k (lastOr prev w) (n + length w)%nat s' = Some x).
    { intros Hk. exists [], (c :: rest). rewrite Nat.add_0_r.
      repeat split. exact Hk. }
    destruct (accept c) eqn:Ec; [|exact (Hstop H)].
    destruct (starUnit accept k (Some c) (S n) rest) as [y|] eqn:Es;
      [|exact (Hstop H)].
    inversion H; subst y.
    destruct (IH _ _ _ Es) as (w & s' & Hs & Hw & Hk).
    exists (c :: w), s'. split; [cbn [app]; rewrite Hs; reflexivity|].
    split; [cbn [forallb]; rewrite Ec, Hw; reflexivity|].
    rewrite lastOr_cons. cbn [length].
    replace (n + S (length w))%nat with (S n + length w)%nat by lia.
    exact Hk.
Qed.

Lemma run_sound {X} (p : pattern) :
  forall (k : continuation X) prev n s x,
    run p k prev n s = Some x ->
    exists w s', s = w ++ s'
                 /\ matches p prev w s'
                 /\ k (lastOr prev w) (n + length w)%nat s' = Some x.
Proof.
  induction p as [|accept|p1 IH1 p2 IH2|p1 IH1 p2 IH2|accept|];
    intros k prev n s x H; cbn [run] in H.
  - exists [], s. rewrite Nat.add_0_r. repeat split. exact H.
  - destruct s as [|c rest]; [discriminate|].
    destruct (accept c) eqn:Ec; [|discriminate].
    exists [c], rest. split; [reflexivity|].
    split; [exists c; split; [reflexivity | exact Ec]|].
    cbn [length]. replace (n + 1)%nat with (S n) by lia. exact H.
  - destruct (IH1 _ _ _ _ _ H) as (w1 & s1 & Hs & Hm1 & Hk1).
    destruct (IH2 _ _ _ _ _ Hk1) as (w2 & s2 & Hs2 & Hm2 & Hk2).
    exists (w1 ++ w2), s2. split; [rewrite Hs, Hs2, app_assoc; reflexivity|].
    split.
    + cbn [matches]. exists w1, w2. split; [reflexivity|].
      split; [rewrite <- Hs2; exact Hm1 | exact Hm2].
    + rewrite <- lastOr_app, length_app, Nat.add_assoc. exact Hk2.
  - destruct (run p1 k prev n s) as [y|] eqn:E1.
    + inversion H; subst y.
      destruct (IH1 _ _ _ _ _ E1) as (w & s' & Hs & Hm & Hk).
      exists w, s'. split; [exact Hs|]. split; [left; exact Hm | exact Hk].
    + destruct (IH2 _ _ _ _ _ H) as (w & s' & Hs & Hm & Hk).
      exists w, s'. split; [exact Hs|]. split; [right; exact Hm | exact Hk].
  - destruct (starUnit_sound _ _ _ _ _ _ H) as (w & s' & Hs & Hw & Hk).
    exists w, s'. split; [exact Hs|]. split; [exact Hw | exact Hk].
  - destruct (xorb (isWordAt prev) (isWordAt (hd_error s))) eqn:Eb;
      [|discriminate].
    exists [], s. rewrite Nat.add_0_r. split; [reflexivity|].
    split; [split; [reflexivity | exact Eb] | exact H].
Qed.

Lemma matchHere_sound (p : pattern) (prev : option N) (s : jsstring) (n : nat) :
  matchHere p prev s = Some n ->
  exists post, s = firstn n s ++ post /\ matches p prev (firstn n s) post.
Proof.
  unfold matchHere. intros H.
  destruct (run_sound p _ _ _ _ _ H) as (w & s' & Hs & Hm & Hk).
  cbn [Nat.add] in Hk. inversion Hk; subst n.
  assert (Hw : firstn (length w) s = w).
  { rewrite Hs, firstn_app, firstn_all, Nat.sub_diag. cbn [firstn].
    apply app_nil_r. }
  rewrite Hw. exists s'. split; [exact Hs | exact Hm].
Qed.

Lemma matchesFrom_sound (p : pattern) (s : jsstring) :
  forall prev skip m,
    In m (matchesFrom p prev skip s) ->
    exists pre post, s = pre ++ m ++ post /\ matches p (lastOr prev pre) m post.
Proof.
  induction s as [|c rest IH]; intros prev skip m Hin.
  - destruct skip as [|k]; cbn [matchesFrom] in Hin; [|destruct Hin].
    destruct (matchHere p prev []) as [n|] eqn:E; [|destruct Hin].
    destruct Hin as [<- | []].
    destruct (matchHere_sound _ _ _ _ E) as (post & Hs & Hm).
    exists [], post. split; [exact Hs | exact Hm].
  - assert (Hrest : forall k, In m (matchesFrom p (Some c) k rest) ->
                      exists pre post, c :: rest = pre ++ m ++ post
                                       /\ matches p (lastOr prev pre) m post).
    { intros k Hk. destruct (IH _ _ _ Hk) as (pre & post & Hs & Hm).
      exists (c :: pre), post. split; [cbn [app]; rewrite Hs; reflexivity|].
      rewrite lastOr_cons. exact Hm. }
    destruct skip as [|k]; cbn [matchesFrom] in Hin; [|exact (Hrest _ Hin)].
    destruct (matchHere p prev (c :: rest)) as [n|] eqn:E; [|exact (Hrest _ Hin)].
    destruct Hin as [<- | Hin]; [|exact (Hrest _ Hin)].
    destruct (matchHere_sound _ _ _ _ E) as (post & Hs & Hm).
    exists [], post. split; [exact Hs | exact Hm].
Qed.

Lemma matches_end_boundary (p : pattern) :
  forall prev w after,
    endsWithBoundary p = true ->
    matches p prev w after ->
    xorb (isWordAt (lastOr prev w)) (isWordAt (hd_error after)) = true.
Proof.
  induction p as [|accept|p1 IH1 p2 IH2|p1 IH1 p2 IH2|accept|];
    intros prev w after He Hm; try discriminate.
  - cbn [matches] in Hm. destruct Hm as (w1 & w2 & -> & Hm1 & Hm2).
    destruct p2; cbn [endsWithBoundary] in He;
      try (rewrite <- lastOr_app; exact (IH2 _ _ _ He Hm2)).
    cbn [matches] in Hm2. subst w2. rewrite app_nil_r.
    exact (IH1 _ _ _ He Hm1).
  - cbn [matches] in Hm. destruct Hm as [-> Hb]. exact Hb.
Qed.

Lemma isWordChar_root (c : N) : inRange 65 71 c = true -> isWordChar c = true.
Proof.
  unfold isWordChar, inRange. intros H.
  apply andb_true_iff in H. destruct H as [H1 H2].
  apply N.leb_le in H1. apply N.leb_le in H2.
  replace (65 <=? c)%N with true by (symmetry; apply N.leb_le; lia).
  replace (c <=? 90)%N with true by (symmetry; apply N.leb_le; lia).
  cbn [andb]. rewrite orb_true_r. reflexivity.
Qed.

Lemma CHORD_REGEX_matches (prev : option N) (w after : jsstring) :
  matches CHORD_REGEX prev w after ->
  exists c rest,
    w = c :: rest
    /\ inRange 65 71 c = true
    /\ isWordAt prev = false
    /\ xorb (isWordAt (lastOr None w)) (isWordAt (hd_error after)) = true.
Proof.
  intros Hm.
  pose proof (matches_end_boundary CHORD_REGEX prev w after eq_refl Hm) as Hend.
  unfold CHORD_REGEX in Hm. cbn [pSeqs fold_right] in Hm.
  cbn [matches] in Hm.
  destruct Hm as (w1 & w2 & -> & [-> Hb] & (w3 & w4 & -> & Hc & _)).
  unfold pRange in Hc. cbn [matches] in Hc. destruct Hc as (c & -> & Hc).
  exists c, w4. cbn [app] in *. split; [reflexivity|]. split; [exact Hc|].
  cbn [hd_error isWordAt] in Hb. rewrite (isWordChar_root c Hc) in Hb.
  split.
  - destruct (isWordAt prev); [discriminate | reflexivity].
  - rewrite (lastOr_nonempty None prev). exact Hend.
Qed.

Lemma setAdd_fold_NoDup (values : list jsstring) :
  forall set, NoDup set -> NoDup (fold_left setAdd values set).
Proof.
  induction values as [|v values IH]; intros set Hnd; cbn [fold_left];
    [exact Hnd|].
  apply IH. unfold setAdd. destruct (includes set v) eqn:E; [exact Hnd|].
  apply NoDup_snoc; [exact Hnd | exact (proj1 (includes_false _ _) E)].
Qed.

Lemma setAdd_fold_In (values : list jsstring) (x : jsstring) :
  forall set, In x (fold_left setAdd values set) <-> In x set \/ In x values.
Proof.
  induction values as [|v values IH]; intros set; cbn [fold_left In];
    [tauto|].
  rewrite IH. unfold setAdd. destruct (includes set v) eqn:E.
  - apply includes_spec in E. split; [tauto|].
    intros [H | [<- | H]]; tauto.
  - rewrite in_app_iff. cbn [In]. tauto.
Qed.

Lemma parseChordsInLine_NoDup (line : jsstring) : NoDup (parseChordsInLine line).
Proof.
  unfold parseChordsInLine.
  destruct (negb (truthy line)); [constructor|].
  destruct (hasLyricLetter line); [constructor|].
  destruct (matchesFrom CHORD_REGEX None 0 line); [constructor|].
  apply setAdd_fold_NoDup. constructor.
Qed.

Lemma parseChordsInLine_sound (line chord : jsstring) :
  In chord (parseChordsInLine line) ->
  hasLyricLetter line = false
  /\ exists pre c rest post,
       line = pre ++ chord ++ post
       /\ chord = c :: rest
       /\ inRange 65 71 c = true
       /\ isWordAt (lastOr None pre) = false
       /\ xorb (isWordAt (lastOr None chord)) (isWordAt (hd_error post)) = true.
Proof.
  unfold parseChordsInLine.
  destruct (negb (truthy line)); [intros []|].
  destruct (hasLyricLetter line); [intros []|].
  intros Hin. split; [reflexivity|].
  assert (Hm : In chord (matchesFrom CHORD_REGEX None 0 line)).
  { destruct (matchesFrom CHORD_REGEX None 0 line) as [|m ms] eqn:E;
      [destruct Hin|].
    unfold newSet in Hin. apply setAdd_fold_In in Hin.
    destruct Hin as [[] | Hin]. exact Hin. }
  destruct (matchesFrom_sound _ _ _ _ _ Hm) as (pre & post & Hs & Hmatch).
  destruct (CHORD_REGEX_matches _ _ _ Hmatch) as (c & rest & Hw & Hc & Hp & He).
  exists pre, c, rest, post. repeat split; assumption.
Qed.

(** X20. [parseChordsInLine] returns distinct strings, and only for a line
    that passes the lyric-letter test. Each of them is a piece of the
    line that starts with a letter A-G not preceded by a word character,
    and that ends at a word boundary: its last code unit is a word
    character exactly if the code unit after it, if any, is not. So a
    sharp or a closing parenthesis at the end of a chord name is part of
    the returned chord only when a word character follows it. *)
Theorem parseChordsInLine_pieces :
  forall line : jsstring,
    NoDup (parseChordsInLine line)
    /\ forall chord,
         In chord (parseChordsInLine line) ->
         hasLyricLetter line = false
         /\ exists pre c rest post,
              line = pre ++ chord ++ post
              /\ chord = c :: rest
              /\ inRange 65 71 c = true
              /\ isWordAt (lastOr None pre) = false
              /\ xorb (isWordAt (lastOr None chord)) (isWordAt (hd_error post))
                 = true.
Proof.
  intros line. split.
  - exact (parseChordsInLine_NoDup line).
  - intros chord. exact (parseChordsInLine_sound line chord).
Qed.

Lemma parseChordsInLine_pieces_witness :
  parseChordsInLine (lit "C#  G7") = [lit "C"; lit "G7"]
  /\ exists pre c rest post,
       lit "C#  G7" = pre ++ lit "C" ++ post
       /\ lit "C" = c :: rest
       /\ inRange 65 71 c = true
       /\ isWordAt (lastOr None pre) = false
       /\ xorb (isWordAt (lastOr None (lit "C"))) (isWordAt (hd_error post))
          = true.
Proof.
  split; [reflexivity|].
  apply (proj2 (parseChordsInLine_pieces (lit "C#  G7")) (lit "C")).
  left. reflexivity.
Defined.

(** ** Lyric letters and the quality words *)

Lemma firstAlternative_some (pats : list jsstring) (s : jsstring) (n : nat) :
  firstAlternative pats s = Some n ->
  exists p, In p pats /\ n = length p /\ ciPrefix p s = true.
Proof.
  induction pats as [|p pats IH]; cbn [firstAlternative]; [discriminate|].
  destruct (ciPrefix p s) eqn:E.
  - intros H. inversion H; subst. exists p.
    split; [left; reflexivity|]. split; [reflexivity | exact E].
  - intros H. destruct (IH H) as (q & Hin & Hn & Hq).
    exists q. split; [right; exact Hin|]. split; assumption.
Qed.

Lemma replace_keeps_uncovered (s : jsstring) :
  forall pre k u c post,
    (k = 0%nat
     \/ exists word pre0 seg,
          In word qualityWords /\ pre = pre0 ++ seg
          /\ (length seg + k = length word)%nat
          /\ ciPrefix word (seg ++ s) = true) ->
    s = u ++ c :: post ->
    uncovered (pre ++ u) c post ->
    In c (replaceFrom matchQualityWord [] k s).
Proof.
  induction s as [|c0 rest IH]; intros pre k u c post Hinv Hs Hun.
  - destruct u; discriminate.
  - destruct k as [|k]; cbn [replaceFrom].
    + destruct (matchQualityWord (c0 :: rest)) as [[|n]|] eqn:E.
      * destruct u as [|c1 u]; cbn [app] in Hs; inversion Hs; subst.
        -- left. reflexivity.
        -- right. apply (IH (pre ++ [c1]) 0%nat u c post);
             [left; reflexivity | reflexivity|].
           rewrite <- app_assoc. exact Hun.
      * unfold matchQualityWord in E.
        destruct (firstAlternative_some _ _ _ E) as (word & Hin & Hn & Hp).
        cbn [app]. destruct u as [|c1 u]; cbn [app] in Hs; inversion Hs; subst.
        -- exfalso. rewrite app_nil_r in Hun.
           assert (Hf : ciPrefix word ([] ++ c :: post) = false).
           { apply (Hun word pre []);
               [exact Hin | symmetry; apply app_nil_r
               | rewrite <- Hn; cbn [length]; lia]. }
           cbn [app] in Hf. rewrite Hf in Hp. discriminate.
        -- apply (IH (pre ++ [c1]) n u c post); [|reflexivity|].
           ++ right. exists word, pre, [c1].
              split; [exact Hin|]. split; [reflexivity|].
              split; [rewrite <- Hn; reflexivity | exact Hp].
           ++ rewrite <- app_assoc. exact Hun.
      * destruct u as [|c1 u]; cbn [app] in Hs; inversion Hs; subst.
        -- left. reflexivity.
        -- right. apply (IH (pre ++ [c1]) 0%nat u c post);
             [left; reflexivity | reflexivity|].
           rewrite <- app_assoc. exact Hun.
    + destruct Hinv as [Hk | (word & pre0 & seg & Hin & Hpre & Hlen & Hp)];
        [discriminate|].
      destruct u as [|c1 u]; cbn [app] in Hs; inversion Hs; subst.
      * exfalso. rewrite app_nil_r in Hun.
        rewrite (Hun word pre0 seg Hin eq_refl) in Hp; [discriminate | lia].
      * apply (IH ((pre0 ++ seg) ++ [c1]) k u c post); [|reflexivity|].
        -- right. exists word, pre0, (seg ++ [c1]).
           split; [exact Hin|]. split; [rewrite app_assoc; reflexivity|].
           split; [rewrite length_app; cbn [length]; lia|].
           rewrite <- app_assoc. exact Hp.
        -- rewrite <- app_assoc. exact Hun.
Qed.

Lemma hasLyricLetter_uncovered (pre : jsstring) (c : N) (post : jsstring) :
  isLyricLetter c = true ->
  uncovered pre c post ->
  hasLyricLetter (pre ++ c :: post) = true.
Proof.
  intros Hc Hun. unfold hasLyricLetter. apply existsb_exists.
  exists c. split; [|exact Hc].
  unfold replaceAll.
  apply (replace_keeps_uncovered (pre ++ c :: post) [] 0%nat pre c post);
    [left; reflexivity | reflexivity | exact Hun].
Qed.

(** X21. A line with a letter h-z or H-Z at a position that no
    occurrence of min, maj, aug, dim, sus, add or flat (in any case)
    covers has no chords for [parseChordsInLine]: the letter survives the
    removal of those words and the line counts as lyrics. The m of a
    minor chord such as Am or F#m7 is such a letter. *)
Theorem parseChordsInLine_lyric_letter :
  forall (pre : jsstring) (c : N) (post : jsstring),
    inRange 104 122 c || inRange 72 90 c = true ->
    (forall word pre0 seg,
        In word [lit "min"; lit "maj"; lit "aug"; lit "dim"; lit "sus";
                 lit "add"; lit "flat"] ->
        pre = pre0 ++ seg ->
        (length seg < length word)%nat ->
        ciPrefix word (seg ++ c :: post) = false) ->
    hasLyricLetter (pre ++ c :: post) = true
    /\ parseChordsInLine (pre ++ c :: post) = [].
Proof.
  intros pre c post Hc Hun.
  pose proof (hasLyricLetter_uncovered pre c post Hc Hun) as Hl.
  split; [exact Hl|].
  unfold parseChordsInLine. rewrite Hl.
  destruct (negb (truthy (pre ++ c :: post))); reflexivity.
Qed.

Lemma parseChordsInLine_lyric_letter_witness :
  hasLyricLetter (lit "F#m7  Gsus4") = true
  /\ parseChordsInLine (lit "F#m7  Gsus4") = [].
Proof.
  apply (parseChordsInLine_lyric_letter (lit "F#") 109%N (lit "7  Gsus4"));
    [reflexivity|].
  intros word pre0 seg Hin Hpre Hlen.
  destruct pre0 as [|a [|b [|d pre0]]]; cbn [app] in Hpre;
    [subst seg | injection Hpre as <- <- | injection Hpre as <- <- <-
    | discriminate];
    cbn [In] in Hin;
    repeat (destruct Hin as [<- | Hin]; [reflexivity|]);
    destruct Hin.
Defined.

(** ** The chords of a song *)

Lemma allChords_fold_NoDup (lines : list jsstring) :
  forall allChords,
    NoDup allChords ->
    NoDup (fold_left (fun allChords line =>
                        fold_left setAdd (parseChordsInLine line) allChords)
                     lines allChords).
Proof.
  induction lines as [|line lines IH]; intros allChords Hnd; cbn [fold_left];
    [exact Hnd|].
  apply IH. apply setAdd_fold_NoDup. exact Hnd.
Qed.

Lemma allChords_fold_In (lines : list jsstring) (chord : jsstring) :
  forall allChords,
    In chord (fold_left (fun allChords line =>
                           fold_left setAdd (parseChordsInLine line) allChords)
                        lines allChords)
    <-> In chord allChords
        \/ exists line, In line lines /\ In chord (parseChordsInLine line).
Proof.
  induction lines as [|line lines IH]; intros allChords; cbn [fold_left].
  - split; [tauto|]. intros [H | (line & [] & _)]. exact H.
  - rewrite IH, setAdd_fold_In. split.
    + intros [[H | H] | (l & Hl & Hc)].
      * left. exact H.
      * right. exists line. split; [left; reflexivity | exact H].
      * right. exists l. split; [right; exact Hl | exact Hc].
    + intros [H | (l & [<- | Hl] & Hc)].
      * left. left. exact H.
      * left. right. exact Hc.
      * right. exists l. split; assumption.
Qed.

Lemma splitOn_join (sep : N) (s : jsstring) :
  Forall (fun piece => ~ In sep piece) (splitOn sep s)
  /\ exists piece pieces,
       splitOn sep s = piece :: pieces
       /\ s = piece ++ concat (map (fun p => sep :: p) pieces).
Proof.
  induction s as [|c s IH]; cbn [splitOn].
  - split; [repeat constructor; intros []|].
    exists [], []. split; reflexivity.
  - destruct IH as [Hall (piece & pieces & Hsplit & Hs)].
    destruct (c =? sep)%N eqn:E.
    + apply N.eqb_eq in E. subst c. split.
      * constructor; [intros []|exact Hall].
      * exists [], (splitOn sep s). split; [reflexivity|].
        rewrite Hsplit. cbn [map concat app]. rewrite <- Hs. reflexivity.
    + rewrite Hsplit in *. split.
      * inversion Hall; subst. constructor; [|assumption].
        intros [Hc | Hin]; [|contradiction].
        subst c. rewrite N.eqb_refl in E. discriminate.
      * exists (c :: piece), pieces. split; [reflexivity|].
        cbn [app]. rewrite <- Hs. reflexivity.
Qed.

(** X22. [getAllChordsInSong] returns each chord once: a chord is in the
    result exactly if [parseChordsInLine] finds it in one of the lines of
    the content, the lines being the pieces between the newlines. The
    chords shown by the cheat sheet are those of them that are in the
    chord book, again each once. *)
Theorem getAllChordsInSong_members :
  forall (content : jsstring) (chordBook : list jsstring),
    NoDup (getAllChordsInSong content)
    /\ (forall chord,
           In chord (getAllChordsInSong content)
           <-> exists line, In line (splitOn 10 content)
                            /\ In chord (parseChordsInLine line))
    /\ Forall (fun line => ~ In 10%N line) (splitOn 10 content)
    /\ (exists line lines,
           splitOn 10 content = line :: lines
           /\ content = line ++ concat (map (fun l => 10%N :: l) lines))
    /\ NoDup (relevantChords content chordBook)
    /\ (forall chord,
           In chord (relevantChords content chordBook)
           <-> In chord (getAllChordsInSong content) /\ In chord chordBook).
Proof.
  intros content chordBook.
  split; [apply allChords_fold_NoDup; constructor|].
  split.
  { intros chord. unfold getAllChordsInSong. rewrite allChords_fold_In.
    cbn [In]. tauto. }
  split; [exact (proj1 (splitOn_join 10 content))|].
  split; [exact (proj2 (splitOn_join 10 content))|].
  split.
  - unfold relevantChords. apply NoDup_filter.
    apply allChords_fold_NoDup. constructor.
  - intros chord. unfold relevantChords. rewrite filter_In, includes_spec.
    tauto.
Qed.

(** X23. The roots the performance view compares the detected note with:
    each is the root of a chord of the first line of the section, it is
    never a flat Db, Eb, Gb, Ab or Bb, and it is one of [NOTE_NAMES]
    unless it is Cb, Fb, E# or B#. *)
Theorem nextSectionRoots_note_names :
  forall (upperCaseOther : N -> jsstring) (nextSection root : jsstring),
    In root (nextSectionRoots upperCaseOther nextSection) ->
    (exists chord,
        In chord (parseChordsInLine (nth 0 (splitOn 10 nextSection) []))
        /\ getRootNote upperCaseOther chord = Some root)
    /\ includes [lit "Db"; lit "Eb"; lit "Gb"; lit "Ab"; lit "Bb"] root = false
    /\ includes NOTE_NAMES root
       = negb (includes [lit "Cb"; lit "Fb"; lit "E#"; lit "B#"] root).
Proof.
  intros upperCaseOther nextSection root Hin.
  unfold nextSectionRoots in Hin. apply in_concat in Hin.
  destruct Hin as (roots & Hroots & Hr).
  apply in_map_iff in Hroots. destruct Hroots as (chord & Heq & Hchord).
  destruct (parseChordsInLine_sound _ _ Hchord)
    as (_ & pre & c & rest & post & _ & Hc & Hrange & _).
  subst chord.
  destruct (getRootNote_root_letter upperCaseOther c rest)
    as (root' & Hroot & Ht & Hf & Hn);
    [rewrite Hrange; reflexivity|].
  rewrite Hroot, Ht in Heq. subst roots. destruct Hr as [<- | []].
  split; [exists (c :: rest); split; assumption|].
  split; assumption.
Qed.

Lemma nextSectionRoots_note_names_witness :
  nextSectionRoots (fun c => [c])
    (lit "Bb  F#7  Cb" ++ [10%N] ++ lit "la la la")
  = [lit "A#"; lit "F#"; lit "Cb"]
  /\ includes NOTE_NAMES (lit "A#")
     = negb (includes [lit "Cb"; lit "Fb"; lit "E#"; lit "B#"] (lit "A#")).
Proof.
  split; [reflexivity|].
  apply (nextSectionRoots_note_names (fun c => [c])
           (lit "Bb  F#7  Cb" ++ [10%N] ++ lit "la la la") (lit "A#")).
  left. reflexivity.
Defined.

(** ** Importing into the application *)

Lemma parseSongFromFile_pdf_pair_throws (referenceErrorMessage : jsstring -> jsstring)
  (Json : Type) (generateContent : list Part -> result jsstring)
  (jsonParse : jsstring -> result Json) (file : File)
  (rawItems : list PdfTextItem) (i : nat) :
  fileType file = lit "application/pdf" ->
  In rawItems (pdfPages file) ->
  pairAt (classifyLines (mergeAdjacentTextItems rawItems)) i = true ->
  exists e,
    parseSongFromFile referenceErrorMessage generateContent jsonParse file
    = Throw e.
Proof.
  intros Ht Hin Hp.
  destruct (extractTextFromPdf_pair_throws _ _ _ Hin Hp) as (e & He & _).
  eexists. unfold parseSongFromFile, prepareParts.
  rewrite (readParts_pdf file Ht), He. reflexivity.
Qed.

(** X24. [handleImportFromFile] always ends with the loading state
    cleared. When [parseSongFromFile] throws, whatever the reason, the
    songs and the selection are as before and the error shown is the
    fixed "Failed to import from file. ..." message; this is the outcome
    for every PDF of which some page has a pair. When it returns, exactly
    one song is added, in front, with the returned content and a
    non-empty title, it becomes the active song and no error is shown. *)
Theorem handleImportFromFile_outcome :
  forall (referenceErrorMessage : jsstring -> jsstring)
         (generateContent : list Part -> result jsstring)
         (jsonParse : jsstring -> result SongData)
         (numberToString : N -> jsstring) (idTime createdTime : N)
         (file : File) (st : AppState),
    let st' := handleImportFromFile referenceErrorMessage generateContent
                 jsonParse numberToString idTime createdTime file st in
    (isLoading st' = false /\ loadingMessage st' = []
     /\ pendingSongTitle st' = None)
    /\ ((exists e,
            parseSongFromFile referenceErrorMessage generateContent jsonParse
              file = Throw e) ->
        songs st' = songs st /\ activeSongId st' = activeSongId st
        /\ activeSetId st' = activeSetId st
        /\ error st'
           = Some (lit "Failed to import from file. The file format may not be supported."))
    /\ (fileType file = lit "application/pdf" ->
        (exists rawItems i,
            In rawItems (pdfPages file)
            /\ pairAt (classifyLines (mergeAdjacentTextItems rawItems)) i
               = true) ->
        songs st' = songs st
        /\ error st'
           = Some (lit "Failed to import from file. The file format may not be supported."))
    /\ (forall data,
           parseSongFromFile referenceErrorMessage generateContent jsonParse
             file = Ok data ->
           exists song,
             songs st' = song :: songs st
             /\ activeSongId st' = Some (id song)
             /\ activeSetId st' = None
             /\ error st' = None
             /\ id song = lit "song-" ++ numberToString idTime
             /\ songContent song = content data
             /\ (songTitle song = title data \/ title data = [])
             /\ songTitle song <> []).
Proof.
  intros referenceErrorMessage generateContent jsonParse numberToString
         idTime createdTime file st st'.
  assert (Hthrow : forall e,
             parseSongFromFile referenceErrorMessage generateContent jsonParse
               file = Throw e ->
             songs st' = songs st /\ activeSongId st' = activeSongId st
             /\ activeSetId st' = activeSetId st
             /\ error st' = Some importFailureMessage).
  { intros e He. subst st'. unfold handleImportFromFile. rewrite He.
    repeat split. }
  split; [repeat split|]. split; [|split].
  - intros [e He]. exact (Hthrow e He).
  - intros Ht (rawItems & i & Hin & Hp).
    destruct (parseSongFromFile_pdf_pair_throws referenceErrorMessage SongData
                generateContent jsonParse file rawItems i Ht Hin Hp)
      as [e He].
    destruct (Hthrow e He) as (Hs & _ & _ & Herr). split; assumption.
  - intros data Hd. subst st'. unfold handleImportFromFile. rewrite Hd.
    eexists. cbn [songs activeSongId activeSetId error id songContent songTitle].
    repeat split.
    + destruct (title data) as [|c t]; [right; reflexivity | left; reflexivity].
    + destruct (title data) as [|c t]; discriminate.
Qed.

Lemma handleImportFromFile_outcome_witness :
  songs (handleImportFromFile (fun name => name ++ lit " is not defined")
           (fun _ => Ok (lit "{}"))
           (fun _ => Ok {| title := lit "Song"; content := lit "C G" |})
           (fun _ => lit "0") 0 0
           {| fileName := lit "song.pdf"; fileType := lit "application/pdf";
              dataUrl := [];
              pdfPages := [[textItem "C" 0 100 10; textItem "Hello there" 0 90 80]];
              fileText := [] |}
           {| songs := []; activeSongId := None; activeSetId := None;
              isLoading := false; loadingMessage := [];
              pendingSongTitle := None; error := None |})
  = []
  /\ error (handleImportFromFile (fun name => name ++ lit " is not defined")
           (fun _ => Ok (lit "{}"))
           (fun _ => Ok {| title := lit "Song"; content := lit "C G" |})
           (fun _ => lit "0") 0 0
           {| fileName := lit "song.pdf"; fileType := lit "application/pdf";
              dataUrl := [];
              pdfPages := [[textItem "C" 0 100 10; textItem "Hello there" 0 90 80]];
              fileText := [] |}
           {| songs := []; activeSongId := None; activeSetId := None;
              isLoading := false; loadingMessage := [];
              pendingSongTitle := None; error := None |})
    = Some (lit "Failed to import from file. The file format may not be supported.").
Proof.
  apply (proj1 (proj2 (proj2
           (handleImportFromFile_outcome
              (fun name => name ++ lit " is not defined")
              (fun _ => Ok (lit "{}"))
              (fun _ => Ok {| title := lit "Song"; content := lit "C G" |})
              (fun _ => lit "0") 0%N 0%N
              {| fileName := lit "song.pdf"; fileType := lit "application/pdf";
                 dataUrl := [];
                 pdfPages := [[textItem "C" 0 100 10;
                               textItem "Hello there" 0 90 80]];
                 fileText := [] |}
              {| songs := []; activeSongId := None; activeSetId := None;
                 isLoading := false; loadingMessage := [];
                 pendingSongTitle := None; error := None |})))).
  - reflexivity.
  - exists [textItem "C" 0 100 10; textItem "Hello there" 0 90 80], 0%nat.
    split; [left; reflexivity | reflexivity].
Defined.
